(** * go-diskfs: the generic filesystem walker ([filesystem/common.go])

    A shallow embedding of [GenericWalk], [walk] and [readDirInfos], and of
    the squashfs finalize / read-back path that the test file exercises.

    The walker is written against two functions of the Go standard library,
    [strings.ToLower] and [filepath.Join]; they are taken as an interface
    ([GoLib]) so that every general theorem holds for any implementation of
    them.  A concrete instance for ASCII names is given for the examples. *)

From Stdlib Require Import List String Ascii Bool Arith ZArith Lia.
From Stdlib Require Import Permutation Sorted OrderedTypeEx.
Import ListNotations.

Local Open Scope string_scope.
Local Open Scope list_scope.

(** Split a goal at its conjunctions, without unfolding definitions. *)
Ltac splits := repeat match goal with |- _ /\ _ => split end.

(* ------------------------------------------------------------------ *)
(** ** Data model *)

(** [fs.FileInfo]: the walker only looks at [Name()] and [IsDir()]. *)
Record FileInfo : Type := mkInfo { Name : string; IsDir : bool }.

(** The values a non-nil Go [error] can take here: the two sentinels of the
    package and any other error. *)
Inductive errorValue : Type :=
| SkipDir
| SkipAll
| Failure (msg : string).

(** A Go [error]; [None] is [nil]. *)
Definition error : Type := option errorValue.

Definition errorValue_eqb (a b : errorValue) : bool :=
  match a, b with
  | SkipDir, SkipDir => true
  | SkipAll, SkipAll => true
  | Failure x, Failure y => String.eqb x y
  | _, _ => false
  end.

(** [err == sentinel] *)
Definition is_err (e : error) (v : errorValue) : bool :=
  match e with
  | Some x => errorValue_eqb x v
  | None => false
  end.

(** [err != nil] *)
Definition not_nil (e : error) : bool :=
  match e with Some _ => true | None => false end.

(** The part of the [FileSystem] interface the walker uses.  [ReadDir]
    returns Go's pair [([]fs.FileInfo, error)].  The filesystem is not
    changed while it is walked. *)
Record FileSystem : Type := { ReadDir : string -> list FileInfo * error }.

(** The two standard-library functions the walker calls. *)
Class GoLib : Type := {
  ToLower : string -> string;        (* strings.ToLower *)
  Join : string -> string -> string  (* filepath.Join, two elements *)
}.

(** One invocation of the callback, [fn(path, info, err)], and the value it
    returned; a nil [fs.FileInfo] is [None]. *)
Record Call : Type := mkCall {
  call_path : string;
  call_info : option FileInfo;
  call_err : error;
  call_ret : error
}.

(* ------------------------------------------------------------------ *)
(** ** slices.SortFunc *)

Section Sorting.
Context {A : Type}.
Variable cmp : A -> A -> Z.

(** The inner loop of the library's insertion sort: the new element [x]
    moves towards the front while [cmp x y < 0] for its predecessor [y].
    [sorted] is the already sorted part, in which this is the place in
    front of the first [y] with [cmp x y < 0]. *)
Fixpoint insertCmp (x : A) (sorted : list A) : list A :=
  match sorted with
  | [] => [x]
  | y :: rest =>
      if (cmp x y <? 0)%Z then x :: y :: rest else y :: insertCmp x rest
  end.

(** [slices.SortFunc(data, cmp)], as the insertion sort the library runs
    on short slices.  On longer ones the library's pattern-defeating
    quicksort may order entries that compare as equal differently; the
    result is a sorted permutation in both cases. *)
Definition SortFunc (data : list A) : list A :=
  fold_left (fun sorted x => insertCmp x sorted) data [].
End Sorting.

(* ------------------------------------------------------------------ *)
(** ** The walker *)

(** [a >= b] on Go strings: bytewise lexicographic order. *)
Definition string_geb (a b : string) : bool := negb (a <? b)%string.

Section Walker.
Context {L : GoLib}.

(** The comparison function handed to [slices.SortFunc]. *)
Definition cmpInfo (a b : FileInfo) : Z :=
  if string_geb (ToLower (Name a)) (ToLower (Name b)) then 1%Z else (-1)%Z.

Definition readDirInfos (f : FileSystem) (dirname : string)
  : list FileInfo * error :=
  let '(dirs, err) := ReadDir f dirname in
  if not_nil err then ([], err)
  else (SortFunc cmpInfo dirs, None).

(** The callback may keep state of its own (a Go closure): it is a
    function on a state [St]. *)
Variable St : Type.

Definition WalkFunc : Type :=
  string -> option FileInfo -> error -> St -> error * St.

(** Computations of the walker: they thread the callback's state, record
    the invocations of the callback, and fail with [None] only when the
    recursion budget ([fuel]) is used up. *)
Definition Walk (R : Type) : Type := St -> option (R * St * list Call).

Definition ret {R} (r : R) : Walk R := fun s => Some (r, s, []).

(** The outcome [m] of a computation that ran after the calls [t1]. *)
Definition after {R} (t1 : list Call) (m : option (R * St * list Call))
  : option (R * St * list Call) :=
  match m with
  | None => None
  | Some (q, s2, t2) => Some (q, s2, t1 ++ t2)
  end.

Definition bind {R Q} (m : Walk R) (k : R -> Walk Q) : Walk Q :=
  fun s =>
    match m s with
    | None => None
    | Some (r, s1, t1) => after t1 (k r s1)
    end.

Definition outOfFuel {R} : Walk R := fun _ => None.

(** [fn(path, info, err)] *)
Definition invoke (fn : WalkFunc) (path : string) (info : option FileInfo)
           (err : error) : Walk error :=
  fun s => let '(r, s') := fn path info err s in
           Some (r, s', [mkCall path info err r]).

Notation "x <- m ;; k" := (bind m (fun x => k))
  (at level 61, m at next level, right associativity).

Variable filesystem : FileSystem.
Variable walkFn : WalkFunc.

Definition isDot (name : string) : bool :=
  String.eqb name "." || String.eqb name "..".

(** The [for _, fileInfo := range infos] loop of [walk].  [err] is the
    variable of the enclosing function, which the loop body assigns and
    which therefore carries over from one iteration to the next; [rec] is
    the recursive call. *)
Fixpoint walkLoop (rec : string -> FileInfo -> Walk error) (path : string)
         (err : error) (infos : list FileInfo) : Walk error :=
  match infos with
  | [] => ret None
  | fileInfo :: rest =>
      let name := Name fileInfo in
      if isDot name then walkLoop rec path err rest
      else
        let filename := Join path name in
        if not_nil err then
          e <- invoke walkFn filename (Some fileInfo) err ;;
          if not_nil e && negb (is_err e SkipDir) then ret e
          else walkLoop rec path err rest
        else
          err' <- rec filename fileInfo ;;
          if not_nil err' && (negb (IsDir fileInfo) || negb (is_err err' SkipDir))
          then ret err'
          else walkLoop rec path err' rest
  end.

Fixpoint walk (fuel : nat) (path : string) (info : FileInfo) : Walk error :=
  match fuel with
  | O => outOfFuel
  | S fuel' =>
      if negb (IsDir info) then invoke walkFn path (Some info) None
      else
        let '(infos, err) := readDirInfos filesystem path in
        err1 <- invoke walkFn path (Some info) err ;;
        if not_nil err || not_nil err1 then ret err1
        else walkLoop (walk fuel') path err infos
  end.

(** The [for _, i := range infos] loop of [GenericWalk]; at its end the
    function returns [err], the result of the last call of [walk]. *)
Fixpoint rootLoop (rec : string -> FileInfo -> Walk error) (root : string)
         (err : error) (infos : list FileInfo) : Walk error :=
  match infos with
  | [] => ret err
  | i :: rest =>
      let filename := Join root (Name i) in
      err' <- rec filename i ;;
      if is_err err' SkipDir || is_err err' SkipAll then ret None
      else rootLoop rec root err' rest
  end.

Definition GenericWalk (fuel : nat) (root : string) : Walk error :=
  let '(infos, err) := readDirInfos filesystem root in
  if not_nil err then invoke walkFn root None err
  else rootLoop (walk fuel) root err infos.

End Walker.

Arguments ret {St R} r _.
Arguments after {St R} t1 m.
Arguments bind {St R Q} m k _.
Arguments invoke {St} fn path info err _.
Arguments walkLoop {L St} walkFn rec path err infos _.
Arguments walk {L St} filesystem walkFn fuel path info _.
Arguments rootLoop {L St} rec root err infos _.
Arguments GenericWalk {L St} filesystem walkFn fuel root _.

(* ------------------------------------------------------------------ *)
(** ** Filesystem trees *)

(** A finite tree of entries: a file has no children, a directory has the
    entries it contains. *)
#[local] Set Warnings "-register-all".
Inductive tree : Type := Node (info : FileInfo) (children : list tree).
#[local] Set Warnings "register-all".

Definition root (t : tree) : FileInfo := let 'Node i _ := t in i.

Definition children (t : tree) : list tree := let 'Node _ ts := t in ts.

(** The number of levels of a tree. *)
Fixpoint height (t : tree) : nat :=
  match t with
  | Node _ ts => S (list_max (map height ts))
  end.

(** The callback answered [SkipAll] to this invocation. *)
Definition abortsAt (c : Call) : bool := is_err (call_ret c) SkipAll.

Definition noAbort (tr : list Call) : Prop :=
  Forall (fun c => abortsAt c = false) tr.

(** The callback never answered [SkipAll], or it did so to the last
    invocation of the trace and the computation returned [r]. *)
Definition abortIsLast (r result : error) (tr : list Call) : Prop :=
  noAbort tr \/
  (result = r /\
   exists pre c, tr = pre ++ [c] /\ noAbort pre /\ abortsAt c = true).

Definition forestHeight (ts : list tree) : nat := list_max (map height ts).

Definition notDot (i : FileInfo) : bool := negb (isDot (Name i)).

(** The invocation is for an entry named [.] or [..]. *)
Definition dotCall (c : Call) : bool :=
  match call_info c with
  | Some i => isDot (Name i)
  | None => false
  end.

Section Trees.
Context {L : GoLib}.

(** Order of two entries by their names in lower case. *)
Definition infoLe (a b : FileInfo) : Prop :=
  (ToLower (Name a) <=? ToLower (Name b))%string = true.

(** The pre-order listing of a tree found at [path], as the calls of a
    callback that is passed no error and returns nil: the entry itself
    first, then the listing of each of its children in turn. *)
Fixpoint preorder (path : string) (t : tree) : list Call :=
  match t with
  | Node i ts =>
      mkCall path (Some i) None None
        :: flat_map (fun c => preorder (Join path (Name (root c))) c) ts
  end.

Definition preorderForest (dirpath : string) (ts : list tree) : list Call :=
  flat_map (fun c => preorder (Join dirpath (Name (root c))) c) ts.

(** [describes f path t]: the tree [t] is what the filesystem [f] holds at
    [path].  Every directory of [t] can be read, and its listing consists
    of its children in [t], in any order, and possibly of the entries [.]
    and [..], which are links and not entries of the tree. *)
Fixpoint describes (f : FileSystem) (path : string) (t : tree) : Prop :=
  match t with
  | Node i ts =>
      if IsDir i then
        exists listing,
          ReadDir f path = (listing, None) /\
          filter notDot listing = map root ts /\
          (fix all (cs : list tree) : Prop :=
             match cs with
             | [] => True
             | c :: rest =>
                 describes f (Join path (Name (root c))) c /\ all rest
             end) ts
      else ts = []
  end.

(** [within dirpath ts p d]: the entry [d] occurs, at the path [p], in
    the forest [ts] of the entries of the directory [dirpath], at any
    depth. *)
Inductive within : string -> list tree -> string -> tree -> Prop :=
| within_here : forall dirpath ts c,
    In c ts -> within dirpath ts (Join dirpath (Name (root c))) c
| within_below : forall dirpath ts c p d,
    In c ts ->
    within (Join dirpath (Name (root c))) (children c) p d ->
    within dirpath ts p d.

(** The filesystem below [dirpath] is the forest [ts]: [dirpath] can be
    read, and its listing consists of the roots of [ts], in any order, and
    possibly of the entries [.] and [..], as for every directory of the
    tree. *)
Definition describesRoot (f : FileSystem) (dirpath : string)
           (ts : list tree) : Prop :=
  exists listing,
    ReadDir f dirpath = (listing, None) /\
    filter notDot listing = map root ts /\
    Forall (fun c => describes f (Join dirpath (Name (root c))) c) ts.

(** The listing of [dirpath] holds no entry named [.] or [..]. *)
Definition listsNoDots (f : FileSystem) (dirpath : string) : Prop :=
  Forall (fun i => notDot i = true) (fst (ReadDir f dirpath)).

(** [arranged t u]: [u] is the tree [t] with the entries of every directory
    put in an order in which their names in lower case do not decrease. *)
#[local] Set Warnings "-register-all".
Inductive arranged : tree -> tree -> Prop :=
| arranged_node : forall i ts ts' us,
    Permutation ts ts' ->
    Forall2 arranged ts' us ->
    StronglySorted infoLe (map root us) ->
    arranged (Node i ts) (Node i us).
#[local] Set Warnings "register-all".

(** The same for the forest of the entries of a directory. *)
Definition arrangedForest (ts us : list tree) : Prop :=
  exists ts',
    Permutation ts ts' /\
    Forall2 arranged ts' us /\
    StronglySorted infoLe (map root us).

(** The part of a filesystem that [walk] can reach from an entry is
    finite and has no cycle: the unfolding of the listings is
    well-founded.  Directories that cannot be read are leaves. *)
Inductive WalkFinite (f : FileSystem) : string -> FileInfo -> Prop :=
| wf_file : forall path i, IsDir i = false -> WalkFinite f path i
| wf_dir : forall path i,
    IsDir i = true ->
    (forall c, snd (ReadDir f path) = None ->
               In c (fst (ReadDir f path)) ->
               notDot c = true ->
               WalkFinite f (Join path (Name c)) c) ->
    WalkFinite f path i.

(** The same for the root of a walk, whose listing is not filtered. *)
Definition RootFinite (f : FileSystem) (dirpath : string) : Prop :=
  forall c, snd (ReadDir f dirpath) = None ->
            In c (fst (ReadDir f dirpath)) ->
            WalkFinite f (Join dirpath (Name c)) c.

(** A trace starts with the invocation of the callback on entry [i]. *)
Definition startsWith (path : string) (i : FileInfo) (seg : list Call)
  : Prop :=
  exists e r rest, seg = mkCall path (Some i) e r :: rest.

(** The trace consists of one segment for each entry of [visited], in
    this order, and each segment starts with the invocation of the
    callback on that entry of the directory [dirpath]. *)
Definition visitsInOrder (dirpath : string) (visited : list FileInfo)
           (trace : list Call) : Prop :=
  exists segs,
    trace = List.concat segs /\
    Forall2 (fun i seg => startsWith (Join dirpath (Name i)) i seg)
            visited segs.

(** [l] starts with [p]. *)
Definition prefixOf {A} (p l : list A) : Prop := exists rest, l = p ++ rest.

End Trees.

Section Callbacks.
Variable St : Type.

(** A callback that returns nil whatever it is passed. *)
Definition alwaysNilFn (fn : WalkFunc St) : Prop :=
  forall path info err s, fst (fn path info err s) = None.

(** The state of the callback after the calls of a trace. *)
Definition runCalls (fn : WalkFunc St) (calls : list Call) (s : St) : St :=
  fold_left
    (fun s c => snd (fn (call_path c) (call_info c) (call_err c) s))
    calls s.
End Callbacks.

(** Every trace of [rec] starts with the invocation of the callback on the
    entry that [rec] was applied to. *)
Definition headed {St : Type} (rec : string -> FileInfo -> Walk St error)
  : Prop :=
  forall p i s r s' tr, rec p i s = Some (r, s', tr) -> startsWith p i tr.

(** [rec] only ever returns nil. *)
Definition returnsNil {St : Type} (rec : string -> FileInfo -> Walk St error)
  : Prop :=
  forall p i s r s' tr, rec p i s = Some (r, s', tr) -> r = None.

Arguments alwaysNilFn {St} fn.
Arguments runCalls {St} fn calls s.

(** [rec] visits every tree of at most [n] levels that the filesystem holds
    in pre-order, the entries of each directory in an order of
    non-decreasing lower-case names, each entry once, and returns nil. *)
Definition walksArranged {L : GoLib} {St : Type} (f : FileSystem)
           (fn : WalkFunc St) (rec : string -> FileInfo -> Walk St error)
           (n : nat) : Prop :=
  forall t path s,
    describes f path t -> height t <= n ->
    exists u,
      arranged t u /\
      Permutation (preorder path u) (preorder path t) /\
      rec path (root t) s =
        Some (None, runCalls fn (preorder path u) s, preorder path u).

(** The state of a loop over the entries of a directory: the variable
    [err], the value that the loop has returned if it has, and the state of
    the callback. *)
Record Loop (St : Type) : Type := mkLoop {
  carried : error;
  returned : option error;
  store : St
}.

Arguments mkLoop {St} _ _ _.
Arguments carried {St} _.
Arguments returned {St} _.
Arguments store {St} _.

(** [inTurn step x visited tr x']: the loop has gone through the entries
    [visited], one after the other in this order, from the state [x] to the
    state [x'].  The trace [tr] is made of one segment for each entry, in
    the same order, each segment is what [step] does on its entry from the
    state in which the segment before left the loop, and no iteration is
    made once the loop has returned. *)
Inductive inTurn {St : Type}
          (step : Loop St -> FileInfo -> list Call -> Loop St -> Prop)
  : Loop St -> list FileInfo -> list Call -> Loop St -> Prop :=
| inTurn_nil : forall x, inTurn step x [] [] x
| inTurn_cons : forall x i seg x1 rest tr x2,
    returned x = None ->
    step x i seg x1 ->
    inTurn step x1 rest tr x2 ->
    inTurn step x (i :: rest) (seg ++ tr) x2.

(** One iteration of the loop of [GenericWalk] on the entry [i]: the whole
    walk of the entry, whose calls are [seg] and whose result [e] is kept
    in [err]; the loop returns nil when [e] is [SkipDir] or [SkipAll]. *)
Definition rootStep {L : GoLib} {St : Type} (f : FileSystem)
           (fn : WalkFunc St) (fuel : nat) (dirpath : string)
  : Loop St -> FileInfo -> list Call -> Loop St -> Prop :=
  fun x i seg x' =>
    exists e,
      walk f fn fuel (Join dirpath (Name i)) i (store x)
        = Some (e, store x', seg) /\
      carried x' = e /\
      returned x' =
        (if is_err e SkipDir || is_err e SkipAll then Some None else None).

(** One iteration of the loop of [walk] on the entry [i].  While [err] is
    nil the entry is walked by [rec], and the result is kept in [err];
    otherwise the callback is invoked on the entry with [err], which stays
    as it is.  In both cases the calls made are [seg], and the loop returns
    the result [e] when it is neither nil nor (for a directory, in the first
    case) [SkipDir]. *)
Definition loopStep {L : GoLib} {St : Type} (fn : WalkFunc St)
           (rec : string -> FileInfo -> Walk St error) (path : string)
  : Loop St -> FileInfo -> list Call -> Loop St -> Prop :=
  fun x i seg x' =>
    let filename := Join path (Name i) in
    match carried x with
    | None =>
        exists e,
          rec filename i (store x) = Some (e, store x', seg) /\
          carried x' = e /\
          returned x' =
            (if not_nil e && (negb (IsDir i) || negb (is_err e SkipDir))
             then Some e else None)
    | Some v =>
        exists e,
          invoke fn filename (Some i) (Some v) (store x)
            = Some (e, store x', seg) /\
          carried x' = Some v /\
          returned x' =
            (if not_nil e && negb (is_err e SkipDir) then Some e else None)
    end.

(** What the loop of [GenericWalk] returns from the state [x]: nil after a
    [SkipDir] or [SkipAll], the result of the last walk otherwise. *)
Definition rootResult {St : Type} (x : Loop St) : error :=
  match returned x with
  | Some r => r
  | None => carried x
  end.

(** What the loop of [walk] returns from the state [x]: the result that
    ended it, nil when it went through the whole listing. *)
Definition loopResult {St : Type} (x : Loop St) : error :=
  match returned x with
  | Some r => r
  | None => None
  end.
(* ------------------------------------------------------------------ *)
(** ** A concrete standard library, for ASCII names *)

Module GoStd.

(** [strings.ToLower] on ASCII: [A]..[Z] become [a]..[z]. *)
Definition lowerAscii (c : ascii) : ascii :=
  let n := nat_of_ascii c in
  if ((65 <=? n)%nat && (n <=? 90)%nat)%bool then ascii_of_nat (n + 32) else c.

Fixpoint asciiToLower (s : string) : string :=
  match s with
  | EmptyString => EmptyString
  | String c rest => String (lowerAscii c) (asciiToLower rest)
  end.

(** The elements of a path between its separators. *)
Fixpoint splitSlash (s : string) (cur : string) : list string :=
  match s with
  | EmptyString => [cur]
  | String c rest =>
      if Ascii.eqb c "/" then cur :: splitSlash rest ""
      else splitSlash rest (cur ++ String c "")
  end.

Definition isRooted (s : string) : bool :=
  match s with
  | String c _ => Ascii.eqb c "/"
  | EmptyString => false
  end.

(** One element of [filepath.Clean]: empty elements and [.] vanish, [..]
    removes the element before it, is dropped at the root and is kept at
    the front of a relative path.  [done] is reversed. *)
Definition cleanStep (rooted : bool) (done : list string) (elem : string)
  : list string :=
  if String.eqb elem "" || String.eqb elem "." then done
  else if String.eqb elem ".." then
    match done with
    | [] => if rooted then [] else [".."]
    | top :: below => if String.eqb top ".." then ".." :: done else below
    end
  else elem :: done.

Fixpoint joinSlash (elems : list string) : string :=
  match elems with
  | [] => ""
  | [e] => e
  | e :: rest => e ++ "/" ++ joinSlash rest
  end.

(** [filepath.Clean] on slash-separated paths. *)
Definition Clean (path : string) : string :=
  let rooted := isRooted path in
  let elems := rev (fold_left (cleanStep rooted) (splitSlash path "") []) in
  match rooted, elems with
  | true, _ => "/" ++ joinSlash elems
  | false, [] => "."
  | false, _ => joinSlash elems
  end.

(** [filepath.Join(a, b)]: empty elements are ignored, the others are
    joined by a separator and the result is cleaned. *)
Definition JoinClean (a b : string) : string :=
  if String.eqb a "" then (if String.eqb b "" then "" else Clean b)
  else if String.eqb b "" then Clean a
  else Clean (a ++ "/" ++ b).

#[export] Instance lib : GoLib :=
  {| ToLower := asciiToLower; Join := JoinClean |}.

End GoStd.

(* ------------------------------------------------------------------ *)
(** ** Example filesystems and callbacks *)

Module Examples.
Import GoStd.

Definition file (n : string) : FileInfo := mkInfo n false.
Definition dir (n : string) : FileInfo := mkInfo n true.

(** A filesystem given by the table of its directory listings; reading a
    path that is not in the table fails. *)
Fixpoint lookupDir (table : list (string * (list FileInfo * error)))
         (path : string) : list FileInfo * error :=
  match table with
  | [] => ([], Some (Failure "no such directory"))
  | (p, r) :: rest => if String.eqb p path then r else lookupDir rest path
  end.

Definition tableFS (table : list (string * (list FileInfo * error)))
  : FileSystem := {| ReadDir := lookupDir table |}.

(** A callback without state that answers by the path alone. *)
Definition byPath (answers : list (string * error)) : WalkFunc unit :=
  fun path _ _ s =>
    ((fix find (l : list (string * error)) : error :=
        match l with
        | [] => None
        | (p, e) :: rest => if String.eqb p path then e else find rest
        end) answers, s).

Definition alwaysNil : WalkFunc unit := byPath [].

(** A small filesystem below [/r]: two directories and a file at the top,
    names in mixed case, and a directory that lists [.] and [..]. *)
Definition smallFS : FileSystem :=
  tableFS [("/r", ([dir "b"; file "C"; dir "A"], None));
           ("/r/A", ([file "y"; dir "."; file "X"; dir ".."], None));
           ("/r/b", ([], None))].

Definition smallForest : list tree :=
  [Node (dir "b") [];
   Node (file "C") [];
   Node (dir "A") [Node (file "y") []; Node (file "X") []]].

(** A filesystem whose root cannot be read. *)
Definition brokenFS : FileSystem := tableFS [].

(** A filesystem with a directory [/r/locked] that cannot be read. *)
Definition lockedFS : FileSystem :=
  tableFS [("/r", ([dir "locked"; file "z"], None));
           ("/r/locked", ([], Some (Failure "permission denied")))].

(** A directory whose own listing holds the entries [.] and [..], walked
    as the root. *)
Definition dottedFS : FileSystem :=
  tableFS [("/", ([dir "sub"; file "top"], None));
           ("/sub", ([dir "."; dir ".."; file "f"], None))].

(** Two directories side by side, below the root and one level down. *)
Definition siblingsFS : FileSystem :=
  tableFS [("/", ([dir "d"], None));
           ("/d", ([dir "a"; dir "b"], None));
           ("/d/a", ([file "x"], None));
           ("/d/b", ([file "y"], None))].

Definition topSiblingsFS : FileSystem :=
  tableFS [("/", ([dir "a"; dir "b"], None));
           ("/a", ([file "x"], None));
           ("/b", ([file "y"], None))].

End Examples.
(* ------------------------------------------------------------------ *)
(** ** The squashfs engine: staging, finalize, read back

    The engine itself ([squashfs.Create], [Mkdir], [OpenFile], [Symlink],
    [Finalize], [Read], [ReadDir], [Readlink]) is not among the sources;
    only its test is.  This part follows the specification of the engine:
    the data model of its section 3 and the components of its section 4. *)

Module Squashfs.
Import Byte.

#[local] Abbreviation length := List.length.
#[local] Open Scope nat_scope.

Definition bytes : Type := list byte.

(** Modelled from the spec: the compression capability, [compress(bytes)]
    and [decompress(bytes, expected_size)], which the engine consumes as a
    pluggable codec (the codec itself is missing from the sources). *)
Class Codec : Type := {
  compress : bytes -> bytes;
  decompress : bytes -> nat -> bytes
}.

(** Modelled from the spec: what the engine relies on of a codec, that
    decompressing a compressed block with room for it gives the block
    back. *)
Definition CodecRoundTrip (C : Codec) : Prop :=
  forall (b : bytes) (n : nat), length b <= n -> decompress (compress b) n = b.

(** Modelled from the spec: the error taxonomy of section 7, as far as the
    reader can raise it. *)
Inductive fsError : Type :=
| NotFound
| NotADirectory
| TypeMismatch
| NotASymlink
| CorruptTable
| BrokenSymlink
| SymlinkLoop.

Definition result (A : Type) : Type := (A + fsError)%type.

Definition andThen {A B} (r : result A) (k : A -> result B) : result B :=
  match r with
  | inl a => k a
  | inr e => inr e
  end.

Definition orError {A} (o : option A) (e : fsError) : result A :=
  match o with
  | Some a => inl a
  | None => inr e
  end.

(** Modelled from the spec: StagingNode, the tagged variant of section 3.
    A directory owns its children by name, a file the bytes written to it,
    a symlink its target, which is not validated. *)
#[local] Set Warnings "-register-all".
Inductive StagingNode : Type :=
| Directory (entries : list (string * StagingNode))
| File (content : bytes)
| Symlink (target : string).
#[local] Set Warnings "register-all".

Inductive Kind : Type := KFile | KDir | KSymlink.

Definition kindOf (n : StagingNode) : Kind :=
  match n with
  | Directory _ => KDir
  | File _ => KFile
  | Symlink _ => KSymlink
  end.

(** Look up [name] among the children of a staged directory: exact,
    case-sensitive match. *)
Fixpoint child (name : string) (entries : list (string * StagingNode))
  : option StagingNode :=
  match entries with
  | [] => None
  | (n, c) :: rest => if String.eqb n name then Some c else child name rest
  end.

(** The staged node at a path, given by its segments. *)
Fixpoint nodeAt (n : StagingNode) (segs : list string) : option StagingNode :=
  match segs with
  | [] => Some n
  | seg :: rest =>
      match n with
      | Directory entries =>
          match child seg entries with
          | Some c => nodeAt c rest
          | None => None
          end
      | _ => None
      end
  end.

(** Modelled from the spec: MetadataRef, a (block index, intra-block
    offset) pair into a metadata table. *)
Record MetadataRef : Type := mkRef { mblock : nat; moffset : nat }.

(** Modelled from the spec: where a stored block lies in the data area:
    on-disk offset, stored length, and the compressed flag. *)
Record BlockLoc : Type := mkLoc {
  loc_offset : nat;
  loc_stored : nat;
  loc_compressed : bool
}.

(** Modelled from the spec: the fragment reference of a DataBlockRef:
    fragment-block index, intra-block offset, length. *)
Record FragRef : Type := mkFrag { frag_block : nat; frag_offset : nat; frag_len : nat }.

(** Modelled from the spec: InodeRecord, with the payload of each kind
    (sizes and references; ownership and timestamps are left out). *)
Inductive InodeRecord : Type :=
| IFile (size : nat) (blocks : list BlockLoc) (frag : option FragRef)
| IDir (start : MetadataRef) (count : nat)
| ISymlink (target : string).

(** Modelled from the spec: DirectoryEntry (name, inode reference, type
    tag). *)
Record DirectoryEntry : Type := mkEntry {
  de_name : string;
  de_inode : MetadataRef;
  de_kind : Kind
}.

(** Modelled from the spec: the finalized image: the superblock fields
    (block size, inode count, root inode reference), the data area with the
    data and fragment blocks, the fragment table, and the inode and
    directory tables as arenas of records addressed by MetadataRef.
    [metaCap] is the number of records a metadata block holds. *)
Record Image : Type := mkImage {
  sb_blockSize : nat;
  sb_inodeCount : nat;
  sb_root : MetadataRef;
  metaCap : nat;
  dataArea : bytes;
  fragTable : list BlockLoc;
  inodeTable : list InodeRecord;
  dirTable : list DirectoryEntry
}.

(** The state of the finalizer: the tables written so far and the fragment
    block that is still open. *)
Record Builder : Type := mkBuilder {
  b_data : bytes;
  b_fragTable : list BlockLoc;
  b_fragOpen : bytes;
  b_inodes : list InodeRecord;
  b_dirs : list DirectoryEntry
}.

Definition emptyBuilder : Builder := mkBuilder [] [] [] [] [].

(** The stored bytes of a block in a data area, and their decoding;
    [blockSize] is the room given to the codec. *)
Definition fetchIn {C : Codec} (blockSize : nat) (data : bytes) (loc : BlockLoc)
  : bytes :=
  let stored := firstn (loc_stored loc) (skipn (loc_offset loc) data) in
  if loc_compressed loc then decompress stored blockSize else stored.

Section Engine.
Context {C : Codec}.
Variable blockSize : nat.
Variable cap : nat.

(** The reference of the [i]-th record of a table and back. *)
Definition refOf (i : nat) : MetadataRef := mkRef (i / cap) (i mod cap).

Definition indexOf (r : MetadataRef) : nat := mblock r * cap + moffset r.

(* .................................................................. *)
(** *** Data Block Writer *)

(** Modelled from the spec: a block is stored compressed only when the
    compressed form is strictly smaller. *)
Definition storeBlock (chunk : bytes) : bytes * bool :=
  let c := compress chunk in
  if length c <? length chunk then (c, true) else (chunk, false).

Definition writeBlock (chunk : bytes) (b : Builder) : Builder * BlockLoc :=
  let '(payload, flag) := storeBlock chunk in
  (mkBuilder (b_data b ++ payload) (b_fragTable b) (b_fragOpen b)
             (b_inodes b) (b_dirs b),
   mkLoc (length (b_data b)) (length payload) flag).

(** The full blocks of a file, in order, and its trailing remainder. *)
Definition fullBlocks (content : bytes) : list bytes :=
  map (fun k => firstn blockSize (skipn (k * blockSize) content))
      (seq 0 (length content / blockSize)).

Definition tailOf (content : bytes) : bytes :=
  skipn (length content / blockSize * blockSize) content.

Fixpoint writeBlocks (chunks : list bytes) (b : Builder)
  : Builder * list BlockLoc :=
  match chunks with
  | [] => (b, [])
  | chunk :: rest =>
      let '(b1, loc) := writeBlock chunk b in
      let '(b2, locs) := writeBlocks rest b1 in
      (b2, loc :: locs)
  end.

(** Modelled from the spec: the open fragment block is compressed as a unit
    and entered in the fragment table. *)
Definition closeFragment (b : Builder) : Builder :=
  match b_fragOpen b with
  | [] => b
  | _ =>
      let '(b1, loc) := writeBlock (b_fragOpen b) b in
      mkBuilder (b_data b1) (b_fragTable b ++ [loc]) [] (b_inodes b) (b_dirs b)
  end.

(** Modelled from the spec: fragments are packed in file order into shared
    fragment blocks of at most [blockSize] bytes. *)
Definition addFragment (tail : bytes) (b : Builder)
  : Builder * option FragRef :=
  match tail with
  | [] => (b, None)
  | _ =>
      let b1 := if blockSize <? length (b_fragOpen b) + length tail
                then closeFragment b else b in
      (mkBuilder (b_data b1) (b_fragTable b1) (b_fragOpen b1 ++ tail)
                 (b_inodes b1) (b_dirs b1),
       Some (mkFrag (length (b_fragTable b1)) (length (b_fragOpen b1))
                    (length tail)))
  end.

Definition writeFile (content : bytes) (b : Builder) : Builder * InodeRecord :=
  let '(b1, locs) := writeBlocks (fullBlocks content) b in
  let '(b2, frag) := addFragment (tailOf content) b1 in
  (b2, IFile (length content) locs frag).

(* .................................................................. *)
(** *** Metadata Table Builder *)

(** Append an inode record and return its reference. *)
Definition appendInode (ino : InodeRecord) (b : Builder)
  : Builder * MetadataRef :=
  (mkBuilder (b_data b) (b_fragTable b) (b_fragOpen b)
             (b_inodes b ++ [ino]) (b_dirs b),
   refOf (length (b_inodes b))).

(** Append the entry list of a directory and return where it starts. *)
Definition appendEntries (es : list DirectoryEntry) (b : Builder)
  : Builder * MetadataRef :=
  (mkBuilder (b_data b) (b_fragTable b) (b_fragOpen b)
             (b_inodes b) (b_dirs b ++ es),
   refOf (length (b_dirs b))).

(* .................................................................. *)
(** *** Superblock / Finalizer *)

(** The children of a directory, finalized one after the other by [fin];
    the result is the entry list of the directory. *)
Fixpoint finalizeChildren
         (fin : StagingNode -> Builder -> Builder * MetadataRef)
         (l : list (string * StagingNode)) (b : Builder)
  : Builder * list DirectoryEntry :=
  match l with
  | [] => (b, [])
  | (name, c) :: rest =>
      let '(b1, r) := fin c b in
      let '(b2, es) := finalizeChildren fin rest b1 in
      (b2, mkEntry name r (kindOf c) :: es)
  end.

(** Modelled from the spec: the depth-first walk of the staging tree; the
    children of a directory are finalized before its entry list and its
    inode are written. *)
Fixpoint finalizeNode (n : StagingNode) (b : Builder)
  : Builder * MetadataRef :=
  match n with
  | File content =>
      let '(b1, ino) := writeFile content b in appendInode ino b1
  | Symlink target => appendInode (ISymlink target) b
  | Directory entries =>
      let '(b1, es) := finalizeChildren finalizeNode entries b in
      let '(b2, start) := appendEntries es b1 in
      appendInode (IDir start (length es)) b2
  end.

(** Modelled from the spec: [Finalize]: everything is written, the last
    fragment block is closed, and the superblock comes last. *)
Definition finalize (tree : StagingNode) : Image :=
  let '(b, rootRef) := finalizeNode tree emptyBuilder in
  let b' := closeFragment b in
  mkImage blockSize (length (b_inodes b')) rootRef cap
          (b_data b') (b_fragTable b') (b_inodes b') (b_dirs b').

End Engine.

(* .................................................................. *)
(** *** Reader / Resolver *)

Section Reader.
Context {C : Codec}.
Variable img : Image.

Definition imgIndex (r : MetadataRef) : nat :=
  mblock r * metaCap img + moffset r.

Definition lookupInode (r : MetadataRef) : result InodeRecord :=
  orError (nth_error (inodeTable img) (imgIndex r)) CorruptTable.

Definition fetchBlock (loc : BlockLoc) : bytes :=
  fetchIn (sb_blockSize img) (dataArea img) loc.

Definition fetchFragment (fr : FragRef) : result bytes :=
  andThen (orError (nth_error (fragTable img) (frag_block fr)) CorruptTable)
          (fun loc =>
             inl (firstn (frag_len fr) (skipn (frag_offset fr) (fetchBlock loc)))).

(** One piece of a file's content: a full block or the fragment. *)
Inductive Segment : Type :=
| SegBlock (loc : BlockLoc)
| SegFragment (fr : FragRef).

Definition segLength (sg : Segment) : nat :=
  match sg with
  | SegBlock _ => sb_blockSize img
  | SegFragment fr => frag_len fr
  end.

Definition fetchSegment (sg : Segment) : result bytes :=
  match sg with
  | SegBlock loc => inl (fetchBlock loc)
  | SegFragment fr => fetchFragment fr
  end.

Definition segmentsOf (blocks : list BlockLoc) (frag : option FragRef)
  : list Segment :=
  map SegBlock blocks ++ match frag with Some fr => [SegFragment fr] | None => [] end.

(** Modelled from the spec: a positioned read decodes only the blocks that
    the range [off, off + len) touches. *)
Fixpoint readSegments (segs : list Segment) (off len : nat) : result bytes :=
  match segs with
  | [] => inl []
  | sg :: rest =>
      if segLength sg <=? off then readSegments rest (off - segLength sg) len
      else if len =? 0 then inl []
      else
        andThen (fetchSegment sg) (fun data =>
        andThen (readSegments rest 0 (len - (segLength sg - off))) (fun more =>
        inl (firstn len (skipn off data) ++ more)))
  end.

Definition readInode (ino : InodeRecord) (off len : nat) : result bytes :=
  match ino with
  | IFile size blocks frag => readSegments (segmentsOf blocks frag) off len
  | _ => inr TypeMismatch
  end.

(** The entry list of a directory inode. *)
Definition listInode (ino : InodeRecord) : result (list DirectoryEntry) :=
  match ino with
  | IDir start count =>
      let es := firstn count (skipn (imgIndex start) (dirTable img)) in
      if length es =? count then inl es else inr CorruptTable
  | _ => inr NotADirectory
  end.

Fixpoint findEntry (name : string) (es : list DirectoryEntry)
  : option DirectoryEntry :=
  match es with
  | [] => None
  | e :: rest => if String.eqb (de_name e) name then Some e else findEntry name rest
  end.

Definition brokenIfNotFound {A} (r : result A) : result A :=
  match r with
  | inr NotFound => inr BrokenSymlink
  | _ => r
  end.

(** Modelled from the spec: path resolution.  [stack] holds the inodes of
    the directories from the current one up to the root; [follow] resolves
    the target of a symlink.  A symlink in the last position is followed
    only when [followLast] is set. *)
Fixpoint resolveWith
         (follow : list MetadataRef -> list string -> result (list MetadataRef))
         (followLast : bool) (stack : list MetadataRef) (segs : list string)
  : result (list MetadataRef) :=
  match segs with
  | [] => inl stack
  | seg :: rest =>
      if String.eqb seg "" || String.eqb seg "." then
        resolveWith follow followLast stack rest
      else if String.eqb seg ".." then
        resolveWith follow followLast
                    (match stack with _ :: (_ :: _) as up => up | _ => stack end)
                    rest
      else
        andThen (orError (hd_error stack) CorruptTable) (fun cur =>
        andThen (lookupInode cur) (fun ino =>
        andThen (listInode ino) (fun es =>
        andThen (orError (findEntry seg es) NotFound) (fun e =>
        match de_kind e, rest, followLast with
        | KSymlink, [], false => inl (de_inode e :: stack)
        | KSymlink, _, _ =>
            andThen (lookupInode (de_inode e)) (fun lnk =>
            match lnk with
            | ISymlink target =>
                andThen (brokenIfNotFound
                           (follow (if GoStd.isRooted target
                                    then [sb_root img] else stack)
                                   (GoStd.splitSlash target "")))
                        (fun stack' => resolveWith follow followLast stack' rest)
            | _ => inr CorruptTable
            end)
        | _, _, _ => resolveWith follow followLast (de_inode e :: stack) rest
        end))))
  end.

(** Symlinks are followed to a fixed depth. *)
Fixpoint resolve (depth : nat) (followLast : bool)
         (stack : list MetadataRef) (segs : list string)
  : result (list MetadataRef) :=
  match depth with
  | O => resolveWith (fun _ _ => inr SymlinkLoop) followLast stack segs
  | S d => resolveWith (resolve d true) followLast stack segs
  end.

Definition maxSymlinkDepth : nat := 40.

Definition resolveInode (followLast : bool) (segs : list string)
  : result InodeRecord :=
  andThen (resolve maxSymlinkDepth followLast [sb_root img] segs) (fun stack =>
  andThen (orError (hd_error stack) CorruptTable) lookupInode).

(** Modelled from the spec: [read_dir(path)]. *)
Definition read_dir (segs : list string) : result (list DirectoryEntry) :=
  andThen (resolveInode true segs) listInode.

(** Modelled from the spec: [open_file(path)] and [read(handle, offset,
    length)]. *)
Definition read_file (segs : list string) (off len : nat) : result bytes :=
  andThen (resolveInode true segs) (fun ino => readInode ino off len).

(** Modelled from the spec: [readlink(path)]. *)
Definition readlink (segs : list string) : result string :=
  andThen (resolveInode false segs) (fun ino =>
    match ino with
    | ISymlink target => inl target
    | _ => inr NotASymlink
    end).

End Reader.

(** A path segment that names an entry. *)
Definition plainName (seg : string) : bool :=
  negb (String.eqb seg "" || String.eqb seg "." || String.eqb seg "..").

(** What a directory listing shows of an entry. *)
Definition entryView (e : DirectoryEntry) : string * Kind :=
  (de_name e, de_kind e).

Definition childView (c : string * StagingNode) : string * Kind :=
  (fst c, kindOf (snd c)).

(* .................................................................. *)
(** *** What the finalizer maintains *)

Section Invariants.
Context {C : Codec}.
Variable blockSize : nat.
Variable cap : nat.

Definition within_data (b : Builder) (loc : BlockLoc) : Prop :=
  loc_offset loc + loc_stored loc <= length (b_data b).

(** The content of the [i]-th fragment block, closed or still open. *)
Definition fragLogical (b : Builder) (i : nat) : option bytes :=
  match nth_error (b_fragTable b) i with
  | Some loc => Some (fetchIn blockSize (b_data b) loc)
  | None => if i =? length (b_fragTable b) then Some (b_fragOpen b) else None
  end.

Definition wfBuilder (b : Builder) : Prop :=
  length (b_fragOpen b) <= blockSize /\
  Forall (within_data b) (b_fragTable b).

(** The tables only grow, and so does the content of every fragment
    block. *)
Definition extends (b b' : Builder) : Prop :=
  (exists d, b_data b' = b_data b ++ d) /\
  (exists l, b_inodes b' = b_inodes b ++ l) /\
  (exists l, b_dirs b' = b_dirs b ++ l) /\
  (forall i blk, fragLogical b i = Some blk ->
     exists rest, fragLogical b' i = Some (blk ++ rest)).

(** The inode [ino] holds the content of a staged file. *)
Definition fileRep (b : Builder) (ino : InodeRecord) (content : bytes) : Prop :=
  match ino with
  | IFile size locs frag =>
      size = length content /\
      map (fetchIn blockSize (b_data b)) locs = fullBlocks blockSize content /\
      Forall (within_data b) locs /\
      match frag with
      | None => tailOf blockSize content = []
      | Some fr =>
          frag_len fr = length (tailOf blockSize content) /\
          0 < frag_len fr /\
          exists blk,
            fragLogical b (frag_block fr) = Some blk /\
            frag_offset fr + frag_len fr <= length blk /\
            firstn (frag_len fr) (skipn (frag_offset fr) blk)
              = tailOf blockSize content
      end
  | _ => False
  end.

(** The entries [es] are those of the staged children [l], in order, and
    [P] holds of each child at the inode of its entry. *)
Fixpoint allHold (P : MetadataRef -> StagingNode -> Prop)
         (l : list (string * StagingNode)) (es : list DirectoryEntry) : Prop :=
  match l, es with
  | [], [] => True
  | (name, c) :: l', e :: es' =>
      de_name e = name /\ de_kind e = kindOf c /\
      P (de_inode e) c /\ allHold P l' es'
  | _, _ => False
  end.

(** The tables of [b] hold the staged node [n] at the reference [r]. *)
Fixpoint holds (b : Builder) (r : MetadataRef) (n : StagingNode) : Prop :=
  match n with
  | File content =>
      exists ino,
        nth_error (b_inodes b) (indexOf cap r) = Some ino /\
        fileRep b ino content
  | Symlink target =>
      nth_error (b_inodes b) (indexOf cap r) = Some (ISymlink target)
  | Directory entries =>
      exists start es,
        nth_error (b_inodes b) (indexOf cap r) = Some (IDir start (length es)) /\
        indexOf cap start + length es <= length (b_dirs b) /\
        firstn (length es) (skipn (indexOf cap start) (b_dirs b)) = es /\
        allHold (holds b) entries es
  end.

(** [img] is the image made of the tables of [b], whose last fragment
    block has been closed. *)
Definition imageFor (b : Builder) (img : Image) : Prop :=
  sb_blockSize img = blockSize /\ metaCap img = cap /\
  dataArea img = b_data b /\ fragTable img = b_fragTable b /\
  inodeTable img = b_inodes b /\ dirTable img = b_dirs b /\
  b_fragOpen b = [].

(** The image that [b] becomes when the finalizer stops after it. *)
Definition imageOf (b : Builder) (rootRef : MetadataRef) : Image :=
  let b' := closeFragment b in
  mkImage blockSize (length (b_inodes b')) rootRef cap
          (b_data b') (b_fragTable b') (b_inodes b') (b_dirs b').

End Invariants.

(* .................................................................. *)
(** *** An example *)

(** A codec that shortens blocks that begin with two zero bytes and
    lengthens all others. *)
Definition toyCompress (b : bytes) : bytes :=
  match b with
  | x :: y :: rest =>
      if Byte.eqb x x00 && Byte.eqb y x00 then x01 :: rest else x00 :: b
  | _ => x00 :: b
  end.

Definition toyDecompress (c : bytes) (expected : nat) : bytes :=
  match c with
  | h :: rest => if Byte.eqb h x01 then x00 :: x00 :: rest else rest
  | [] => []
  end.

Definition toyCodec : Codec :=
  {| compress := toyCompress; decompress := toyDecompress |}.

Definition exampleTree : StagingNode :=
  Directory
    [("FOO", Directory [("small", File [x66; x6f; x6f]);
                        ("empty", File [])]);
     ("big", File [x00; x00; x01; x02; x05; x06; x07; x08; x09]);
     ("links", Directory [("relative", Symlink "../FOO/small");
                          ("nonexistent", Symlink "/does/not/exist")])].

Definition exampleImage : Image := finalize (C := toyCodec) 4 3 exampleTree.

End Squashfs.
(* ------------------------------------------------------------------ *)
(** ** Further notions about the traces of the walker *)

(** The answer of the callback to this invocation is neither nil nor
    [SkipDir]: an error, or [SkipAll]. *)
Definition stopsAt (c : Call) : bool :=
  not_nil (call_ret c) && negb (is_err (call_ret c) SkipDir).

Definition noStop (tr : list Call) : Prop :=
  Forall (fun c => stopsAt c = false) tr.

(** No answer of the trace is an error or [SkipAll], or the last one is and
    the computation returned it. *)
Definition stopIsLast (r : error) (tr : list Call) : Prop :=
  noStop tr \/
  exists pre c,
    tr = pre ++ [c] /\ noStop pre /\ stopsAt c = true /\ r = call_ret c.

(** [err == SkipDir || err == SkipAll] *)
Definition isSentinel (e : error) : bool :=
  is_err e SkipDir || is_err e SkipAll.

(** The computation returned nil, or what the callback answered to the last
    invocation of the trace. *)
Definition lastReturn (r : error) (tr : list Call) : Prop :=
  r = None \/ exists pre c, tr = pre ++ [c] /\ call_ret c = r.

(** The invocation is for a directory, without an error, and the callback
    answered nil: the walker goes on into the directory. *)
Definition entered (c : Call) : bool :=
  match call_info c with
  | Some i => IsDir i && negb (not_nil (call_err c)) && negb (not_nil (call_ret c))
  | None => false
  end.

(** The invocation is for an entry of the directory [parent]: it carries
    the [FileInfo] of the entry and the path joined from [parent] and the
    name of the entry. *)
Definition childOf {L : GoLib} (parent : string) (c : Call) : Prop :=
  match call_info c with
  | Some i => call_path c = Join parent (Name i)
  | None => False
  end.

(** Every invocation of the trace is for an entry of one of the directories
    [parents] or of a directory that the walker entered earlier in the
    trace. *)
Fixpoint parented {L : GoLib} (parents : list string) (tr : list Call) : Prop :=
  match tr with
  | [] => True
  | c :: rest =>
      (exists p, In p parents /\ childOf p c) /\
      parented (if entered c then call_path c :: parents else parents) rest
  end.

(** The error that the callback is passed is nil, or [SkipDir], or the
    error that [ReadDir] returns for the path of the invocation. *)
Definition errorFrom (f : FileSystem) (c : Call) : Prop :=
  call_err c = None \/
  call_err c = Some SkipDir \/
  snd (ReadDir f (call_path c)) = call_err c.

(** The entries of a listing whose names in lower case are [key]. *)
Definition withKey {L : GoLib} (key : string) (l : list FileInfo)
  : list FileInfo :=
  filter (fun i => String.eqb (ToLower (Name i)) key) l.

(** The longest slice that [slices.SortFunc] sorts by insertion alone. *)
Definition maxInsertion : nat := 12.

(** A recursive call that is never made. *)
Definition neverCalled {St : Type} : string -> FileInfo -> Walk St error :=
  fun _ _ _ => None.

Module MoreExamples.
Import GoStd Examples.

(** A directory with names that differ in case only. *)
Definition collidingFS : FileSystem :=
  tableFS [("/c", ([file "b"; file "a"; file "A"; file "B"], None))].

(** A callback that fails with an error at one path. *)
Definition failAt (path : string) : WalkFunc unit :=
  byPath [(path, Some (Failure "boom"))].

End MoreExamples.

(* ================================================================== *)
(** * Properties *)

(* ------------------------------------------------------------------ *)
(** ** The order of Go strings *)

Lemma string_ltb_compare (a b : string) :
  (a <? b)%string = true <-> String_as_OT.lt a b.
Proof.
  unfold String.ltb. rewrite <- String_as_OT.cmp_lt. unfold String_as_OT.cmp.
  destruct (a ?= b)%string; split; intros H; try discriminate; reflexivity.
Qed.

Lemma string_ltb_leb (a b : string) :
  (a <? b)%string = true -> (a <=? b)%string = true.
Proof.
  unfold String.ltb, String.leb. destruct (a ?= b)%string; congruence.
Qed.

Lemma string_nlt_ge (a b : string) :
  (a <? b)%string = false -> (b <=? a)%string = true.
Proof.
  unfold String.ltb, String.leb. rewrite (String.compare_antisym a b).
  destruct (b ?= a)%string; simpl; congruence.
Qed.

Lemma string_leb_cases (a b : string) :
  (a <=? b)%string = true -> a = b \/ (a <? b)%string = true.
Proof.
  unfold String.ltb, String.leb. destruct (a ?= b)%string eqn:E; intros H.
  - left. now apply String.compare_eq_iff.
  - now right.
  - discriminate.
Qed.

Lemma string_ltb_trans (a b c : string) :
  (a <? b)%string = true -> (b <? c)%string = true -> (a <? c)%string = true.
Proof.
  rewrite !string_ltb_compare. apply String_as_OT.lt_trans.
Qed.

Lemma string_ltb_leb_trans (a b c : string) :
  (a <? b)%string = true -> (b <=? c)%string = true -> (a <? c)%string = true.
Proof.
  intros Hab Hbc. destruct (string_leb_cases _ _ Hbc) as [-> | Hlt]; auto.
  eapply string_ltb_trans; eauto.
Qed.

Lemma string_leb_trans (a b c : string) :
  (a <=? b)%string = true -> (b <=? c)%string = true -> (a <=? c)%string = true.
Proof.
  intros Hab Hbc. destruct (string_leb_cases _ _ Hab) as [-> | Hlt]; auto.
  apply string_ltb_leb. eapply string_ltb_leb_trans; eauto.
Qed.

(* ------------------------------------------------------------------ *)
(** ** The insertion sort *)

Section SortTheory.
Context {A : Type}.
Variable cmp : A -> A -> Z.
Variable le : A -> A -> Prop.
Hypothesis lt_le : forall x y, (cmp x y <? 0)%Z = true -> le x y.
Hypothesis nlt_ge : forall x y, (cmp x y <? 0)%Z = false -> le y x.
Hypothesis le_trans : forall x y z, le x y -> le y z -> le x z.
Hypothesis lt_le_trans :
  forall x y z, (cmp x y <? 0)%Z = true -> le y z -> (cmp x z <? 0)%Z = true.

Lemma insertCmp_perm (x : A) (l : list A) :
  Permutation (insertCmp cmp x l) (x :: l).
Proof.
  induction l as [|y l IH]; simpl; auto.
  destruct (cmp x y <? 0)%Z; auto.
  rewrite IH. apply perm_swap.
Qed.

Lemma foldInsert_perm (l acc : list A) :
  Permutation (fold_left (fun s x => insertCmp cmp x s) l acc) (acc ++ l).
Proof.
  revert acc. induction l as [|x l IH]; intros acc; simpl.
  - now rewrite app_nil_r.
  - rewrite IH, insertCmp_perm. apply Permutation_middle.
Qed.

Lemma SortFunc_perm (l : list A) : Permutation (SortFunc cmp l) l.
Proof. unfold SortFunc. now rewrite foldInsert_perm. Qed.

Lemma insertCmp_sorted (x : A) (l : list A) :
  StronglySorted le l -> StronglySorted le (insertCmp cmp x l).
Proof.
  induction 1 as [|y l Hs IH Hy]; simpl.
  - constructor; constructor.
  - destruct (cmp x y <? 0)%Z eqn:E.
    + constructor; [constructor; assumption|].
      constructor; [now apply lt_le|].
      eapply Forall_impl; [|exact Hy]. intros z Hz.
      eapply le_trans; [apply lt_le; exact E | exact Hz].
    + constructor; [assumption|].
      eapply Permutation_Forall; [symmetry; apply insertCmp_perm|].
      constructor; [now apply nlt_ge | assumption].
Qed.

Lemma foldInsert_sorted (l acc : list A) :
  StronglySorted le acc ->
  StronglySorted le (fold_left (fun s x => insertCmp cmp x s) l acc).
Proof.
  revert acc. induction l as [|x l IH]; intros acc Hacc; simpl; auto.
  apply IH. now apply insertCmp_sorted.
Qed.

Lemma SortFunc_sorted (l : list A) : StronglySorted le (SortFunc cmp l).
Proof. apply foldInsert_sorted. constructor. Qed.

(** In a sorted list an element that goes in front of the head goes in
    front of everything. *)
Lemma insertCmp_front (x : A) (l : list A) :
  Forall (fun z => (cmp x z <? 0)%Z = true) l ->
  insertCmp cmp x l = x :: l.
Proof.
  destruct l as [|y l]; simpl; auto.
  intros H. inversion H; subst. now rewrite H2.
Qed.

(** Sorting and dropping entries commute. *)
Lemma insertCmp_filter (p : A -> bool) (x : A) (l : list A) :
  StronglySorted le l ->
  filter p (insertCmp cmp x l) =
    if p x then insertCmp cmp x (filter p l) else filter p l.
Proof.
  induction 1 as [|y l Hs IH Hy]; simpl.
  - destruct (p x); reflexivity.
  - destruct (cmp x y <? 0)%Z eqn:E; simpl.
    + destruct (p x) eqn:Px, (p y) eqn:Py; simpl; rewrite ?E; auto.
      symmetry. apply insertCmp_front.
      apply Forall_forall. intros z Hz. apply filter_In in Hz.
      destruct Hz as [Hz _]. rewrite Forall_forall in Hy.
      eapply lt_le_trans; eauto.
    + rewrite IH. destruct (p x), (p y); simpl; rewrite ?E; auto.
Qed.

Lemma filter_sorted (p : A -> bool) (l : list A) :
  StronglySorted le l -> StronglySorted le (filter p l).
Proof.
  induction 1 as [|y l Hs IH Hy]; simpl; [constructor|].
  destruct (p y); auto. constructor; auto.
  apply Forall_forall. intros z Hz. apply filter_In in Hz.
  rewrite Forall_forall in Hy. now apply Hy.
Qed.

Lemma foldInsert_filter (p : A -> bool) (l acc : list A) :
  StronglySorted le acc ->
  filter p (fold_left (fun s x => insertCmp cmp x s) l acc) =
    fold_left (fun s x => insertCmp cmp x s) (filter p l) (filter p acc).
Proof.
  revert acc. induction l as [|x l IH]; intros acc Hacc; simpl; auto.
  rewrite IH by now apply insertCmp_sorted.
  rewrite insertCmp_filter by assumption.
  destruct (p x); reflexivity.
Qed.

Lemma SortFunc_filter (p : A -> bool) (l : list A) :
  filter p (SortFunc cmp l) = SortFunc cmp (filter p l).
Proof. unfold SortFunc. rewrite foldInsert_filter; [reflexivity | constructor]. Qed.

Lemma prefix_sorted (p l : list A) :
  StronglySorted le (p ++ l) -> StronglySorted le p.
Proof.
  induction p as [|x p IH]; simpl; intros H; [constructor|].
  inversion H; subst. constructor; auto.
  rewrite Forall_app in H3. tauto.
Qed.
End SortTheory.

(** Sorting by a key commutes with a map that keeps the key. *)
Section SortMap.
Context {A B : Type}.
Variable cmpA : A -> A -> Z.
Variable cmpB : B -> B -> Z.
Variable f : B -> A.
Hypothesis cmp_f : forall x y, cmpB x y = cmpA (f x) (f y).

Lemma insertCmp_map (x : B) (l : list B) :
  map f (insertCmp cmpB x l) = insertCmp cmpA (f x) (map f l).
Proof.
  induction l as [|y l IH]; simpl; auto.
  rewrite cmp_f. destruct (cmpA (f x) (f y) <? 0)%Z; simpl; congruence.
Qed.

Lemma foldInsert_map (l acc : list B) :
  map f (fold_left (fun s x => insertCmp cmpB x s) l acc) =
    fold_left (fun s x => insertCmp cmpA x s) (map f l) (map f acc).
Proof.
  revert acc. induction l as [|x l IH]; intros acc; simpl; auto.
  now rewrite IH, insertCmp_map.
Qed.

Lemma SortFunc_map (l : list B) :
  map f (SortFunc cmpB l) = SortFunc cmpA (map f l).
Proof. apply foldInsert_map. Qed.
End SortMap.

Lemma filter_perm {A : Type} (p : A -> bool) (l l' : list A) :
  Permutation l l' -> Permutation (filter p l) (filter p l').
Proof.
  induction 1 as [|x l l' _ IH|x y l|l l' l'' _ IH1 _ IH2]; simpl.
  - constructor.
  - destruct (p x); [now constructor | exact IH].
  - destruct (p x), (p y); try reflexivity. constructor.
  - now transitivity (filter p l').
Qed.

Section InfoOrder.
Context {L : GoLib}.

Lemma cmpInfo_lt (a b : FileInfo) :
  (cmpInfo a b <? 0)%Z = (ToLower (Name a) <? ToLower (Name b))%string.
Proof.
  unfold cmpInfo, string_geb.
  destruct (ToLower (Name a) <? ToLower (Name b))%string; reflexivity.
Qed.

Lemma cmpInfo_lt_le a b : (cmpInfo a b <? 0)%Z = true -> infoLe a b.
Proof. rewrite cmpInfo_lt. apply string_ltb_leb. Qed.

Lemma cmpInfo_nlt_ge a b : (cmpInfo a b <? 0)%Z = false -> infoLe b a.
Proof. rewrite cmpInfo_lt. apply string_nlt_ge. Qed.

Lemma infoLe_trans a b c : infoLe a b -> infoLe b c -> infoLe a c.
Proof. apply string_leb_trans. Qed.

Lemma cmpInfo_lt_le_trans a b c :
  (cmpInfo a b <? 0)%Z = true -> infoLe b c -> (cmpInfo a c <? 0)%Z = true.
Proof. rewrite !cmpInfo_lt. apply string_ltb_leb_trans. Qed.

Lemma sortInfos_perm (l : list FileInfo) :
  Permutation (SortFunc cmpInfo l) l.
Proof. apply SortFunc_perm. Qed.

Lemma sortInfos_sorted (l : list FileInfo) :
  StronglySorted infoLe (SortFunc cmpInfo l).
Proof.
  apply SortFunc_sorted;
    eauto using cmpInfo_lt_le, cmpInfo_nlt_ge, infoLe_trans.
Qed.

Lemma sortInfos_filter (p : FileInfo -> bool) (l : list FileInfo) :
  filter p (SortFunc cmpInfo l) = SortFunc cmpInfo (filter p l).
Proof.
  apply (SortFunc_filter cmpInfo infoLe);
    eauto using cmpInfo_lt_le, cmpInfo_nlt_ge, infoLe_trans,
                cmpInfo_lt_le_trans.
Qed.

Lemma readDirInfos_ok (f : FileSystem) (d : string) (listing : list FileInfo) :
  ReadDir f d = (listing, None) ->
  readDirInfos f d = (SortFunc cmpInfo listing, None).
Proof. unfold readDirInfos. now intros ->. Qed.

Lemma readDirInfos_err (f : FileSystem) (d : string) (listing : list FileInfo)
      (e : errorValue) :
  ReadDir f d = (listing, Some e) -> readDirInfos f d = ([], Some e).
Proof. unfold readDirInfos. now intros ->. Qed.
End InfoOrder.

(* ------------------------------------------------------------------ *)
(** ** Equations of the walker *)

Section WalkerFacts.
Context {L : GoLib} {St : Type}.
Variable f : FileSystem.
Variable fn : WalkFunc St.

Lemma invoke_eq path info err s :
  invoke fn path info err s =
    Some (fst (fn path info err s), snd (fn path info err s),
          [mkCall path info err (fst (fn path info err s))]).
Proof. unfold invoke. now destruct (fn path info err s). Qed.

Lemma walk_file fuel path info s :
  IsDir info = false ->
  walk f fn (S fuel) path info s = invoke fn path (Some info) None s.
Proof. simpl. now intros ->. Qed.

Lemma walk_dir_unreadable fuel path info listing e s :
  IsDir info = true ->
  ReadDir f path = (listing, Some e) ->
  walk f fn (S fuel) path info s = invoke fn path (Some info) (Some e) s.
Proof.
  intros Hd Hr. simpl. rewrite Hd. simpl.
  rewrite (readDirInfos_err _ _ _ _ Hr). unfold bind.
  rewrite invoke_eq. simpl. reflexivity.
Qed.

Lemma walk_dir_refused fuel path info listing r s :
  IsDir info = true ->
  ReadDir f path = (listing, None) ->
  fst (fn path (Some info) None s) = Some r ->
  walk f fn (S fuel) path info s = invoke fn path (Some info) None s.
Proof.
  intros Hd Hr Hfn. simpl. rewrite Hd. simpl.
  rewrite (readDirInfos_ok _ _ _ Hr). unfold bind.
  rewrite invoke_eq, Hfn. simpl. reflexivity.
Qed.

Lemma walk_dir_entered fuel path info listing s :
  IsDir info = true ->
  ReadDir f path = (listing, None) ->
  fst (fn path (Some info) None s) = None ->
  walk f fn (S fuel) path info s =
    after [mkCall path (Some info) None None]
          (walkLoop fn (walk f fn fuel) path None (SortFunc cmpInfo listing)
                    (snd (fn path (Some info) None s))).
Proof.
  intros Hd Hr Hfn. simpl. rewrite Hd. simpl.
  rewrite (readDirInfos_ok _ _ _ Hr). unfold bind.
  rewrite invoke_eq, Hfn. simpl. reflexivity.
Qed.

(** The loop of [walk] passes over the entries [.] and [..]: neither the
    callback nor the recursive call is applied to them. *)
Lemma walkLoop_filter rec path infos :
  forall err s,
    walkLoop fn rec path err infos s =
      walkLoop fn rec path err (filter notDot infos) s.
Proof.
  induction infos as [|i rest IH]; intros err s; simpl; auto.
  unfold notDot. destruct (isDot (Name i)) eqn:E; simpl; auto.
  rewrite E. destruct (not_nil err); unfold bind.
  - destruct (invoke fn _ _ _ s) as [[[e s1] t1]|]; auto.
    destruct (not_nil e && negb (is_err e SkipDir)); auto.
    now rewrite IH.
  - destruct (rec _ i s) as [[[e s1] t1]|]; auto.
    destruct (not_nil e && _); auto.
    now rewrite IH.
Qed.
End WalkerFacts.
(* ------------------------------------------------------------------ *)
(** ** Termination *)

Section Termination.
Context {L : GoLib}.

(** The loops return when every recursive call does. *)
Lemma walkLoop_total {St} (fn : WalkFunc St) rec path infos :
  (forall c, In c infos -> notDot c = true ->
             forall s, exists r, rec (Join path (Name c)) c s = Some r) ->
  forall err s, exists r, walkLoop fn rec path err infos s = Some r.
Proof.
  induction infos as [|i rest IH]; intros Hrec err s; simpl.
  - eexists; reflexivity.
  - assert (Hrest : forall c, In c rest -> notDot c = true ->
              forall s, exists r, rec (Join path (Name c)) c s = Some r)
      by (intros; apply Hrec; simpl; auto).
    specialize (IH Hrest).
    destruct (isDot (Name i)) eqn:E; [apply IH|].
    destruct (not_nil err); unfold bind.
    + rewrite invoke_eq.
      destruct (not_nil _ && negb _).
      * eexists; reflexivity.
      * destruct (IH err (snd (fn (Join path (Name i)) (Some i) err s)))
          as [[[q s2] t2] ->].
        eexists; reflexivity.
    + destruct (Hrec i (or_introl eq_refl)
                     (eq_trans (f_equal negb E) eq_refl) s)
        as [[[e s1] t1] ->].
      destruct (not_nil e && _).
      * eexists; reflexivity.
      * destruct (IH e s1) as [[[q s2] t2] ->]. eexists; reflexivity.
Qed.

Lemma rootLoop_total {St} (rec : string -> FileInfo -> Walk St error)
      dirpath infos :
  (forall c, In c infos ->
             forall s, exists r, rec (Join dirpath (Name c)) c s = Some r) ->
  forall err s, exists r, rootLoop rec dirpath err infos s = Some r.
Proof.
  induction infos as [|i rest IH]; intros Hrec err s; simpl.
  - eexists; reflexivity.
  - unfold bind.
    destruct (Hrec i (or_introl eq_refl) s) as [[[e s1] t1] ->].
    destruct (is_err e SkipDir || is_err e SkipAll).
    + eexists; reflexivity.
    + destruct (IH (fun c H => Hrec c (or_intror H)) e s1)
        as [[[q s2] t2] ->].
      eexists; reflexivity.
Qed.

(** A bound on the budget that serves every entry of a listing. *)
Lemma common_budget (p : FileInfo -> bool) (Q : FileInfo -> nat -> Prop)
      (l : list FileInfo) :
  (forall c, In c l -> p c = true -> exists n, forall m, n <= m -> Q c m) ->
  exists n, forall c, In c l -> p c = true -> forall m, n <= m -> Q c m.
Proof.
  induction l as [|x l IH]; intros H.
  - exists 0. intros c [].
  - destruct IH as [n Hn]; [intros; apply H; simpl; auto|].
    destruct (p x) eqn:Px.
    + destruct (H x (or_introl eq_refl) Px) as [k Hk].
      exists (Nat.max n k). intros c [<- | Hc] Hp m Hm.
      * apply Hk. lia.
      * apply Hn; auto. lia.
    + exists n. intros c [<- | Hc] Hp m Hm; [congruence|].
      apply Hn; auto.
Qed.

(** [walk] returns on every entry from which only a finite part of the
    filesystem can be reached: a budget exists that is enough for every
    callback and every state of it. *)
Lemma walk_total (f : FileSystem) path i :
  WalkFinite f path i ->
  exists n, forall fuel, n <= fuel ->
    forall St (fn : WalkFunc St) s, exists r, walk f fn fuel path i s = Some r.
Proof.
  induction 1 as [path i Hfile | path i Hdir Hsub IH].
  - exists 1. intros [|fuel] Hle St fn s; [lia|].
    rewrite walk_file, invoke_eq by assumption. eexists; reflexivity.
  - destruct (ReadDir f path) as [listing [e|]] eqn:Hr.
    + exists 1. intros [|fuel] Hle St fn s; [lia|].
      erewrite walk_dir_unreadable, invoke_eq by eassumption.
      eexists; reflexivity.
    + simpl in IH, Hsub.
      destruct (common_budget notDot
                  (fun c m => forall St (fn : WalkFunc St) s,
                       exists r, walk f fn m (Join path (Name c)) c s = Some r)
                  listing) as [n Hn].
      { intros c Hc Hp. apply (IH c eq_refl Hc Hp). }
      exists (S n). intros [|fuel] Hle St fn s; [lia|].
      destruct (fst (fn path (Some i) None s)) as [r|] eqn:Hfn.
      * erewrite walk_dir_refused, invoke_eq by eassumption.
        eexists; reflexivity.
      * erewrite walk_dir_entered by eassumption.
        edestruct (walkLoop_total fn (walk f fn fuel) path
                                  (SortFunc cmpInfo listing))
          as [[[q s2] t2] Hq].
        { intros c Hc Hp s0. apply Hn; auto; [|lia].
          eapply Permutation_in; [apply sortInfos_perm | exact Hc]. }
        rewrite Hq. eexists; reflexivity.
Qed.
End Termination.
(* ------------------------------------------------------------------ *)
(** ** One iteration of the loops *)

Section LoopSteps.
Context {L : GoLib} {St : Type}.
Variable fn : WalkFunc St.

Lemma after_nil {R} (m : option (R * St * list Call)) : after [] m = m.
Proof. now destruct m as [[[q s2] t2]|]. Qed.

Lemma after_app {R} t1 t2 (m : option (R * St * list Call)) :
  after t1 (after t2 m) = after (t1 ++ t2) m.
Proof. destruct m as [[[q s2] t3]|]; simpl; [now rewrite app_assoc | auto]. Qed.

Lemma after_ret {R} t1 (r : R) (s : St) :
  after t1 (ret r s) = Some (r, s, t1).
Proof. unfold ret. simpl. now rewrite app_nil_r. Qed.

(** An entry met while the variable [err] is nil is walked. *)
Lemma walkLoop_walked rec path i rest s e s1 t1 :
  notDot i = true ->
  rec (Join path (Name i)) i s = Some (e, s1, t1) ->
  walkLoop fn rec path None (i :: rest) s =
    if not_nil e && (negb (IsDir i) || negb (is_err e SkipDir))
    then Some (e, s1, t1)
    else after t1 (walkLoop fn rec path e rest s1).
Proof.
  unfold notDot. intros Hdot Hrec. simpl.
  destruct (isDot (Name i)); [discriminate|]. unfold bind. rewrite Hrec.
  destruct (not_nil e && _); [apply after_ret | reflexivity].
Qed.

(** An entry met while [err] is not nil is handed to the callback with
    that error and is not walked. *)
Lemma walkLoop_handed rec path i rest s v :
  notDot i = true ->
  walkLoop fn rec path (Some v) (i :: rest) s =
    let p := Join path (Name i) in
    let r := fst (fn p (Some i) (Some v) s) in
    let s1 := snd (fn p (Some i) (Some v) s) in
    if not_nil r && negb (is_err r SkipDir)
    then Some (r, s1, [mkCall p (Some i) (Some v) r])
    else after [mkCall p (Some i) (Some v) r]
               (walkLoop fn rec path (Some v) rest s1).
Proof.
  unfold notDot. intros Hdot. simpl.
  destruct (isDot (Name i)); [discriminate|]. unfold bind.
  rewrite invoke_eq.
  destruct (not_nil _ && _); [apply after_ret | reflexivity].
Qed.

Lemma rootLoop_walked (rec : string -> FileInfo -> Walk St error)
      dirpath err0 i rest s e s1 t1 :
  rec (Join dirpath (Name i)) i s = Some (e, s1, t1) ->
  rootLoop rec dirpath err0 (i :: rest) s =
    if is_err e SkipDir || is_err e SkipAll
    then Some (None, s1, t1)
    else after t1 (rootLoop rec dirpath e rest s1).
Proof.
  intros Hrec. simpl. unfold bind. rewrite Hrec.
  destruct (is_err e SkipDir || is_err e SkipAll);
    [apply after_ret | reflexivity].
Qed.

Lemma GenericWalk_unreadable f fuel dirpath listing e s :
  ReadDir f dirpath = (listing, Some e) ->
  GenericWalk f fn fuel dirpath s = invoke fn dirpath None (Some e) s.
Proof.
  intros Hr. unfold GenericWalk.
  now rewrite (readDirInfos_err _ _ _ _ Hr).
Qed.

Lemma GenericWalk_readable f fuel dirpath listing s :
  ReadDir f dirpath = (listing, None) ->
  GenericWalk f fn fuel dirpath s =
    rootLoop (walk f fn fuel) dirpath None (SortFunc cmpInfo listing) s.
Proof.
  intros Hr. unfold GenericWalk.
  now rewrite (readDirInfos_ok _ _ _ Hr).
Qed.
End LoopSteps.

(* ------------------------------------------------------------------ *)
(** ** The shape of traces *)

Section Traces.
Context {L : GoLib} {St : Type}.
Variable f : FileSystem.
Variable fn : WalkFunc St.

Lemma walk_headed fuel : headed (walk f fn fuel).
Proof.
  intros p i s r s' tr. destruct fuel as [|fuel]; [discriminate|].
  destruct (IsDir i) eqn:Hd.
  - destruct (ReadDir f p) as [listing [e|]] eqn:Hr.
    + erewrite walk_dir_unreadable, invoke_eq by eassumption.
      intros [= <- <- <-]. repeat eexists.
    + destruct (fst (fn p (Some i) None s)) as [v|] eqn:Hfn.
      * erewrite walk_dir_refused, invoke_eq by eassumption.
        intros [= <- <- <-]. repeat eexists.
      * erewrite walk_dir_entered by eassumption.
        destruct (walkLoop _ _ _ _ _ _) as [[[q s2] t2]|]; [|discriminate].
        intros [= <- <- <-]. repeat eexists.
  - rewrite walk_file, invoke_eq by assumption.
    intros [= <- <- <-]. repeat eexists.
Qed.

Lemma visitsInOrder_nil dirpath : visitsInOrder dirpath [] [].
Proof. exists []. split; [reflexivity | constructor]. Qed.

Lemma visitsInOrder_cons dirpath i visited seg tr :
  startsWith (Join dirpath (Name i)) i seg ->
  visitsInOrder dirpath visited tr ->
  visitsInOrder dirpath (i :: visited) (seg ++ tr).
Proof.
  intros Hs [segs [-> Hall]]. exists (seg :: segs).
  split; [reflexivity | now constructor].
Qed.

Lemma prefixOf_nil {A} (l : list A) : prefixOf [] l.
Proof. now exists l. Qed.

Lemma prefixOf_cons {A} (x : A) p l : prefixOf p l -> prefixOf (x :: p) (x :: l).
Proof. intros [rest ->]. now exists rest. Qed.

(** The trace of the loop of [walk] is made of one segment for each entry
    of an initial part of the listing, [.] and [..] left out. *)
Lemma walkLoop_visits rec path infos :
  headed rec ->
  forall err s r s' tr,
    walkLoop fn rec path err infos s = Some (r, s', tr) ->
    exists visited,
      visitsInOrder path visited tr /\
      prefixOf visited (filter notDot infos).
Proof.
  intros Hrec. induction infos as [|i rest IH]; intros err s r s' tr.
  - intros [= <- <- <-]. exists []. split;
      [apply visitsInOrder_nil | apply prefixOf_nil].
  - simpl filter. destruct (notDot i) eqn:Hdot.
    + destruct err as [v|].
      * rewrite walkLoop_handed by assumption. cbv zeta.
        destruct (not_nil _ && _).
        -- intros [= <- <- <-]. exists [i]. split.
           ++ apply (visitsInOrder_cons _ _ [] [_] []);
                [repeat eexists | apply visitsInOrder_nil].
           ++ apply prefixOf_cons, prefixOf_nil.
        -- destruct (walkLoop fn rec path (Some v) rest _)
             as [[[q s2] t2]|] eqn:Hl; [|discriminate].
           intros [= <- <- <-].
           destruct (IH _ _ _ _ _ Hl) as [visited [Hv Hp]].
           exists (i :: visited). split.
           ++ apply (visitsInOrder_cons _ _ _ [_]);
                [repeat eexists | assumption].
           ++ now apply prefixOf_cons.
      * destruct (rec (Join path (Name i)) i s) as [[[e s1] t1]|] eqn:Hr.
        -- rewrite (walkLoop_walked fn _ _ _ _ _ _ _ _ Hdot Hr).
           pose proof (Hrec _ _ _ _ _ _ Hr) as Hhead.
           destruct (not_nil e && _).
           ++ intros [= <- <- <-]. exists [i]. split.
              ** rewrite <- (app_nil_r t1).
                 apply visitsInOrder_cons;
                   [assumption | apply visitsInOrder_nil].
              ** apply prefixOf_cons, prefixOf_nil.
           ++ destruct (walkLoop fn rec path e rest s1)
                as [[[q s2] t2]|] eqn:Hl; [|discriminate].
              intros [= <- <- <-].
              destruct (IH _ _ _ _ _ Hl) as [visited [Hv Hp]].
              exists (i :: visited). split.
              ** now apply visitsInOrder_cons.
              ** now apply prefixOf_cons.
        -- simpl. unfold notDot in Hdot.
           destruct (isDot (Name i)); [discriminate|].
           unfold bind. rewrite Hr. discriminate.
    + rewrite walkLoop_filter. simpl. rewrite Hdot.
      rewrite <- walkLoop_filter. apply IH.
Qed.

(** The same for the loop of [GenericWalk], which leaves nothing out. *)
Lemma rootLoop_visits (rec : string -> FileInfo -> Walk St error)
      dirpath infos :
  headed rec ->
  forall err s r s' tr,
    rootLoop rec dirpath err infos s = Some (r, s', tr) ->
    exists visited,
      visitsInOrder dirpath visited tr /\ prefixOf visited infos.
Proof.
  intros Hrec. induction infos as [|i rest IH]; intros err s r s' tr.
  - intros [= <- <- <-]. exists []. split;
      [apply visitsInOrder_nil | apply prefixOf_nil].
  - destruct (rec (Join dirpath (Name i)) i s) as [[[e s1] t1]|] eqn:Hr.
    + rewrite (rootLoop_walked _ _ _ _ _ _ _ _ _ Hr).
      pose proof (Hrec _ _ _ _ _ _ Hr) as Hhead.
      destruct (is_err e SkipDir || is_err e SkipAll).
      * intros [= <- <- <-]. exists [i]. split.
        -- rewrite <- (app_nil_r t1).
           apply visitsInOrder_cons; [assumption | apply visitsInOrder_nil].
        -- apply prefixOf_cons, prefixOf_nil.
      * destruct (rootLoop rec dirpath e rest s1)
          as [[[q s2] t2]|] eqn:Hl; [|discriminate].
        intros [= <- <- <-].
        destruct (IH _ _ _ _ _ Hl) as [visited [Hv Hp]].
        exists (i :: visited). split.
        -- now apply visitsInOrder_cons.
        -- now apply prefixOf_cons.
    + simpl. unfold bind. rewrite Hr. discriminate.
Qed.

(** No invocation made by the loop of [walk] is for an entry named [.] or
    [..], when this holds of the recursive calls below their first
    invocation. *)
Lemma walkLoop_no_dots rec path infos :
  headed rec ->
  (forall p i s r s' tr, rec p i s = Some (r, s', tr) ->
                         Forall (fun c => dotCall c = false) (tl tr)) ->
  forall err s r s' tr,
    walkLoop fn rec path err infos s = Some (r, s', tr) ->
    Forall (fun c => dotCall c = false) tr.
Proof.
  intros Hhead Hrec. induction infos as [|i rest IH]; intros err s r s' tr.
  - intros [= <- <- <-]. constructor.
  - destruct (notDot i) eqn:Hdot.
    + assert (Hi : isDot (Name i) = false)
        by (unfold notDot in Hdot; now destruct (isDot (Name i))).
      destruct err as [v|].
      * rewrite walkLoop_handed by assumption. cbv zeta.
        destruct (not_nil _ && _).
        -- intros [= <- <- <-]. repeat constructor. exact Hi.
        -- destruct (walkLoop fn rec path (Some v) rest _)
             as [[[q s2] t2]|] eqn:Hl; [|discriminate].
           intros [= <- <- <-]. constructor; [exact Hi|]. eauto.
      * destruct (rec (Join path (Name i)) i s) as [[[e s1] t1]|] eqn:Hr.
        -- rewrite (walkLoop_walked fn _ _ _ _ _ _ _ _ Hdot Hr).
           assert (Ht1 : Forall (fun c => dotCall c = false) t1).
           { destruct (Hhead _ _ _ _ _ _ Hr) as [e0 [r0 [tl0 ->]]].
             constructor; [exact Hi|]. apply (Hrec _ _ _ _ _ _ Hr). }
           destruct (not_nil e && _).
           ++ now intros [= <- <- <-].
           ++ destruct (walkLoop fn rec path e rest s1)
                as [[[q s2] t2]|] eqn:Hl; [|discriminate].
              intros [= <- <- <-]. apply Forall_app. split; eauto.
        -- simpl. rewrite Hi. unfold bind. rewrite Hr. discriminate.
    + rewrite walkLoop_filter. simpl. rewrite Hdot.
      rewrite <- walkLoop_filter. apply IH.
Qed.

Lemma walk_no_dots fuel :
  forall p i s r s' tr,
    walk f fn fuel p i s = Some (r, s', tr) ->
    Forall (fun c => dotCall c = false) (tl tr).
Proof.
  induction fuel as [|fuel IH]; intros p i s r s' tr; [discriminate|].
  destruct (IsDir i) eqn:Hd.
  - destruct (ReadDir f p) as [listing [e|]] eqn:Hr.
    + erewrite walk_dir_unreadable, invoke_eq by eassumption.
      intros [= <- <- <-]. constructor.
    + destruct (fst (fn p (Some i) None s)) as [v|] eqn:Hfn.
      * erewrite walk_dir_refused, invoke_eq by eassumption.
        intros [= <- <- <-]. constructor.
      * erewrite walk_dir_entered by eassumption.
        destruct (walkLoop _ _ _ _ _ _) as [[[q s2] t2]|] eqn:Hl;
          [|discriminate].
        intros [= <- <- <-]. simpl.
        eapply walkLoop_no_dots; [apply walk_headed | exact IH | exact Hl].
  - rewrite walk_file, invoke_eq by assumption.
    intros [= <- <- <-]. constructor.
Qed.
End Traces.

(* ------------------------------------------------------------------ *)
(** ** Walks with a callback that always returns nil *)

Section NilCallback.
Context {L : GoLib} {St : Type}.
Variable f : FileSystem.
Variable fn : WalkFunc St.
Hypothesis fn_nil : alwaysNilFn fn.

Lemma walkLoop_returns_nil rec path infos :
  returnsNil rec ->
  forall s r s' tr,
    walkLoop fn rec path None infos s = Some (r, s', tr) -> r = None.
Proof.
  intros Hrec. induction infos as [|i rest IH]; intros s r s' tr.
  - now intros [= <- <- <-].
  - destruct (notDot i) eqn:Hdot.
    + destruct (rec (Join path (Name i)) i s) as [[[e s1] t1]|] eqn:Hr.
      * rewrite (walkLoop_walked fn _ _ _ _ _ _ _ _ Hdot Hr).
        rewrite (Hrec _ _ _ _ _ _ Hr). simpl.
        destruct (walkLoop fn rec path None rest s1)
          as [[[q s2] t2]|] eqn:Hl; [|discriminate].
        intros [= <- <- <-]. eauto.
      * simpl. unfold notDot in Hdot.
        destruct (isDot (Name i)); [discriminate|].
        unfold bind. rewrite Hr. discriminate.
    + rewrite walkLoop_filter. simpl. rewrite Hdot.
      rewrite <- walkLoop_filter. apply IH.
Qed.

Lemma walk_returns_nil fuel : returnsNil (walk f fn fuel).
Proof.
  induction fuel as [|fuel IH]; intros p i s r s' tr; [discriminate|].
  destruct (IsDir i) eqn:Hd.
  - destruct (ReadDir f p) as [listing [e|]] eqn:Hr.
    + erewrite walk_dir_unreadable, invoke_eq by eassumption.
      intros [= <- <- <-]. apply fn_nil.
    + erewrite walk_dir_entered by (eassumption || apply fn_nil).
      destruct (walkLoop _ _ _ _ _ _) as [[[q s2] t2]|] eqn:Hl;
        [|discriminate].
      intros [= <- <- <-].
      eapply walkLoop_returns_nil; [exact IH | exact Hl].
  - rewrite walk_file, invoke_eq by assumption.
    intros [= <- <- <-]. apply fn_nil.
Qed.

(** The loop of [GenericWalk] then reaches every entry of the listing. *)
Lemma rootLoop_reaches_all (rec : string -> FileInfo -> Walk St error)
      dirpath infos :
  headed rec -> returnsNil rec ->
  forall err s r s' tr,
    rootLoop rec dirpath err infos s = Some (r, s', tr) ->
    forall i, In i infos ->
      exists e r0, In (mkCall (Join dirpath (Name i)) (Some i) e r0) tr.
Proof.
  intros Hhead Hnil. induction infos as [|i rest IH];
    intros err s r s' tr Hrun x Hx; [destruct Hx|].
  destruct (rec (Join dirpath (Name i)) i s) as [[[e s1] t1]|] eqn:Hr.
  - rewrite (rootLoop_walked _ _ _ _ _ _ _ _ _ Hr) in Hrun.
    pose proof (Hnil _ _ _ _ _ _ Hr) as ->. simpl in Hrun.
    destruct (rootLoop rec dirpath None rest s1)
      as [[[q s2] t2]|] eqn:Hl; [|discriminate].
    injection Hrun as <- <- <-.
    destruct Hx as [<- | Hx].
    + destruct (Hhead _ _ _ _ _ _ Hr) as [e0 [r0 [tl0 Ht]]].
      exists e0, r0. subst t1. simpl. auto.
    + destruct (IH _ _ _ _ _ Hl x Hx) as [e0 [r0 He0]].
      exists e0, r0. apply in_or_app. now right.
  - simpl in Hrun. unfold bind in Hrun. rewrite Hr in Hrun. discriminate.
Qed.
End NilCallback.
(* ------------------------------------------------------------------ *)
(** ** Trees *)

Lemma height_child i ts c : In c ts -> height c < height (Node i ts).
Proof.
  intros Hc. simpl. apply Nat.lt_succ_r.
  assert (H : Forall (fun k => k <= list_max (map height ts)) (map height ts))
    by now apply list_max_le.
  rewrite Forall_forall in H. apply H. now apply in_map.
Qed.

Lemma forestHeight_child ts c : In c ts -> height c <= forestHeight ts.
Proof.
  intros Hc. unfold forestHeight.
  assert (H : Forall (fun k => k <= list_max (map height ts)) (map height ts))
    by now apply list_max_le.
  rewrite Forall_forall in H. apply H. now apply in_map.
Qed.

Lemma runCalls_app {St} (fn : WalkFunc St) a b s :
  runCalls fn (a ++ b) s = runCalls fn b (runCalls fn a s).
Proof. apply fold_left_app. Qed.

Section TreeFacts.
Context {L : GoLib}.

Lemma arranged_root t u : arranged t u -> root u = root t.
Proof. now destruct 1. Qed.

Lemma arranged_roots ts us :
  Forall2 arranged ts us -> map root us = map root ts.
Proof.
  induction 1 as [|t u ts us Ht _ IH]; simpl; [reflexivity|].
  now rewrite IH, (arranged_root _ _ Ht).
Qed.

Lemma describes_dir f path i ts :
  IsDir i = true ->
  describes f path (Node i ts) ->
  exists listing,
    ReadDir f path = (listing, None) /\
    filter notDot listing = map root ts /\
    Forall (fun c => describes f (Join path (Name (root c))) c) ts.
Proof.
  intros Hd. simpl. rewrite Hd. intros [listing [Hr [Hl Hall]]].
  exists listing. repeat split; auto.
  clear Hl. induction ts as [|c ts IH]; constructor; [apply Hall|].
  apply IH. apply Hall.
Qed.

Lemma describes_file f path i ts :
  IsDir i = false -> describes f path (Node i ts) -> ts = [].
Proof. intros Hd. simpl. now rewrite Hd. Qed.

Lemma preorderForest_app dirpath a b :
  preorderForest dirpath (a ++ b) =
    preorderForest dirpath a ++ preorderForest dirpath b.
Proof. apply flat_map_app. Qed.

Lemma preorderForest_perm dirpath ts ts' :
  Permutation ts ts' ->
  Permutation (preorderForest dirpath ts) (preorderForest dirpath ts').
Proof. intros H. unfold preorderForest. now rewrite H. Qed.

(** The entries of a listing that are not [.] or [..], in the order in
    which the walker takes them: the children of the tree in an order of
    non-decreasing lower-case names. *)
Lemma sorted_listing_children listing ts :
  filter notDot listing = map root ts ->
  exists ts',
    Permutation ts ts' /\
    filter notDot (SortFunc cmpInfo listing) = map root ts' /\
    StronglySorted infoLe (map root ts').
Proof.
  intros Hl.
  assert (Hp : Permutation (filter notDot (SortFunc cmpInfo listing))
                           (map root ts)).
  { rewrite <- Hl. apply filter_perm, sortInfos_perm. }
  destruct (Permutation_map_inv _ _ Hp) as [ts' [Heq Hperm]].
  exists ts'. split; [exact Hperm|]. split; [exact Heq|].
  rewrite <- Heq. apply filter_sorted, sortInfos_sorted.
Qed.

(** In a pre-order listing the calls for an entry and for everything it
    contains form one block that starts with the entry. *)
Lemma preorderForest_block dirpath ts p d :
  within dirpath ts p d ->
  exists pre post,
    preorderForest dirpath ts =
      pre ++ (mkCall p (Some (root d)) None None
                :: preorderForest p (children d)) ++ post.
Proof.
  induction 1 as [dirpath ts c Hc | dirpath ts c p d Hc Hw IH].
  - destruct (in_split _ _ Hc) as [l1 [l2 ->]].
    exists (preorderForest dirpath l1), (preorderForest dirpath l2).
    rewrite preorderForest_app. f_equal. simpl. now destruct c.
  - destruct (in_split _ _ Hc) as [l1 [l2 ->]].
    destruct IH as [pre [post IH]].
    exists (preorderForest dirpath l1
              ++ mkCall (Join dirpath (Name (root c))) (Some (root c)) None None
              :: pre),
           (post ++ preorderForest dirpath l2).
    rewrite preorderForest_app. rewrite <- app_assoc. f_equal.
    destruct c as [i cs]. simpl in IH.
    change (preorderForest dirpath (Node i cs :: l2))
      with ((mkCall (Join dirpath (Name i)) (Some i) None None
               :: preorderForest (Join dirpath (Name i)) cs)
              ++ preorderForest dirpath l2).
    rewrite IH. simpl. rewrite <- !app_assoc. simpl.
    rewrite <- !app_assoc. reflexivity.
Qed.
End TreeFacts.

(* ------------------------------------------------------------------ *)
(** ** The full walk *)

Section FullWalk.
Context {L : GoLib} {St : Type}.
Variable f : FileSystem.
Variable fn : WalkFunc St.
Hypothesis fn_nil : alwaysNilFn fn.

Lemma walkLoop_arranged rec n path cs :
  walksArranged f fn rec n ->
  Forall (fun c => describes f (Join path (Name (root c))) c) cs ->
  Forall (fun c => height c <= n) cs ->
  Forall (fun c => notDot (root c) = true) cs ->
  forall s,
  exists us,
    Forall2 arranged cs us /\
    Permutation (preorderForest path us) (preorderForest path cs) /\
    walkLoop fn rec path None (map root cs) s =
      Some (None, runCalls fn (preorderForest path us) s,
            preorderForest path us).
Proof.
  intros Hrec. induction cs as [|c cs IH]; intros Hdesc Hh Hdot s.
  - exists []. splits; [constructor | constructor | reflexivity].
  - inversion Hdesc as [|? ? Hc Hcs]; subst.
    inversion Hh as [|? ? Hhc Hhcs]; subst.
    inversion Hdot as [|? ? Hdc Hdcs]; subst.
    destruct (Hrec c _ s Hc Hhc) as [u [Hu [Hpu Hrun]]].
    destruct (IH Hcs Hhcs Hdcs
                 (runCalls fn (preorder (Join path (Name (root c))) u) s))
      as [us [Hus [Hpus Hloop]]].
    exists (u :: us).
    assert (Hlist : preorderForest path (u :: us) =
                      preorder (Join path (Name (root c))) u
                        ++ preorderForest path us).
    { unfold preorderForest. simpl. now rewrite (arranged_root _ _ Hu). }
    splits.
    + now constructor.
    + rewrite Hlist. unfold preorderForest at 2. simpl.
      apply Permutation_app; [exact Hpu | exact Hpus].
    + change (map root (c :: cs)) with (root c :: map root cs).
      rewrite (walkLoop_walked fn _ _ _ _ _ _ _ _ Hdc Hrun).
      simpl not_nil. simpl andb. cbv iota.
      rewrite Hloop, Hlist. simpl after.
      now rewrite runCalls_app.
Qed.

Lemma walk_arranged n : walksArranged f fn (walk f fn n) n.
Proof.
  induction n as [|n IH]; intros [i ts] path s Hdesc Hh;
    [simpl in Hh; lia|].
  simpl root. destruct (IsDir i) eqn:Hd.
  - destruct (describes_dir _ _ _ _ Hd Hdesc) as [listing [Hr [Hl Hall]]].
    destruct (sorted_listing_children _ _ Hl) as [ts' [Hperm [Heq Hsorted]]].
    assert (Hin : forall c, In c ts' -> In c ts)
      by (intros c Hc; eapply Permutation_in;
          [apply Permutation_sym, Hperm | exact Hc]).
    destruct (walkLoop_arranged (walk f fn n) n path ts' IH) with
      (s := snd (fn path (Some i) None s)) as [us [Hus [Hpus Hloop]]].
    + apply Forall_forall. intros c Hc. rewrite Forall_forall in Hall.
      apply Hall, Hin, Hc.
    + apply Forall_forall. intros c Hc.
      pose proof (height_child i _ _ (Hin _ Hc)). lia.
    + apply Forall_forall. intros c Hc.
      assert (Hroot : In (root c) (filter notDot (SortFunc cmpInfo listing)))
        by (rewrite Heq; now apply in_map).
      apply filter_In in Hroot. tauto.
    + exists (Node i us). splits.
      * apply (arranged_node i ts ts' us); auto.
        now rewrite (arranged_roots _ _ Hus).
      * simpl. constructor.
        change (Permutation (preorderForest path us) (preorderForest path ts)).
        rewrite Hpus. apply preorderForest_perm, Permutation_sym, Hperm.
      * erewrite walk_dir_entered by (eassumption || apply fn_nil).
        rewrite walkLoop_filter, Heq, Hloop. reflexivity.
  - rewrite (describes_file _ _ _ _ Hd Hdesc).
    exists (Node i []). splits.
    + apply (arranged_node i [] [] []); constructor.
    + reflexivity.
    + rewrite walk_file, invoke_eq by assumption. simpl.
      now rewrite fn_nil.
Qed.

Lemma rootLoop_arranged rec n dirpath cs :
  walksArranged f fn rec n ->
  Forall (fun c => describes f (Join dirpath (Name (root c))) c) cs ->
  Forall (fun c => height c <= n) cs ->
  forall s,
  exists us,
    Forall2 arranged cs us /\
    Permutation (preorderForest dirpath us) (preorderForest dirpath cs) /\
    rootLoop rec dirpath None (map root cs) s =
      Some (None, runCalls fn (preorderForest dirpath us) s,
            preorderForest dirpath us).
Proof.
  intros Hrec. induction cs as [|c cs IH]; intros Hdesc Hh s.
  - exists []. splits; [constructor | constructor | reflexivity].
  - inversion Hdesc as [|? ? Hc Hcs]; subst.
    inversion Hh as [|? ? Hhc Hhcs]; subst.
    destruct (Hrec c _ s Hc Hhc) as [u [Hu [Hpu Hrun]]].
    destruct (IH Hcs Hhcs
                 (runCalls fn (preorder (Join dirpath (Name (root c))) u) s))
      as [us [Hus [Hpus Hloop]]].
    exists (u :: us).
    assert (Hlist : preorderForest dirpath (u :: us) =
                      preorder (Join dirpath (Name (root c))) u
                        ++ preorderForest dirpath us).
    { unfold preorderForest. simpl. now rewrite (arranged_root _ _ Hu). }
    splits.
    + now constructor.
    + rewrite Hlist. unfold preorderForest at 2. simpl.
      apply Permutation_app; [exact Hpu | exact Hpus].
    + change (map root (c :: cs)) with (root c :: map root cs).
      rewrite (rootLoop_walked _ _ _ _ _ _ _ _ _ Hrun).
      simpl is_err. simpl orb. cbv iota.
      rewrite Hloop, Hlist. simpl after.
      now rewrite runCalls_app.
Qed.

Lemma GenericWalk_arranged dirpath ts fuel s :
  describesRoot f dirpath ts ->
  listsNoDots f dirpath ->
  forestHeight ts <= fuel ->
  exists us,
    arrangedForest ts us /\
    Permutation (preorderForest dirpath us) (preorderForest dirpath ts) /\
    GenericWalk f fn fuel dirpath s =
      Some (None, runCalls fn (preorderForest dirpath us) s,
            preorderForest dirpath us).
Proof.
  intros [listing [Hr [Hl Hall]]] Hplain Hh.
  destruct (sorted_listing_children _ _ Hl) as [ts' [Hperm [Heq Hsorted]]].
  assert (Hin : forall c, In c ts' -> In c ts)
    by (intros c Hc; eapply Permutation_in;
        [apply Permutation_sym, Hperm | exact Hc]).
  assert (Hall' : filter notDot (SortFunc cmpInfo listing)
                  = SortFunc cmpInfo listing).
  { apply forallb_filter_id, forallb_forall. intros i Hi.
    unfold listsNoDots in Hplain. rewrite Hr in Hplain. simpl in Hplain.
    rewrite Forall_forall in Hplain. apply Hplain.
    eapply Permutation_in; [apply sortInfos_perm | exact Hi]. }
  destruct (rootLoop_arranged (walk f fn fuel) fuel dirpath ts'
                              (walk_arranged fuel)) with (s := s)
    as [us [Hus [Hpus Hloop]]].
  - apply Forall_forall. intros c Hc. rewrite Forall_forall in Hall.
    apply Hall, Hin, Hc.
  - apply Forall_forall. intros c Hc.
    pose proof (forestHeight_child _ _ (Hin _ Hc)). lia.
  - exists us. splits.
    + exists ts'. splits; auto. now rewrite (arranged_roots _ _ Hus).
    + rewrite Hpus. apply preorderForest_perm, Permutation_sym, Hperm.
    + erewrite GenericWalk_readable by eassumption.
      now rewrite <- Hall', Heq.
Qed.
End FullWalk.
(* ------------------------------------------------------------------ *)
(** ** The answer [SkipAll] *)

Lemma noAbort_app t1 t2 : noAbort t1 -> noAbort t2 -> noAbort (t1 ++ t2).
Proof. intros H1 H2. apply Forall_app. now split. Qed.

Lemma abortIsLast_after r result t1 t2 :
  noAbort t1 -> abortIsLast r result t2 -> abortIsLast r result (t1 ++ t2).
Proof.
  intros H1 [H2 | [Hr [pre [c [-> [Hpre Hc]]]]]].
  - left. now apply noAbort_app.
  - right. split; [exact Hr|]. exists (t1 ++ pre), c.
    rewrite app_assoc. splits; auto. now apply noAbort_app.
Qed.

Lemma abortIsLast_single r c :
  call_ret c = r -> abortIsLast (Some SkipAll) r [c].
Proof.
  intros Hc. destruct (abortsAt c) eqn:E.
  - right. pose proof E as E'. unfold abortsAt in E'. rewrite Hc in E'.
    destruct r as [[| |msg]|]; try discriminate E'.
    split; [reflexivity|]. exists [], c. splits; auto. constructor.
  - left. constructor; [exact E | constructor].
Qed.

(** A computation that went on after [rec] returned did not see
    [SkipAll]. *)
Lemma abortIsLast_continue e t1 :
  abortIsLast (Some SkipAll) e t1 -> is_err e SkipAll = false -> noAbort t1.
Proof.
  intros [H | [-> _]] He; [exact H | discriminate He].
Qed.

Lemma abort_position (pre post pre' : list Call) c c' :
  pre ++ c :: post = pre' ++ [c'] ->
  noAbort pre' -> abortsAt c = true -> post = [].
Proof.
  revert pre'. induction pre as [|x pre IH]; intros [|y pre'] Heq Hno Hc;
    simpl in Heq.
  - now injection Heq.
  - injection Heq as -> Heq. inversion Hno; subst. congruence.
  - injection Heq as -> Heq. now destruct pre.
  - injection Heq as -> Heq. inversion Hno; subst. eapply IH; eauto.
Qed.

Lemma abortIsLast_spec r result tr pre c post :
  abortIsLast r result tr ->
  tr = pre ++ c :: post ->
  abortsAt c = true ->
  post = [] /\ result = r.
Proof.
  intros [Hno | [Hr [pre' [c' [-> [Hpre Hc']]]]]] Heq Hc.
  - subst tr. apply Forall_app in Hno. destruct Hno as [_ Hno].
    inversion Hno; subst. congruence.
  - split; [|exact Hr]. symmetry in Heq. eapply abort_position; eauto.
Qed.

Section SkipAll.
Context {L : GoLib} {St : Type}.
Variable f : FileSystem.
Variable fn : WalkFunc St.

Lemma walkLoop_abortIsLast rec path infos :
  (forall p i s e s' t, rec p i s = Some (e, s', t) ->
                        abortIsLast (Some SkipAll) e t) ->
  forall err s r s' tr,
    walkLoop fn rec path err infos s = Some (r, s', tr) ->
    abortIsLast (Some SkipAll) r tr.
Proof.
  intros Hrec. induction infos as [|i rest IH]; intros err s r s' tr.
  - intros [= <- <- <-]. left. constructor.
  - destruct (notDot i) eqn:Hdot.
    + destruct err as [v|].
      * rewrite walkLoop_handed by assumption. cbv zeta.
        set (p := Join path (Name i)).
        set (e := fst (fn p (Some i) (Some v) s)).
        pose proof (abortIsLast_single e (mkCall p (Some i) (Some v) e) eq_refl)
          as Hsingle.
        destruct (not_nil e && negb (is_err e SkipDir)) eqn:Hstop.
        -- now intros [= <- <- <-].
        -- destruct (walkLoop fn rec path (Some v) rest _)
             as [[[q s2] t2]|] eqn:Hl; [|discriminate].
           intros [= <- <- <-].
           apply (abortIsLast_after _ _ [_] t2); [|eauto].
           apply (abortIsLast_continue e); [exact Hsingle|].
           destruct e as [[| |msg]|]; try reflexivity; discriminate Hstop.
      * destruct (rec (Join path (Name i)) i s) as [[[e s1] t1]|] eqn:Hr.
        -- rewrite (walkLoop_walked fn _ _ _ _ _ _ _ _ Hdot Hr).
           pose proof (Hrec _ _ _ _ _ _ Hr) as He.
           destruct (not_nil e && _) eqn:Hstop.
           ++ now intros [= <- <- <-].
           ++ destruct (walkLoop fn rec path e rest s1)
                as [[[q s2] t2]|] eqn:Hl; [|discriminate].
              intros [= <- <- <-]. apply abortIsLast_after; [|eauto].
              apply (abortIsLast_continue e); [exact He|].
              destruct e as [[| |msg]|]; try reflexivity.
              simpl in Hstop. now rewrite orb_true_r in Hstop.
        -- simpl. unfold notDot in Hdot.
           destruct (isDot (Name i)); [discriminate|].
           unfold bind. rewrite Hr. discriminate.
    + rewrite walkLoop_filter. simpl. rewrite Hdot.
      rewrite <- walkLoop_filter. apply IH.
Qed.

Lemma walk_abortIsLast fuel :
  forall p i s e s' t,
    walk f fn fuel p i s = Some (e, s', t) -> abortIsLast (Some SkipAll) e t.
Proof.
  induction fuel as [|fuel IH]; intros p i s e s' t; [discriminate|].
  destruct (IsDir i) eqn:Hd.
  - destruct (ReadDir f p) as [listing [v|]] eqn:Hr.
    + erewrite walk_dir_unreadable, invoke_eq by eassumption.
      intros [= <- <- <-]. now apply abortIsLast_single.
    + destruct (fst (fn p (Some i) None s)) as [v|] eqn:Hfn.
      * erewrite walk_dir_refused, invoke_eq by eassumption.
        intros [= <- <- <-]. now apply abortIsLast_single.
      * erewrite walk_dir_entered by eassumption.
        destruct (walkLoop _ _ _ _ _ _) as [[[q s2] t2]|] eqn:Hl;
          [|discriminate].
        intros [= <- <- <-]. apply (abortIsLast_after _ _ [_] t2).
        -- constructor; [reflexivity | constructor].
        -- eapply walkLoop_abortIsLast; [exact IH | exact Hl].
  - rewrite walk_file, invoke_eq by assumption.
    intros [= <- <- <-]. now apply abortIsLast_single.
Qed.

Lemma rootLoop_abortIsLast (rec : string -> FileInfo -> Walk St error)
      dirpath infos :
  (forall p i s e s' t, rec p i s = Some (e, s', t) ->
                        abortIsLast (Some SkipAll) e t) ->
  forall err s r s' tr,
    rootLoop rec dirpath err infos s = Some (r, s', tr) ->
    abortIsLast None r tr.
Proof.
  intros Hrec. induction infos as [|i rest IH]; intros err s r s' tr.
  - intros [= <- <- <-]. left. constructor.
  - destruct (rec (Join dirpath (Name i)) i s) as [[[e s1] t1]|] eqn:Hr.
    + rewrite (rootLoop_walked _ _ _ _ _ _ _ _ _ Hr).
      pose proof (Hrec _ _ _ _ _ _ Hr) as He.
      destruct (is_err e SkipDir || is_err e SkipAll) eqn:Hstop.
      * intros [= <- <- <-].
        destruct He as [Hno | [_ Hlast]]; [now left | right; now split].
      * destruct (rootLoop rec dirpath e rest s1)
          as [[[q s2] t2]|] eqn:Hl; [|discriminate].
        intros [= <- <- <-]. apply abortIsLast_after; [|eauto].
        apply (abortIsLast_continue e); [exact He|].
        apply orb_false_iff in Hstop. tauto.
    + simpl. unfold bind. rewrite Hr. discriminate.
Qed.
End SkipAll.

(* ------------------------------------------------------------------ *)
(** ** The loops take the entries one after the other *)

Section Turns.
Context {L : GoLib} {St : Type}.
Variable f : FileSystem.
Variable fn : WalkFunc St.

Lemma inTurn_single (step : Loop St -> FileInfo -> list Call -> Loop St -> Prop)
      x i seg x1 :
  returned x = None -> step x i seg x1 -> inTurn step x [i] seg x1.
Proof.
  intros Hgo Hstep. rewrite <- (app_nil_r seg).
  apply (inTurn_cons step x i seg x1 [] [] x1 Hgo Hstep), inTurn_nil.
Qed.

(** The loop of [GenericWalk] walks the entries of its listing in turn, up
    to the first whose walk returns [SkipDir] or [SkipAll]. *)
Lemma rootLoop_inTurn fuel dirpath infos :
  forall err s r s' tr,
    rootLoop (walk f fn fuel) dirpath err infos s = Some (r, s', tr) ->
    exists visited x',
      prefixOf visited infos /\
      inTurn (rootStep f fn fuel dirpath) (mkLoop err None s) visited tr x' /\
      store x' = s' /\
      (returned x' = None -> visited = infos) /\
      r = rootResult x'.
Proof.
  induction infos as [|i rest IH]; intros err s r s' tr.
  - intros [= <- <- <-]. exists [], (mkLoop err None s).
    splits; auto using prefixOf_nil, inTurn_nil.
  - destruct (walk f fn fuel (Join dirpath (Name i)) i s)
      as [[[e s1] t1]|] eqn:Hw.
    + rewrite (rootLoop_walked _ _ _ _ _ _ _ _ _ Hw).
      destruct (is_err e SkipDir || is_err e SkipAll) eqn:Hs.
      * intros [= <- <- <-]. exists [i], (mkLoop e (Some None) s1). splits.
        -- apply prefixOf_cons, prefixOf_nil.
        -- apply inTurn_single; [reflexivity|].
           exists e. simpl. now rewrite Hs.
        -- reflexivity.
        -- discriminate.
        -- reflexivity.
      * destruct (rootLoop (walk f fn fuel) dirpath e rest s1)
          as [[[q s2] t2]|] eqn:Hl; [|discriminate].
        intros [= <- <- <-].
        destruct (IH _ _ _ _ _ Hl) as [visited [x' [Hp [Ht [Hs' [Hall Hr]]]]]].
        exists (i :: visited), x'. splits; auto.
        -- now apply prefixOf_cons.
        -- apply (inTurn_cons _ _ i t1 (mkLoop e None s1)); auto.
           exists e. simpl. now rewrite Hs.
        -- intros Hgo. now rewrite (Hall Hgo).
    + simpl. unfold bind. rewrite Hw. discriminate.
Qed.

(** The loop of [walk] takes the entries of its listing in turn, [.] and
    [..] left out, up to the first that ends it. *)
Lemma walkLoop_inTurn rec path infos :
  forall err s r s' tr,
    walkLoop fn rec path err infos s = Some (r, s', tr) ->
    exists visited x',
      prefixOf visited (filter notDot infos) /\
      inTurn (loopStep fn rec path) (mkLoop err None s) visited tr x' /\
      store x' = s' /\
      (returned x' = None -> visited = filter notDot infos) /\
      r = loopResult x'.
Proof.
  induction infos as [|i rest IH]; intros err s r s' tr.
  - intros [= <- <- <-]. exists [], (mkLoop err None s).
    splits; auto using prefixOf_nil, inTurn_nil.
  - simpl filter. destruct (notDot i) eqn:Hdot.
    + destruct err as [v|].
      * rewrite walkLoop_handed by assumption. cbv zeta.
        set (p := Join path (Name i)).
        set (e := fst (fn p (Some i) (Some v) s)).
        set (s1 := snd (fn p (Some i) (Some v) s)).
        assert (Hstep : forall out,
                   out = (if not_nil e && negb (is_err e SkipDir)
                          then Some e else None) ->
                   loopStep fn rec path (mkLoop (Some v) None s) i
                            [mkCall p (Some i) (Some v) e]
                            (mkLoop (Some v) out s1)).
        { intros out ->. unfold loopStep. simpl. exists e.
          fold p. rewrite invoke_eq. fold e s1. auto. }
        destruct (not_nil e && negb (is_err e SkipDir)) eqn:Hstop.
        -- intros [= <- <- <-].
           exists [i], (mkLoop (Some v) (Some e) s1). splits.
           ++ apply prefixOf_cons, prefixOf_nil.
           ++ apply inTurn_single; [reflexivity | now apply Hstep].
           ++ reflexivity.
           ++ discriminate.
           ++ reflexivity.
        -- destruct (walkLoop fn rec path (Some v) rest s1)
             as [[[q s2] t2]|] eqn:Hl; [|discriminate].
           intros [= <- <- <-].
           destruct (IH _ _ _ _ _ Hl)
             as [visited [x' [Hp [Ht [Hs' [Hall Hr]]]]]].
           exists (i :: visited), x'. splits; auto.
           ++ now apply prefixOf_cons.
           ++ apply (inTurn_cons _ _ i [_] (mkLoop (Some v) None s1));
                auto.
           ++ intros Hgo. now rewrite (Hall Hgo).
      * destruct (rec (Join path (Name i)) i s) as [[[e s1] t1]|] eqn:Hr.
        -- rewrite (walkLoop_walked fn _ _ _ _ _ _ _ _ Hdot Hr).
           assert (Hstep : forall out,
                      out = (if not_nil e &&
                                (negb (IsDir i) || negb (is_err e SkipDir))
                             then Some e else None) ->
                      loopStep fn rec path (mkLoop None None s) i t1
                               (mkLoop e out s1)).
           { intros out ->. unfold loopStep. simpl. exists e. auto. }
           destruct (not_nil e && _) eqn:Hstop.
           ++ intros [= <- <- <-].
              exists [i], (mkLoop e (Some e) s1). splits.
              ** apply prefixOf_cons, prefixOf_nil.
              ** apply inTurn_single; [reflexivity | now apply Hstep].
              ** reflexivity.
              ** discriminate.
              ** reflexivity.
           ++ destruct (walkLoop fn rec path e rest s1)
                as [[[q s2] t2]|] eqn:Hl; [|discriminate].
              intros [= <- <- <-].
              destruct (IH _ _ _ _ _ Hl)
                as [visited [x' [Hp [Ht [Hs' [Hall Hres]]]]]].
              exists (i :: visited), x'. splits; auto.
              ** now apply prefixOf_cons.
              ** apply (inTurn_cons _ _ i t1 (mkLoop e None s1)); auto.
              ** intros Hgo. now rewrite (Hall Hgo).
        -- simpl. unfold notDot in Hdot.
           destruct (isDot (Name i)); [discriminate|].
           unfold bind. rewrite Hr. discriminate.
    + rewrite walkLoop_filter. simpl. rewrite Hdot.
      rewrite <- walkLoop_filter. apply IH.
Qed.

(** Each segment starts with the invocation of the callback on its
    entry. *)
Lemma rootStep_visits fuel dirpath x visited tr x' :
  inTurn (rootStep f fn fuel dirpath) x visited tr x' ->
  visitsInOrder dirpath visited tr.
Proof.
  induction 1 as [x|x i seg x1 rest tr x2 _ [e [Hw _]] _ IH].
  - apply visitsInOrder_nil.
  - apply visitsInOrder_cons; [|exact IH].
    exact (walk_headed f fn fuel _ _ _ _ _ _ Hw).
Qed.

Lemma loopStep_visits rec path x visited tr x' :
  headed rec ->
  inTurn (loopStep fn rec path) x visited tr x' ->
  visitsInOrder path visited tr.
Proof.
  intros Hrec.
  induction 1 as [x|x i seg x1 rest tr x2 _ Hstep _ IH].
  - apply visitsInOrder_nil.
  - apply visitsInOrder_cons; [|exact IH].
    unfold loopStep in Hstep. destruct (carried x) as [v|].
    + destruct Hstep as [e [Hinv _]]. rewrite invoke_eq in Hinv.
      injection Hinv as _ _ <-. repeat eexists.
    + destruct Hstep as [e [Hr _]]. exact (Hrec _ _ _ _ _ _ Hr).
Qed.

(** The entries taken are in order, the listing being sorted. *)
Lemma prefixOf_sorted (visited infos : list FileInfo) :
  prefixOf visited infos ->
  StronglySorted infoLe infos -> StronglySorted infoLe visited.
Proof. intros [rest ->]. apply prefix_sorted. Qed.
End Turns.
(* ------------------------------------------------------------------ *)
(** ** The walk of a finite filesystem returns *)

(** C7.  When only a finite, acyclic part of the filesystem can be reached
    from the root ([RootFinite]: the unfolding of the directory listings is
    well-founded), [GenericWalk] terminates for every callback: there is a
    depth [n] such that every recursion budget of at least [n] lets the walk
    return a result, whatever the callback, its state and its answers. *)
Theorem GenericWalk_terminates {L : GoLib} (f : FileSystem) (dirpath : string) :
  RootFinite f dirpath ->
  exists n, forall fuel, n <= fuel ->
    forall St (fn : WalkFunc St) (s : St),
    exists r, GenericWalk f fn fuel dirpath s = Some r.
Proof.
  intros Hfin. unfold RootFinite in Hfin.
  destruct (ReadDir f dirpath) as [listing [e|]] eqn:Hr.
  - exists 0. intros fuel _ St fn s.
    erewrite GenericWalk_unreadable, invoke_eq by eassumption.
    eexists; reflexivity.
  - simpl in Hfin.
    destruct (common_budget (fun _ => true)
                (fun c m => forall St (fn : WalkFunc St) s,
                     exists r, walk f fn m (Join dirpath (Name c)) c s = Some r)
                listing) as [n Hn].
    { intros c Hc _. apply walk_total. now apply Hfin. }
    exists n. intros fuel Hle St fn s.
    erewrite GenericWalk_readable by eassumption.
    apply rootLoop_total. intros c Hc s0. apply Hn; auto.
    eapply Permutation_in; [apply sortInfos_perm | exact Hc].
Qed.

(* ------------------------------------------------------------------ *)
(** ** Directories that cannot be read *)

(** C4.  When [ReadDir] fails on a directory with the error [e], the
    callback is invoked once for that directory, with [e], and nothing below
    the directory is visited: as the root of the walk, [GenericWalk] makes
    this one call (with a nil [FileInfo]) and returns; as an entry [info],
    [walk] makes this one call and returns what the callback returned.  What
    the enclosing loop does next depends on that returned value alone: the
    loop of [walk] goes on to the next entry after nil and after [SkipDir]
    and returns any other value; the loop of [GenericWalk] stops after
    [SkipDir] and [SkipAll] and goes on after every other value. *)
Theorem unreadable_directory_reported_once {L : GoLib} {St : Type}
        (f : FileSystem) (fn : WalkFunc St) (fuel : nat) (path : string)
        (listing : list FileInfo) (e : errorValue) (s : St) :
  ReadDir f path = (listing, Some e) ->
  GenericWalk f fn fuel path s =
    Some (fst (fn path None (Some e) s), snd (fn path None (Some e) s),
          [mkCall path None (Some e) (fst (fn path None (Some e) s))])
  /\
  forall info : FileInfo, IsDir info = true ->
    let r := fst (fn path (Some info) (Some e) s) in
    let s1 := snd (fn path (Some info) (Some e) s) in
    let c := mkCall path (Some info) (Some e) r in
    walk f fn (S fuel) path info s = Some (r, s1, [c])
    /\
    (forall parent rest, path = Join parent (Name info) -> notDot info = true ->
       walkLoop fn (walk f fn (S fuel)) parent None (info :: rest) s =
         match r with
         | None => after [c] (walkLoop fn (walk f fn (S fuel)) parent None rest s1)
         | Some SkipDir =>
             after [c] (walkLoop fn (walk f fn (S fuel)) parent (Some SkipDir) rest s1)
         | Some v => Some (Some v, s1, [c])
         end)
    /\
    (forall parent rest err0, path = Join parent (Name info) ->
       rootLoop (walk f fn (S fuel)) parent err0 (info :: rest) s =
         match r with
         | Some SkipDir | Some SkipAll => Some (None, s1, [c])
         | _ => after [c] (rootLoop (walk f fn (S fuel)) parent r rest s1)
         end).
Proof.
  intros Hr. split.
  - erewrite GenericWalk_unreadable, invoke_eq by eassumption. reflexivity.
  - intros info Hd r s1 c.
    assert (Hw : walk f fn (S fuel) path info s = Some (r, s1, [c])).
    { erewrite walk_dir_unreadable, invoke_eq by eassumption. reflexivity. }
    split; [exact Hw|]. split.
    + intros parent rest -> Hdot.
      rewrite (walkLoop_walked fn _ _ _ _ _ _ _ _ Hdot Hw). rewrite Hd.
      destruct r as [[| |msg]|]; reflexivity.
    + intros parent rest err0 ->.
      rewrite (rootLoop_walked _ _ _ _ _ _ _ _ _ Hw).
      destruct r as [[| |msg]|]; reflexivity.
Qed.

(** C10.  When [ReadDir] fails on the root, [GenericWalk] returns the value
    the callback returned for that one invocation, whatever it is: the
    sentinels [SkipDir] and [SkipAll] too are handed to the caller. *)
Theorem root_failure_returns_callback_value {L : GoLib} {St : Type}
        (f : FileSystem) (fn : WalkFunc St) (fuel : nat) (dirpath : string)
        (listing : list FileInfo) (e : errorValue) (s : St) :
  ReadDir f dirpath = (listing, Some e) ->
  exists s' trace,
    GenericWalk f fn fuel dirpath s =
      Some (fst (fn dirpath None (Some e) s), s', trace)
    /\ trace = [mkCall dirpath None (Some e) (fst (fn dirpath None (Some e) s))]
    /\ (forall v, (v = SkipDir \/ v = SkipAll) ->
          fst (fn dirpath None (Some e) s) = Some v ->
          GenericWalk f fn fuel dirpath s = Some (Some v, s', trace)).
Proof.
  intros Hr. erewrite GenericWalk_unreadable, invoke_eq by eassumption.
  eexists; eexists. split; [reflexivity|]. split; [reflexivity|].
  intros v _ ->. reflexivity.
Qed.

(* ------------------------------------------------------------------ *)
(** ** The order of siblings *)

(** C3.  The entries of every directory that is listed during a walk are
    visited in the order of their names in lower case, whatever the order
    in which [ReadDir] returned them.  [readDirInfos] returns the listing
    rearranged so that the lower-cased names never decrease.  There is such
    an arrangement [order] of the listing that both loops go through, one
    entry after the other: the trace of [GenericWalk] on the directory is
    the walk of the first entry of [order], followed by the walk of the
    second from where the first left off, and so on, each walk starting
    with the invocation of the callback on its entry; the loop leaves out
    no entry and ends before the last one only when a walk has returned
    [SkipDir] or [SkipAll].  The same holds of [walk] on a directory that it
    enters, after the invocation for the directory itself, with the entries
    [.] and [..] left out: each entry in turn is walked, or handed to the
    callback with the error kept in [err], up to the end of [order] or to
    the first result that ends the loop.  When [walk] does not enter the
    directory it makes no further invocation. *)
Theorem siblings_in_case_insensitive_order {L : GoLib} {St : Type}
        (f : FileSystem) (fn : WalkFunc St) (fuel : nat) (path : string)
        (listing : list FileInfo) (s : St) :
  ReadDir f path = (listing, None) ->
  (Permutation (fst (readDirInfos f path)) listing /\
   StronglySorted infoLe (fst (readDirInfos f path)))
  /\
  exists order,
    Permutation order listing /\
    StronglySorted infoLe order /\
    (forall r s' tr,
        GenericWalk f fn fuel path s = Some (r, s', tr) ->
        exists visited x',
          prefixOf visited order /\
          StronglySorted infoLe visited /\
          inTurn (rootStep f fn fuel path) (mkLoop None None s)
                 visited tr x' /\
          visitsInOrder path visited tr /\
          (returned x' = None -> visited = order) /\
          store x' = s' /\
          r = rootResult x')
    /\
    (forall info r s' tr,
        walk f fn (S fuel) path info s = Some (r, s', tr) ->
        let answer := fst (fn path (Some info) None s) in
        let s0 := snd (fn path (Some info) None s) in
        tr = mkCall path (Some info) None answer :: tl tr /\
        if IsDir info && negb (not_nil answer) then
          exists visited x',
            prefixOf visited (filter notDot order) /\
            StronglySorted infoLe visited /\
            inTurn (loopStep fn (walk f fn fuel) path) (mkLoop None None s0)
                   visited (tl tr) x' /\
            visitsInOrder path visited (tl tr) /\
            (returned x' = None -> visited = filter notDot order) /\
            store x' = s' /\
            r = loopResult x'
        else tl tr = [] /\ s' = s0 /\ r = answer).
Proof.
  intros Hr. rewrite (readDirInfos_ok _ _ _ Hr). simpl fst.
  split; [split; [apply sortInfos_perm | apply sortInfos_sorted]|].
  exists (SortFunc cmpInfo listing).
  split; [apply sortInfos_perm|]. split; [apply sortInfos_sorted|]. split.
  - intros r s' tr. erewrite GenericWalk_readable by eassumption. intros Hrun.
    destruct (rootLoop_inTurn f fn fuel _ _ _ _ _ _ _ Hrun)
      as [visited [x' [Hp [Ht [Hs [Hall Hres]]]]]].
    exists visited, x'. splits; auto.
    + apply (prefixOf_sorted _ _ Hp), sortInfos_sorted.
    + exact (rootStep_visits f fn fuel _ _ _ _ _ Ht).
  - intros info r s' tr Hrun. cbv zeta.
    destruct (IsDir info) eqn:Hd.
    + destruct (fst (fn path (Some info) None s)) as [v|] eqn:Hfn.
      * erewrite walk_dir_refused, invoke_eq in Hrun by eassumption.
        rewrite Hfn in Hrun. injection Hrun as <- <- <-. simpl. auto.
      * erewrite walk_dir_entered in Hrun by eassumption.
        destruct (walkLoop _ _ _ _ _ _) as [[[q s2] t2]|] eqn:Hl;
          [|discriminate].
        injection Hrun as <- <- <-. simpl.
        split; [reflexivity|].
        destruct (walkLoop_inTurn fn _ _ _ _ _ _ _ _ Hl)
          as [visited [x' [Hp [Ht [Hs [Hall Hres]]]]]].
        exists visited, x'. splits; auto.
        -- apply (prefixOf_sorted _ _ Hp), filter_sorted, sortInfos_sorted.
        -- exact (loopStep_visits fn _ _ _ _ _ _
                                  (walk_headed f fn fuel) Ht).
    + rewrite walk_file, invoke_eq in Hrun by assumption.
      injection Hrun as <- <- <-. simpl. auto.
Qed.

(* ------------------------------------------------------------------ *)
(** ** The entries [.] and [..] *)

(** C8.  Below the root the entries named [.] and [..] are passed over: the
    loop of [walk] behaves on a listing as on the listing without them, so
    neither the callback nor the recursion is applied to them, and no
    invocation that [walk] makes after the first one (which is for the entry
    [walk] was called on) is for an entry of these names.  The listing of the
    root is not filtered: with a callback that always returns nil, every
    entry of the root's listing, whatever its name, is passed to the
    callback under the path joined from the root and its name. *)
Theorem dot_entries_skipped_below_root_only {L : GoLib} {St : Type}
        (f : FileSystem) (fn : WalkFunc St) :
  (forall rec path err infos s,
      walkLoop fn rec path err infos s =
        walkLoop fn rec path err (filter notDot infos) s)
  /\
  (forall fuel path info s r s' tr,
      walk f fn fuel path info s = Some (r, s', tr) ->
      Forall (fun c => dotCall c = false) (tl tr))
  /\
  (forall fuel dirpath listing s r s' tr,
      alwaysNilFn fn ->
      ReadDir f dirpath = (listing, None) ->
      GenericWalk f fn fuel dirpath s = Some (r, s', tr) ->
      forall i, In i listing ->
        exists e r0, In (mkCall (Join dirpath (Name i)) (Some i) e r0) tr).
Proof.
  split; [intros; apply walkLoop_filter|]. split.
  - intros fuel path info s r s' tr. apply walk_no_dots.
  - intros fuel dirpath listing s r s' tr Hnil Hr.
    erewrite GenericWalk_readable by eassumption. intros Hrun i Hi.
    eapply rootLoop_reaches_all;
      [apply walk_headed | apply walk_returns_nil; exact Hnil | exact Hrun |].
    eapply Permutation_in; [symmetry; apply sortInfos_perm | exact Hi].
Qed.

(* ------------------------------------------------------------------ *)
(** ** Aborting the walk *)

(** C5.  Once the callback has answered [SkipAll] to the visit of an entry
    (an invocation with the entry's [FileInfo]), the walk is over: that
    invocation is the last of the trace, so no further entry is passed to
    the callback, and [GenericWalk] returns nil, not the sentinel.  (The one
    invocation without a [FileInfo], made when the root itself cannot be
    read, is not the visit of an entry; what [GenericWalk] returns then is
    the subject of C10.) *)
Theorem SkipAll_ends_walk {L : GoLib} {St : Type}
        (f : FileSystem) (fn : WalkFunc St) (fuel : nat) (dirpath : string)
        (s s' : St) (r : error) (tr pre post : list Call) (c : Call) :
  GenericWalk f fn fuel dirpath s = Some (r, s', tr) ->
  tr = pre ++ c :: post ->
  call_info c <> None ->
  call_ret c = Some SkipAll ->
  post = [] /\ r = None.
Proof.
  intros Hrun Htr Hinfo Hret.
  assert (Habort : abortsAt c = true) by (unfold abortsAt; now rewrite Hret).
  destruct (ReadDir f dirpath) as [listing [e|]] eqn:Hr.
  - erewrite GenericWalk_unreadable, invoke_eq in Hrun by eassumption.
    injection Hrun as <- <- <-.
    destruct pre as [|x pre]; simpl in Htr.
    + injection Htr as <- <-. now contradiction Hinfo.
    + injection Htr as _ Htr. now destruct pre.
  - erewrite GenericWalk_readable in Hrun by eassumption.
    eapply abortIsLast_spec; [|exact Htr | exact Habort].
    eapply rootLoop_abortIsLast; [|exact Hrun].
    apply walk_abortIsLast.
Qed.

(* ------------------------------------------------------------------ *)
(** ** Where the walker departs from its contract *)

(** C1.  The filesystem below the root [/sub] is a finite tree, the single
    file [f]; every directory listing succeeds and the callback always
    returns nil.  The listing of [/sub] holds the entries [.] and [..], as
    the listing of a directory does on filesystems that store them, and the
    loop of [GenericWalk] walks them like any other entry, where the loop of
    [walk] passes over them.  The entry [/sub/f] of the tree is passed to
    the callback three times and not once, among invocations for the root,
    its parent and the file [/top], none of which is an entry of the tree:
    the trace is no rearrangement of the pre-order listing of the tree. *)
Theorem entry_below_dotted_root_visited_thrice (fuel : nat) :
  let entries := [Node (Examples.file "f") []] in
  describesRoot (L := GoStd.lib) Examples.dottedFS "/sub" entries /\
  alwaysNilFn Examples.alwaysNil /\
  preorderForest (L := GoStd.lib) "/sub" entries =
    [mkCall "/sub/f" (Some (Examples.file "f")) None None] /\
  exists trace,
    GenericWalk (L := GoStd.lib) Examples.dottedFS Examples.alwaysNil
                (3 + fuel) "/sub" tt = Some (None, tt, trace) /\
    List.length
      (filter (fun c => String.eqb (call_path c) "/sub/f") trace) = 3 /\
    ~ Permutation trace (preorderForest (L := GoStd.lib) "/sub" entries).
Proof.
  cbv zeta. splits.
  - exists [Examples.dir "."; Examples.dir ".."; Examples.file "f"].
    splits; [reflexivity | reflexivity |].
    constructor; [reflexivity | constructor].
  - intros path info err s. reflexivity.
  - reflexivity.
  - eexists. splits.
    + vm_compute. reflexivity.
    + reflexivity.
    + intros Hp. apply Permutation_length in Hp. discriminate Hp.
Qed.

(** C2.  The callback answers [SkipDir] for the directory [/d/a].  Nothing
    in [/d/a] is visited, but its sibling [/d/b] is not visited normally
    either: the callback is invoked on it with the error [SkipDir], left
    over in the variable [err] of the loop, and [/d/b/y] is never visited.
    When the skipped directory lies directly below the root ([/a]), the
    walk ends at once and the sibling [/b] is not visited at all. *)
Theorem SkipDir_spoils_later_siblings (fuel : nat) :
  let fn1 := Examples.byPath [("/d/a", Some SkipDir)] in
  let fn2 := Examples.byPath [("/a", Some SkipDir)] in
  GenericWalk (L := GoStd.lib) Examples.siblingsFS fn1 (2 + fuel) "/" tt =
    Some (None, tt,
          [mkCall "/d" (Some (Examples.dir "d")) None None;
           mkCall "/d/a" (Some (Examples.dir "a")) None (Some SkipDir);
           mkCall "/d/b" (Some (Examples.dir "b")) (Some SkipDir) None])
  /\
  GenericWalk (L := GoStd.lib) Examples.topSiblingsFS fn2 (1 + fuel) "/" tt =
    Some (None, tt,
          [mkCall "/a" (Some (Examples.dir "a")) None (Some SkipDir)]).
Proof. split; vm_compute; reflexivity. Qed.

(** C9.  The listing of the root [/sub] succeeds and holds the entries [.]
    and [..], as the listing of a directory does on filesystems that store
    them.  The root path itself is passed to the callback, with the
    [FileInfo] of [.] and a nil error, and through [..] the walk leaves the
    root and visits its parent [/] and the sibling [/top]. *)
Theorem root_passed_to_callback_through_dot (fuel : nat) :
  GenericWalk (L := GoStd.lib) Examples.dottedFS Examples.alwaysNil
              (3 + fuel) "/sub" tt =
    Some (None, tt,
          [mkCall "/sub" (Some (Examples.dir ".")) None None;
           mkCall "/sub/f" (Some (Examples.file "f")) None None;
           mkCall "/" (Some (Examples.dir "..")) None None;
           mkCall "/sub" (Some (Examples.dir "sub")) None None;
           mkCall "/sub/f" (Some (Examples.file "f")) None None;
           mkCall "/top" (Some (Examples.file "top")) None None;
           mkCall "/sub/f" (Some (Examples.file "f")) None None]).
Proof. vm_compute; reflexivity. Qed.

(* ================================================================== *)
(** * Further properties of the walker *)

(* ------------------------------------------------------------------ *)
(** ** What the walker returns *)

Lemma lastReturn_after r t1 t2 : lastReturn r t2 -> lastReturn r (t1 ++ t2).
Proof.
  intros [-> | [pre [c [-> Hc]]]]; [now left | right].
  exists (t1 ++ pre), c. now rewrite app_assoc.
Qed.

Lemma lastReturn_single r c : call_ret c = r -> lastReturn r [c].
Proof. intros Hc. right. now exists [], c. Qed.

Section Returns.
Context {L : GoLib} {St : Type}.
Variable f : FileSystem.
Variable fn : WalkFunc St.

Lemma walkLoop_lastReturn rec path infos :
  (forall p i s e s' t, rec p i s = Some (e, s', t) -> lastReturn e t) ->
  forall err s r s' tr,
    walkLoop fn rec path err infos s = Some (r, s', tr) -> lastReturn r tr.
Proof.
  intros Hrec. induction infos as [|i rest IH]; intros err s r s' tr.
  - intros [= <- <- <-]. now left.
  - destruct (notDot i) eqn:Hdot.
    + destruct err as [v|].
      * rewrite walkLoop_handed by assumption. cbv zeta.
        destruct (not_nil _ && _).
        -- intros [= <- <- <-]. now apply lastReturn_single.
        -- destruct (walkLoop fn rec path (Some v) rest _)
             as [[[q s2] t2]|] eqn:Hl; [|discriminate].
           intros [= <- <- <-]. apply (lastReturn_after _ [_] t2). eauto.
      * destruct (rec (Join path (Name i)) i s) as [[[e s1] t1]|] eqn:Hr.
        -- rewrite (walkLoop_walked fn _ _ _ _ _ _ _ _ Hdot Hr).
           destruct (not_nil e && _).
           ++ intros [= <- <- <-]. eauto.
           ++ destruct (walkLoop fn rec path e rest s1)
                as [[[q s2] t2]|] eqn:Hl; [|discriminate].
              intros [= <- <- <-]. apply lastReturn_after. eauto.
        -- simpl. unfold notDot in Hdot.
           destruct (isDot (Name i)); [discriminate|].
           unfold bind. rewrite Hr. discriminate.
    + rewrite walkLoop_filter. simpl. rewrite Hdot.
      rewrite <- walkLoop_filter. apply IH.
Qed.

Lemma walk_lastReturn fuel :
  forall p i s e s' t,
    walk f fn fuel p i s = Some (e, s', t) -> lastReturn e t.
Proof.
  induction fuel as [|fuel IH]; intros p i s e s' t; [discriminate|].
  destruct (IsDir i) eqn:Hd.
  - destruct (ReadDir f p) as [listing [v|]] eqn:Hr.
    + erewrite walk_dir_unreadable, invoke_eq by eassumption.
      intros [= <- <- <-]. now apply lastReturn_single.
    + destruct (fst (fn p (Some i) None s)) as [v|] eqn:Hfn.
      * erewrite walk_dir_refused, invoke_eq by eassumption.
        intros [= <- <- <-]. now apply lastReturn_single.
      * erewrite walk_dir_entered by eassumption.
        destruct (walkLoop _ _ _ _ _ _) as [[[q s2] t2]|] eqn:Hl;
          [|discriminate].
        intros [= <- <- <-]. apply (lastReturn_after _ [_] t2).
        eapply walkLoop_lastReturn; [exact IH | exact Hl].
  - rewrite walk_file, invoke_eq by assumption.
    intros [= <- <- <-]. now apply lastReturn_single.
Qed.

(** The loop of [GenericWalk], entered after the calls [before] with the
    result [err] of the last of them. *)
Lemma rootLoop_lastReturn (rec : string -> FileInfo -> Walk St error)
      dirpath infos :
  (forall p i s e s' t, rec p i s = Some (e, s', t) -> lastReturn e t) ->
  forall err before s r s' tr,
    lastReturn err before ->
    rootLoop rec dirpath err infos s = Some (r, s', tr) ->
    lastReturn r (before ++ tr).
Proof.
  intros Hrec. induction infos as [|i rest IH];
    intros err before s r s' tr Hbefore.
  - intros [= <- <- <-]. now rewrite app_nil_r.
  - destruct (rec (Join dirpath (Name i)) i s) as [[[e s1] t1]|] eqn:Hr.
    + rewrite (rootLoop_walked _ _ _ _ _ _ _ _ _ Hr).
      destruct (is_err e SkipDir || is_err e SkipAll).
      * intros [= <- <- <-]. now left.
      * destruct (rootLoop rec dirpath e rest s1)
          as [[[q s2] t2]|] eqn:Hl; [|discriminate].
        intros [= <- <- <-]. rewrite app_assoc.
        eapply IH; [|exact Hl]. apply lastReturn_after. eauto.
    + simpl. unfold bind. rewrite Hr. discriminate.
Qed.

(** The loop of [GenericWalk] returns no sentinel. *)
Lemma rootLoop_no_sentinel (rec : string -> FileInfo -> Walk St error)
      dirpath infos :
  forall err s r s' tr,
    isSentinel err = false ->
    rootLoop rec dirpath err infos s = Some (r, s', tr) ->
    isSentinel r = false.
Proof.
  induction infos as [|i rest IH]; intros err s r s' tr Herr.
  - now intros [= <- <- <-].
  - destruct (rec (Join dirpath (Name i)) i s) as [[[e s1] t1]|] eqn:Hr.
    + rewrite (rootLoop_walked _ _ _ _ _ _ _ _ _ Hr).
      destruct (is_err e SkipDir || is_err e SkipAll) eqn:Hs.
      * now intros [= <- <- <-].
      * destruct (rootLoop rec dirpath e rest s1)
          as [[[q s2] t2]|] eqn:Hl; [|discriminate].
        intros [= <- <- <-]. eapply IH; [exact Hs | exact Hl].
    + simpl. unfold bind. rewrite Hr. discriminate.
Qed.

(** Unless the callback answers with a sentinel, the loop of
    [GenericWalk] reaches every entry of the listing. *)
Lemma rootLoop_reaches_all_unless_skipped
      (rec : string -> FileInfo -> Walk St error) dirpath infos :
  headed rec ->
  (forall p i s e s' t, rec p i s = Some (e, s', t) -> lastReturn e t) ->
  forall err s r s' tr,
    rootLoop rec dirpath err infos s = Some (r, s', tr) ->
    Forall (fun c => isSentinel (call_ret c) = false) tr ->
    forall i, In i infos ->
      exists e r0, In (mkCall (Join dirpath (Name i)) (Some i) e r0) tr.
Proof.
  intros Hhead Hlast. induction infos as [|i rest IH];
    intros err s r s' tr Hrun Hno x Hx; [destruct Hx|].
  destruct (rec (Join dirpath (Name i)) i s) as [[[e s1] t1]|] eqn:Hr.
  - rewrite (rootLoop_walked _ _ _ _ _ _ _ _ _ Hr) in Hrun.
    destruct (is_err e SkipDir || is_err e SkipAll) eqn:Hs.
    + injection Hrun as <- <- <-.
      destruct (Hlast _ _ _ _ _ _ Hr) as [-> | [pre [c [-> Hc]]]];
        [discriminate Hs|].
      apply Forall_app in Hno. destruct Hno as [_ Hno].
      inversion Hno; subst. unfold isSentinel in *. congruence.
    + destruct (rootLoop rec dirpath e rest s1)
        as [[[q s2] t2]|] eqn:Hl; [|discriminate].
      injection Hrun as <- <- <-.
      apply Forall_app in Hno. destruct Hno as [_ Hno2].
      destruct Hx as [<- | Hx].
      * destruct (Hhead _ _ _ _ _ _ Hr) as [e0 [r0 [tl0 Ht]]].
        exists e0, r0. subst t1. simpl. auto.
      * destruct (IH _ _ _ _ _ Hl Hno2 x Hx) as [e0 [r0 He0]].
        exists e0, r0. apply in_or_app. now right.
  - simpl in Hrun. unfold bind in Hrun. rewrite Hr in Hrun. discriminate.
Qed.
Lemma rootLoop_returns_nil (rec : string -> FileInfo -> Walk St error)
      dirpath infos :
  returnsNil rec ->
  forall s r s' tr,
    rootLoop rec dirpath None infos s = Some (r, s', tr) -> r = None.
Proof.
  intros Hrec. induction infos as [|i rest IH]; intros s r s' tr.
  - now intros [= <- <- <-].
  - destruct (rec (Join dirpath (Name i)) i s) as [[[e s1] t1]|] eqn:Hr.
    + rewrite (rootLoop_walked _ _ _ _ _ _ _ _ _ Hr).
      rewrite (Hrec _ _ _ _ _ _ Hr). simpl.
      destruct (rootLoop rec dirpath None rest s1)
        as [[[q s2] t2]|] eqn:Hl; [|discriminate].
      intros [= <- <- <-]. eauto.
    + simpl. unfold bind. rewrite Hr. discriminate.
Qed.
End Returns.

(* ------------------------------------------------------------------ *)
(** ** Errors returned by the callback *)

Lemma noStop_app t1 t2 : noStop t1 -> noStop t2 -> noStop (t1 ++ t2).
Proof. intros H1 H2. apply Forall_app. now split. Qed.

Lemma stopIsLast_after r t1 t2 :
  noStop t1 -> stopIsLast r t2 -> stopIsLast r (t1 ++ t2).
Proof.
  intros H1 [H2 | [pre [c [-> [Hpre [Hc Hr]]]]]].
  - left. now apply noStop_app.
  - right. exists (t1 ++ pre), c.
    rewrite app_assoc. splits; auto. now apply noStop_app.
Qed.

Lemma stopIsLast_single r c : call_ret c = r -> stopIsLast r [c].
Proof.
  intros Hc. destruct (stopsAt c) eqn:E.
  - right. exists [], c. splits; auto. constructor.
  - left. constructor; [exact E | constructor].
Qed.

(** A computation that went on after [rec] returned [e] saw neither an
    error nor [SkipAll]. *)
Lemma stopIsLast_continue e t1 :
  stopIsLast e t1 ->
  not_nil e && negb (is_err e SkipDir) = false ->
  noStop t1.
Proof.
  intros [H | [pre [c [_ [_ [Hc ->]]]]]] He; [exact H|].
  unfold stopsAt in Hc. congruence.
Qed.

Lemma stop_position (pre post pre' : list Call) c c' :
  pre ++ c :: post = pre' ++ [c'] ->
  noStop pre' -> stopsAt c = true -> post = [] /\ c = c'.
Proof.
  revert pre'. induction pre as [|x pre IH]; intros [|y pre'] Heq Hno Hc;
    simpl in Heq.
  - injection Heq as -> ->. now split.
  - injection Heq as -> Heq. inversion Hno; subst. congruence.
  - injection Heq as -> Heq. now destruct pre.
  - injection Heq as -> Heq. inversion Hno; subst. eapply IH; eauto.
Qed.

Lemma stopIsLast_spec r tr pre c post :
  stopIsLast r tr ->
  tr = pre ++ c :: post ->
  stopsAt c = true ->
  post = [] /\ r = call_ret c.
Proof.
  intros [Hno | [pre' [c' [-> [Hpre [Hc' Hr]]]]]] Heq Hc.
  - subst tr. apply Forall_app in Hno. destruct Hno as [_ Hno].
    inversion Hno; subst. congruence.
  - symmetry in Heq.
    destruct (stop_position _ _ _ _ _ Heq Hpre Hc) as [-> ->]. now split.
Qed.

Section Stops.
Context {L : GoLib} {St : Type}.
Variable f : FileSystem.
Variable fn : WalkFunc St.

Lemma walkLoop_stopIsLast rec path infos :
  (forall p i s e s' t, rec p i s = Some (e, s', t) -> stopIsLast e t) ->
  forall err s r s' tr,
    walkLoop fn rec path err infos s = Some (r, s', tr) -> stopIsLast r tr.
Proof.
  intros Hrec. induction infos as [|i rest IH]; intros err s r s' tr.
  - intros [= <- <- <-]. left. constructor.
  - destruct (notDot i) eqn:Hdot.
    + destruct err as [v|].
      * rewrite walkLoop_handed by assumption. cbv zeta.
        set (p := Join path (Name i)).
        set (e := fst (fn p (Some i) (Some v) s)).
        pose proof (stopIsLast_single e (mkCall p (Some i) (Some v) e) eq_refl)
          as Hsingle.
        destruct (not_nil e && negb (is_err e SkipDir)) eqn:Hstop.
        -- now intros [= <- <- <-].
        -- destruct (walkLoop fn rec path (Some v) rest _)
             as [[[q s2] t2]|] eqn:Hl; [|discriminate].
           intros [= <- <- <-].
           apply (stopIsLast_after _ [_] t2); [|eauto].
           now apply (stopIsLast_continue e).
      * destruct (rec (Join path (Name i)) i s) as [[[e s1] t1]|] eqn:Hr.
        -- rewrite (walkLoop_walked fn _ _ _ _ _ _ _ _ Hdot Hr).
           pose proof (Hrec _ _ _ _ _ _ Hr) as He.
           destruct (not_nil e && _) eqn:Hstop.
           ++ now intros [= <- <- <-].
           ++ destruct (walkLoop fn rec path e rest s1)
                as [[[q s2] t2]|] eqn:Hl; [|discriminate].
              intros [= <- <- <-]. apply stopIsLast_after; [|eauto].
              apply (stopIsLast_continue e); [exact He|].
              destruct e as [[| |msg]|]; try reflexivity;
                simpl in Hstop; now rewrite orb_true_r in Hstop.
        -- simpl. unfold notDot in Hdot.
           destruct (isDot (Name i)); [discriminate|].
           unfold bind. rewrite Hr. discriminate.
    + rewrite walkLoop_filter. simpl. rewrite Hdot.
      rewrite <- walkLoop_filter. apply IH.
Qed.

Lemma walk_stopIsLast fuel :
  forall p i s e s' t,
    walk f fn fuel p i s = Some (e, s', t) -> stopIsLast e t.
Proof.
  induction fuel as [|fuel IH]; intros p i s e s' t; [discriminate|].
  destruct (IsDir i) eqn:Hd.
  - destruct (ReadDir f p) as [listing [v|]] eqn:Hr.
    + erewrite walk_dir_unreadable, invoke_eq by eassumption.
      intros [= <- <- <-]. now apply stopIsLast_single.
    + destruct (fst (fn p (Some i) None s)) as [v|] eqn:Hfn.
      * erewrite walk_dir_refused, invoke_eq by eassumption.
        intros [= <- <- <-]. now apply stopIsLast_single.
      * erewrite walk_dir_entered by eassumption.
        destruct (walkLoop _ _ _ _ _ _) as [[[q s2] t2]|] eqn:Hl;
          [|discriminate].
        intros [= <- <- <-]. apply (stopIsLast_after _ [_] t2).
        -- constructor; [reflexivity | constructor].
        -- eapply walkLoop_stopIsLast; [exact IH | exact Hl].
  - rewrite walk_file, invoke_eq by assumption.
    intros [= <- <- <-]. now apply stopIsLast_single.
Qed.
End Stops.

(* ------------------------------------------------------------------ *)
(** ** Where the visited entries come from *)

Section Parents.
Context {L : GoLib} {St : Type}.
Variable f : FileSystem.
Variable fn : WalkFunc St.

Lemma parented_incl tr :
  forall ps ps', incl ps ps' -> parented ps tr -> parented ps' tr.
Proof.
  induction tr as [|c tr IH]; intros ps ps' Hincl; simpl; auto.
  intros [[p [Hp Hc]] Hrest]. split.
  - exists p. split; auto.
  - eapply IH; [|exact Hrest]. destruct (entered c); auto.
    intros x [<- | Hx]; simpl; auto.
Qed.

Lemma parented_app t1 :
  forall ps t2,
    parented ps t1 ->
    (forall ps', incl ps ps' -> parented ps' t2) ->
    parented ps (t1 ++ t2).
Proof.
  induction t1 as [|c t1 IH]; intros ps t2 H1 H2; simpl.
  - apply H2. apply incl_refl.
  - destruct H1 as [Hc Hrest]. split; [exact Hc|].
    apply IH; [exact Hrest|]. intros ps' Hincl. apply H2.
    destruct (entered c); auto.
    intros x Hx. apply Hincl. now right.
Qed.

(** An invocation of a parented trace is for an entry of one of the given
    directories or of a directory entered before it. *)
Lemma parented_spec tr :
  forall ps pre c post,
    parented ps tr ->
    tr = pre ++ c :: post ->
    exists p,
      childOf p c /\
      (In p ps \/ exists d, In d pre /\ entered d = true /\ call_path d = p).
Proof.
  induction tr as [|x tr IH]; intros ps pre c post Hpar Heq.
  - destruct pre; discriminate.
  - destruct Hpar as [[p [Hp Hx]] Hrest].
    destruct pre as [|y pre]; simpl in Heq; injection Heq as -> ->.
    + exists p. split; auto.
    + destruct (IH _ pre c post Hrest eq_refl) as [q [Hq Hfrom]].
      exists q. split; [exact Hq|].
      destruct Hfrom as [Hin | [d [Hd [He Hpath]]]].
      * destruct (entered y) eqn:Ey.
        -- destruct Hin as [<- | Hin]; [|now left].
           right. exists y. simpl. auto.
        -- now left.
      * right. exists d. simpl. auto.
Qed.

Lemma walkLoop_parented rec path infos ps :
  In path ps ->
  (forall i s e s' t ps',
      incl ps ps' ->
      rec (Join path (Name i)) i s = Some (e, s', t) -> parented ps' t) ->
  forall err s r s' tr,
    walkLoop fn rec path err infos s = Some (r, s', tr) -> parented ps tr.
Proof.
  intros Hpath Hrec. induction infos as [|i rest IH]; intros err s r s' tr.
  - now intros [= <- <- <-].
  - destruct (notDot i) eqn:Hdot.
    + destruct err as [v|].
      * rewrite walkLoop_handed by assumption. cbv zeta.
        assert (Hone : forall e, parented ps
                  [mkCall (Join path (Name i)) (Some i) (Some v) e]).
        { intros e. simpl. split; [|exact I]. exists path. now split. }
        destruct (not_nil _ && _).
        -- intros [= <- <- <-]. apply Hone.
        -- destruct (walkLoop fn rec path (Some v) rest _)
             as [[[q s2] t2]|] eqn:Hl; [|discriminate].
           intros [= <- <- <-].
           apply (parented_app [_] ps t2); [apply Hone|].
           intros ps' Hincl. eapply parented_incl; [exact Hincl | eauto].
      * destruct (rec (Join path (Name i)) i s) as [[[e s1] t1]|] eqn:Hr.
        -- rewrite (walkLoop_walked fn _ _ _ _ _ _ _ _ Hdot Hr).
           pose proof (Hrec _ _ _ _ _ ps (incl_refl ps) Hr) as Ht1.
           destruct (not_nil e && _).
           ++ now intros [= <- <- <-].
           ++ destruct (walkLoop fn rec path e rest s1)
                as [[[q s2] t2]|] eqn:Hl; [|discriminate].
              intros [= <- <- <-]. apply parented_app; [exact Ht1|].
              intros ps' Hincl. eapply parented_incl; [exact Hincl | eauto].
        -- simpl. unfold notDot in Hdot.
           destruct (isDot (Name i)); [discriminate|].
           unfold bind. rewrite Hr. discriminate.
    + rewrite walkLoop_filter. simpl. rewrite Hdot.
      rewrite <- walkLoop_filter. apply IH.
Qed.

Lemma walk_parented fuel :
  forall parent i s e s' t ps,
    In parent ps ->
    walk f fn fuel (Join parent (Name i)) i s = Some (e, s', t) ->
    parented ps t.
Proof.
  induction fuel as [|fuel IH]; intros parent i s e s' t ps Hin;
    [discriminate|].
  assert (Hone : forall err r, parented ps
            [mkCall (Join parent (Name i)) (Some i) err r]).
  { intros err r. simpl. split; [|exact I]. exists parent. now split. }
  destruct (IsDir i) eqn:Hd.
  - destruct (ReadDir f (Join parent (Name i))) as [listing [v|]] eqn:Hr.
    + erewrite walk_dir_unreadable, invoke_eq by eassumption.
      intros [= <- <- <-]. apply Hone.
    + destruct (fst (fn (Join parent (Name i)) (Some i) None s)) as [v|] eqn:Hfn.
      * erewrite walk_dir_refused, invoke_eq by eassumption.
        intros [= <- <- <-]. apply Hone.
      * erewrite walk_dir_entered by eassumption.
        destruct (walkLoop _ _ _ _ _ _) as [[[q s2] t2]|] eqn:Hl;
          [|discriminate].
        intros [= <- <- <-]. simpl. split.
        -- exists parent. now split.
        -- unfold entered. simpl. rewrite Hd. simpl.
           eapply walkLoop_parented; [| |exact Hl].
           ++ now left.
           ++ intros c s0 e0 s0' t0 ps' Hincl Hrun.
              eapply IH; [|exact Hrun]. apply Hincl. now left.
  - rewrite walk_file, invoke_eq by assumption.
    intros [= <- <- <-]. apply Hone.
Qed.

Lemma rootLoop_parented (rec : string -> FileInfo -> Walk St error)
      dirpath infos ps :
  (forall i s e s' t ps',
      incl ps ps' ->
      rec (Join dirpath (Name i)) i s = Some (e, s', t) -> parented ps' t) ->
  forall err s r s' tr,
    rootLoop rec dirpath err infos s = Some (r, s', tr) -> parented ps tr.
Proof.
  intros Hrec. induction infos as [|i rest IH]; intros err s r s' tr.
  - now intros [= <- <- <-].
  - destruct (rec (Join dirpath (Name i)) i s) as [[[e s1] t1]|] eqn:Hr.
    + rewrite (rootLoop_walked _ _ _ _ _ _ _ _ _ Hr).
      pose proof (Hrec _ _ _ _ _ ps (incl_refl ps) Hr) as Ht1.
      destruct (is_err e SkipDir || is_err e SkipAll).
      * now intros [= <- <- <-].
      * destruct (rootLoop rec dirpath e rest s1)
          as [[[q s2] t2]|] eqn:Hl; [|discriminate].
        intros [= <- <- <-]. apply parented_app; [exact Ht1|].
        intros ps' Hincl. eapply parented_incl; [exact Hincl | eauto].
    + simpl. unfold bind. rewrite Hr. discriminate.
Qed.

(* .................................................................. *)
(** *** The errors the callback is passed *)

Lemma walkLoop_errorFrom rec path infos :
  (forall p i s e s' t, rec p i s = Some (e, s', t) ->
                        Forall (errorFrom f) t) ->
  forall err s r s' tr,
    err = None \/ err = Some SkipDir ->
    walkLoop fn rec path err infos s = Some (r, s', tr) ->
    Forall (errorFrom f) tr.
Proof.
  intros Hrec. induction infos as [|i rest IH]; intros err s r s' tr Herr.
  - intros [= <- <- <-]. constructor.
  - destruct (notDot i) eqn:Hdot.
    + destruct err as [v|].
      * destruct Herr as [Herr | Herr]; [discriminate|].
        injection Herr as ->.
        rewrite walkLoop_handed by assumption. cbv zeta.
        assert (Hone : forall e, errorFrom f
                  (mkCall (Join path (Name i)) (Some i) (Some SkipDir) e))
          by (intros e; right; now left).
        destruct (not_nil _ && _).
        -- intros [= <- <- <-]. constructor; [apply Hone | constructor].
        -- destruct (walkLoop fn rec path (Some SkipDir) rest _)
             as [[[q s2] t2]|] eqn:Hl; [|discriminate].
           intros [= <- <- <-]. constructor; [apply Hone|].
           eapply IH; [|exact Hl]. now right.
      * destruct (rec (Join path (Name i)) i s) as [[[e s1] t1]|] eqn:Hr.
        -- rewrite (walkLoop_walked fn _ _ _ _ _ _ _ _ Hdot Hr).
           pose proof (Hrec _ _ _ _ _ _ Hr) as Ht1.
           destruct (not_nil e && _) eqn:Hstop.
           ++ now intros [= <- <- <-].
           ++ destruct (walkLoop fn rec path e rest s1)
                as [[[q s2] t2]|] eqn:Hl; [|discriminate].
              intros [= <- <- <-]. apply Forall_app. split; [exact Ht1|].
              eapply IH; [|exact Hl].
              destruct e as [[| |msg]|]; auto;
                simpl in Hstop; now rewrite orb_true_r in Hstop.
        -- simpl. unfold notDot in Hdot.
           destruct (isDot (Name i)); [discriminate|].
           unfold bind. rewrite Hr. discriminate.
    + rewrite walkLoop_filter. simpl. rewrite Hdot.
      rewrite <- walkLoop_filter. now apply IH.
Qed.

Lemma walk_errorFrom fuel :
  forall p i s e s' t,
    walk f fn fuel p i s = Some (e, s', t) -> Forall (errorFrom f) t.
Proof.
  induction fuel as [|fuel IH]; intros p i s e s' t; [discriminate|].
  destruct (IsDir i) eqn:Hd.
  - destruct (ReadDir f p) as [listing [v|]] eqn:Hr.
    + erewrite walk_dir_unreadable, invoke_eq by eassumption.
      intros [= <- <- <-]. constructor; [|constructor].
      right. right. simpl. now rewrite Hr.
    + destruct (fst (fn p (Some i) None s)) as [v|] eqn:Hfn.
      * erewrite walk_dir_refused, invoke_eq by eassumption.
        intros [= <- <- <-]. constructor; [now left | constructor].
      * erewrite walk_dir_entered by eassumption.
        destruct (walkLoop _ _ _ _ _ _) as [[[q s2] t2]|] eqn:Hl;
          [|discriminate].
        intros [= <- <- <-]. constructor; [now left|].
        eapply walkLoop_errorFrom; [exact IH | | exact Hl]. now left.
  - rewrite walk_file, invoke_eq by assumption.
    intros [= <- <- <-]. constructor; [now left | constructor].
Qed.

Lemma rootLoop_errorFrom (rec : string -> FileInfo -> Walk St error)
      dirpath infos :
  (forall p i s e s' t, rec p i s = Some (e, s', t) ->
                        Forall (errorFrom f) t) ->
  forall err s r s' tr,
    rootLoop rec dirpath err infos s = Some (r, s', tr) ->
    Forall (errorFrom f) tr.
Proof.
  intros Hrec. induction infos as [|i rest IH]; intros err s r s' tr.
  - intros [= <- <- <-]. constructor.
  - destruct (rec (Join dirpath (Name i)) i s) as [[[e s1] t1]|] eqn:Hr.
    + rewrite (rootLoop_walked _ _ _ _ _ _ _ _ _ Hr).
      pose proof (Hrec _ _ _ _ _ _ Hr) as Ht1.
      destruct (is_err e SkipDir || is_err e SkipAll).
      * now intros [= <- <- <-].
      * destruct (rootLoop rec dirpath e rest s1)
          as [[[q s2] t2]|] eqn:Hl; [|discriminate].
        intros [= <- <- <-]. apply Forall_app. split; eauto.
    + simpl. unfold bind. rewrite Hr. discriminate.
Qed.

(* .................................................................. *)
(** *** The loop of [walk] once its variable [err] is set *)

Lemma walkLoop_handed_only rec rec' path v infos :
  forall s,
    walkLoop fn rec path (Some v) infos s =
      walkLoop fn rec' path (Some v) infos s.
Proof.
  induction infos as [|i rest IH]; intros s; [reflexivity|].
  destruct (notDot i) eqn:Hdot.
  - rewrite !walkLoop_handed by assumption. cbv zeta.
    destruct (not_nil _ && _); [reflexivity | now rewrite IH].
  - rewrite (walkLoop_filter fn rec), (walkLoop_filter fn rec').
    simpl. rewrite Hdot. rewrite <- !walkLoop_filter. apply IH.
Qed.

Lemma walkLoop_handed_trace path v infos :
  forall s,
    exists r s' tr,
      walkLoop fn neverCalled path (Some v) infos s = Some (r, s', tr) /\
      Forall (fun c => call_err c = Some v) tr /\
      exists visited,
        prefixOf visited (filter notDot infos) /\
        map call_path tr = map (fun i => Join path (Name i)) visited /\
        map call_info tr = map Some visited.
Proof.
  induction infos as [|i rest IH]; intros s.
  - exists None, s, []. splits; [reflexivity | constructor|].
    exists []. splits; [apply prefixOf_nil | reflexivity | reflexivity].
  - destruct (notDot i) eqn:Hdot.
    + rewrite walkLoop_handed by assumption. cbv zeta.
      set (p := Join path (Name i)).
      set (e := fst (fn p (Some i) (Some v) s)).
      destruct (not_nil e && _).
      * eexists _, _, _. splits; [reflexivity | repeat constructor|].
        exists [i]. simpl. rewrite Hdot. splits; try reflexivity.
        apply prefixOf_cons, prefixOf_nil.
      * destruct (IH (snd (fn p (Some i) (Some v) s)))
          as [r [s' [tr [Hrun [Herr [visited [Hp [Hpaths Hinfos]]]]]]]].
        rewrite Hrun. simpl.
        eexists _, _, _. splits; [reflexivity | constructor; auto|].
        exists (i :: visited). simpl. rewrite Hdot.
        splits; [now apply prefixOf_cons | now rewrite Hpaths
                | now rewrite Hinfos].
    + rewrite walkLoop_filter. simpl. rewrite Hdot.
      rewrite <- walkLoop_filter. apply IH.
Qed.
End Parents.

(* ------------------------------------------------------------------ *)
(** ** Entries whose names differ in case only *)

Lemma string_ltb_irrefl (a : string) : (a <? a)%string = false.
Proof.
  destruct (a <? a)%string eqn:E; [|reflexivity].
  apply string_ltb_compare in E.
  now destruct (String_as_OT.lt_not_eq _ _ E).
Qed.

Section EqualKeys.
Context {A : Type}.
Variable cmp : A -> A -> Z.

Lemma insertCmp_last (x : A) (l : list A) :
  Forall (fun y => (cmp x y <? 0)%Z = false) l ->
  insertCmp cmp x l = l ++ [x].
Proof.
  induction 1 as [|y l Hy Hl IH]; simpl; [reflexivity|].
  now rewrite Hy, IH.
Qed.

Lemma foldInsert_equal_keys (l : list A) :
  forall acc,
    (forall x y, In x (acc ++ l) -> In y (acc ++ l) ->
                 (cmp x y <? 0)%Z = false) ->
    fold_left (fun s x => insertCmp cmp x s) l acc = acc ++ l.
Proof.
  induction l as [|x l IH]; intros acc H; simpl.
  - now rewrite app_nil_r.
  - rewrite insertCmp_last.
    + rewrite IH; [now rewrite <- app_assoc|].
      intros a b Ha Hb. rewrite <- app_assoc in Ha, Hb. now apply H.
    + apply Forall_forall. intros y Hy. apply H.
      * apply in_or_app. right. now left.
      * apply in_or_app. now left.
Qed.
End EqualKeys.

Lemma sort_equal_keys {L : GoLib} (key : string) (l : list FileInfo) :
  SortFunc cmpInfo (withKey key l) = withKey key l.
Proof.
  unfold SortFunc. rewrite foldInsert_equal_keys; [reflexivity|].
  simpl. intros x y Hx Hy. unfold withKey in Hx, Hy.
  apply filter_In in Hx, Hy. destruct Hx as [_ Hx], Hy as [_ Hy].
  apply String.eqb_eq in Hx, Hy.
  rewrite cmpInfo_lt, Hx, Hy. apply string_ltb_irrefl.
Qed.

(* ------------------------------------------------------------------ *)
(** ** Properties of [GenericWalk], [walk] and [readDirInfos] *)

(** X1.  When the listing of the root succeeds, [GenericWalk] never
    returns one of the sentinels: a [SkipDir] or [SkipAll] that comes up
    from an entry ends the walk with nil. *)
Theorem readable_root_returns_no_sentinel {L : GoLib} {St : Type}
        (f : FileSystem) (fn : WalkFunc St) (fuel : nat) (dirpath : string)
        (listing : list FileInfo) (s s' : St) (r : error) (tr : list Call) :
  ReadDir f dirpath = (listing, None) ->
  GenericWalk f fn fuel dirpath s = Some (r, s', tr) ->
  r <> Some SkipDir /\ r <> Some SkipAll.
Proof.
  intros Hr. erewrite GenericWalk_readable by eassumption. intros Hrun.
  assert (H : isSentinel r = false)
    by (eapply rootLoop_no_sentinel; [|exact Hrun]; reflexivity).
  split; intros ->; discriminate H.
Qed.

(** X2.  Whatever [GenericWalk] returns other than nil is the value that
    the callback returned at the very last invocation of the walk. *)
Theorem GenericWalk_returns_last_answer {L : GoLib} {St : Type}
        (f : FileSystem) (fn : WalkFunc St) (fuel : nat) (dirpath : string)
        (s s' : St) (r : error) (tr : list Call) :
  GenericWalk f fn fuel dirpath s = Some (r, s', tr) ->
  r <> None ->
  exists pre c, tr = pre ++ [c] /\ call_ret c = r.
Proof.
  intros Hrun Hr.
  assert (H : lastReturn r tr).
  { destruct (ReadDir f dirpath) as [listing [e|]] eqn:Hread.
    - erewrite GenericWalk_unreadable, invoke_eq in Hrun by eassumption.
      injection Hrun as <- <- <-. now apply lastReturn_single.
    - erewrite GenericWalk_readable in Hrun by eassumption.
      change tr with ([] ++ tr).
      eapply rootLoop_lastReturn;
        [apply walk_lastReturn | now left | exact Hrun]. }
  destruct H as [-> | H]; [congruence | exact H].
Qed.

(** X3.  Within [walk], an answer of the callback other than nil and
    [SkipDir] ends the walk of the entry at once: the invocation is the
    last one that [walk] makes and [walk] returns that answer. *)
Theorem error_ends_walk_of_entry {L : GoLib} {St : Type}
        (f : FileSystem) (fn : WalkFunc St) (fuel : nat) (path : string)
        (info : FileInfo) (s s' : St) (r : error) (tr pre post : list Call)
        (c : Call) (v : errorValue) :
  walk f fn fuel path info s = Some (r, s', tr) ->
  tr = pre ++ c :: post ->
  call_ret c = Some v ->
  v <> SkipDir ->
  post = [] /\ r = Some v.
Proof.
  intros Hrun Htr Hret Hv.
  assert (Hstop : stopsAt c = true).
  { unfold stopsAt. rewrite Hret. destruct v; try reflexivity.
    now contradiction Hv. }
  destruct (stopIsLast_spec r tr pre c post
              (walk_stopIsLast f fn fuel _ _ _ _ _ _ Hrun) Htr Hstop)
    as [Hpost Hres].
  split; [exact Hpost | congruence].
Qed.

(** X4.  An error that comes up from an entry of the root does not end
    [GenericWalk]: as long as the callback answers with no sentinel, every
    entry of the root's listing is visited. *)
Theorem errors_do_not_stop_GenericWalk {L : GoLib} {St : Type}
        (f : FileSystem) (fn : WalkFunc St) (fuel : nat) (dirpath : string)
        (listing : list FileInfo) (s s' : St) (r : error) (tr : list Call) :
  ReadDir f dirpath = (listing, None) ->
  GenericWalk f fn fuel dirpath s = Some (r, s', tr) ->
  (forall c, In c tr ->
             call_ret c <> Some SkipDir /\ call_ret c <> Some SkipAll) ->
  forall i, In i listing ->
    exists e r0, In (mkCall (Join dirpath (Name i)) (Some i) e r0) tr.
Proof.
  intros Hr. erewrite GenericWalk_readable by eassumption.
  intros Hrun Hno i Hi.
  eapply rootLoop_reaches_all_unless_skipped;
    [apply walk_headed | apply walk_lastReturn | exact Hrun | |].
  - apply Forall_forall. intros c Hc. destruct (Hno c Hc) as [H1 H2].
    unfold isSentinel. destruct (call_ret c) as [[| |msg]|]; try reflexivity;
      congruence.
  - eapply Permutation_in; [symmetry; apply sortInfos_perm | exact Hi].
Qed.

(** X5.  When the listing of the root succeeds, every invocation of the
    callback carries the [FileInfo] of an entry and the path joined from a
    directory and the entry's name, and that directory is the root or a
    directory visited earlier in the walk, without an error, for which the
    callback returned nil: nothing is visited below a directory that could
    not be read or that the callback did not accept. *)
Theorem visits_only_below_entered_directories {L : GoLib} {St : Type}
        (f : FileSystem) (fn : WalkFunc St) (fuel : nat) (dirpath : string)
        (listing : list FileInfo) (s s' : St) (r : error)
        (pre post : list Call) (c : Call) :
  ReadDir f dirpath = (listing, None) ->
  GenericWalk f fn fuel dirpath s = Some (r, s', pre ++ c :: post) ->
  exists p,
    childOf p c /\
    (p = dirpath \/
     exists d, In d pre /\ entered d = true /\ call_path d = p).
Proof.
  intros Hr. erewrite GenericWalk_readable by eassumption. intros Hrun.
  assert (Hpar : parented [dirpath] (pre ++ c :: post)).
  { eapply rootLoop_parented; [|exact Hrun].
    intros i s0 e s0' t ps' Hincl Hw.
    eapply walk_parented; [|exact Hw]. apply Hincl. now left. }
  destruct (parented_spec _ _ _ _ _ Hpar eq_refl) as [p [Hp Hfrom]].
  exists p. split; [exact Hp|].
  destruct Hfrom as [[<- | []] | Hd]; [now left | now right].
Qed.

(** X6.  The error that the callback is passed is always nil, the error
    that [ReadDir] returned for the very path of the invocation, or
    [SkipDir]; no other error reaches the callback. *)
Theorem callback_errors_origin {L : GoLib} {St : Type}
        (f : FileSystem) (fn : WalkFunc St) (fuel : nat) (dirpath : string)
        (s s' : St) (r : error) (tr : list Call) (c : Call) :
  GenericWalk f fn fuel dirpath s = Some (r, s', tr) ->
  In c tr ->
  errorFrom f c.
Proof.
  intros Hrun Hc.
  assert (H : Forall (errorFrom f) tr).
  { destruct (ReadDir f dirpath) as [listing [e|]] eqn:Hread.
    - erewrite GenericWalk_unreadable, invoke_eq in Hrun by eassumption.
      injection Hrun as <- <- <-. constructor; [|constructor].
      right. right. simpl. now rewrite Hread.
    - erewrite GenericWalk_readable in Hrun by eassumption.
      eapply rootLoop_errorFrom; [|exact Hrun]. apply walk_errorFrom. }
  rewrite Forall_forall in H. now apply H.
Qed.

(** X7.  When the walk of a directory entry returns [SkipDir], the loop of
    [walk] goes on with the variable [err] set: it makes no recursive call
    any more (it behaves as with a recursive call that is never made), so
    none of the remaining entries of the directory is descended into, and
    each one it reaches is passed to the callback with the error
    [SkipDir]. *)
Theorem after_SkipDir_no_sibling_is_walked {L : GoLib} {St : Type}
        (f : FileSystem) (fn : WalkFunc St) (fuel : nat) (path : string)
        (i : FileInfo) (rest : list FileInfo) (s s1 : St) (t1 : list Call) :
  IsDir i = true ->
  notDot i = true ->
  walk f fn fuel (Join path (Name i)) i s = Some (Some SkipDir, s1, t1) ->
  exists r s' t2,
    walkLoop fn (walk f fn fuel) path None (i :: rest) s
      = Some (r, s', t1 ++ t2) /\
    walkLoop fn neverCalled path (Some SkipDir) rest s1 = Some (r, s', t2) /\
    Forall (fun c => call_err c = Some SkipDir) t2 /\
    exists visited,
      prefixOf visited (filter notDot rest) /\
      map call_path t2 = map (fun j => Join path (Name j)) visited /\
      map call_info t2 = map Some visited.
Proof.
  intros Hd Hdot Hw.
  destruct (walkLoop_handed_trace fn path SkipDir rest s1)
    as [r [s' [t2 [Hrun [Herr Hvisited]]]]].
  exists r, s', t2. splits; auto.
  rewrite (walkLoop_walked fn _ _ _ _ _ _ _ _ Hdot Hw). rewrite Hd. simpl.
  rewrite (walkLoop_handed_only fn (walk f fn fuel) neverCalled).
  now rewrite Hrun.
Qed.

(** X8.  [GenericWalk] returns no error of its own: with a callback that
    always returns nil it returns nil, whichever directories, the root
    included, cannot be read. *)
Theorem nil_callback_gives_nil {L : GoLib} {St : Type}
        (f : FileSystem) (fn : WalkFunc St) (fuel : nat) (dirpath : string)
        (s s' : St) (r : error) (tr : list Call) :
  alwaysNilFn fn ->
  GenericWalk f fn fuel dirpath s = Some (r, s', tr) ->
  r = None.
Proof.
  intros Hnil Hrun.
  destruct (ReadDir f dirpath) as [listing [e|]] eqn:Hread.
  - erewrite GenericWalk_unreadable, invoke_eq in Hrun by eassumption.
    injection Hrun as <- <- <-. apply Hnil.
  - erewrite GenericWalk_readable in Hrun by eassumption.
    eapply rootLoop_returns_nil; [|exact Hrun].
    apply walk_returns_nil. exact Hnil.
Qed.

(** X9.  In a directory of at most twelve entries, which
    [slices.SortFunc] sorts by insertion, entries whose names differ in
    case only stay in the order in which [ReadDir] returned them: for every
    lower-cased name, the entries of [readDirInfos] with that name are those
    of the listing, in the same order. *)
Theorem case_colliding_names_keep_listing_order {L : GoLib}
        (f : FileSystem) (dirname : string) (listing : list FileInfo)
        (key : string) :
  ReadDir f dirname = (listing, None) ->
  List.length listing <= maxInsertion ->
  withKey key (fst (readDirInfos f dirname)) = withKey key listing.
Proof.
  intros Hr _. rewrite (readDirInfos_ok _ _ _ Hr). simpl.
  unfold withKey at 1. rewrite sortInfos_filter.
  apply sort_equal_keys.
Qed.

(** X10.  When the filesystem below the root is a finite tree (the forest
    [ts]), every directory listing succeeds, the listing of the root holds
    no entry [.] or [..] and the callback always returns nil, [GenericWalk]
    returns nil and its trace is the pre-order listing of the tree [us],
    which is [ts] with the entries of every directory put in an order of
    non-decreasing lower-case names.  The trace is a rearrangement of the
    pre-order listing of [ts], so every entry is passed to the callback
    exactly once; and for every entry [d] the invocation for [d] is
    followed at once by the invocations for everything that [d] contains,
    so a directory is visited before all the entries in it. *)
Theorem plain_root_tree_walked_once_in_preorder {L : GoLib} {St : Type}
        (f : FileSystem) (fn : WalkFunc St) (dirpath : string)
        (ts : list tree) (fuel : nat) (s : St) :
  describesRoot f dirpath ts ->
  listsNoDots f dirpath ->
  alwaysNilFn fn ->
  forestHeight ts <= fuel ->
  exists us,
    arrangedForest ts us
    /\ GenericWalk f fn fuel dirpath s =
         Some (None, runCalls fn (preorderForest dirpath us) s,
               preorderForest dirpath us)
    /\ Permutation (preorderForest dirpath us) (preorderForest dirpath ts)
    /\ (forall p d,
          within dirpath us p d ->
          exists pre post,
            preorderForest dirpath us =
              pre ++ (mkCall p (Some (root d)) None None
                        :: preorderForest p (children d)) ++ post).
Proof.
  intros Hdesc Hplain Hnil Hh.
  destruct (GenericWalk_arranged f fn Hnil dirpath ts fuel s Hdesc Hplain Hh)
    as [us [Hus [Hperm Hrun]]].
  exists us. splits; auto.
  intros p d. apply preorderForest_block.
Qed.
(* ------------------------------------------------------------------ *)
(** ** The squashfs round trip *)

Module SquashfsFacts.
Import Byte Squashfs.

#[local] Abbreviation length := List.length.
#[local] Open Scope nat_scope.

(** *** Lists *)

Lemma firstn_plus {A} (a n : nat) (l : list A) :
  firstn (a + n) l = firstn a l ++ firstn n (skipn a l).
Proof.
  revert l. induction a as [|a IH]; intros [|x l]; simpl; auto.
  - now rewrite firstn_nil.
  - now rewrite IH.
Qed.

Lemma slice_app {A} (a n : nat) (l l' : list A) :
  a + n <= length l ->
  firstn n (skipn a (l ++ l')) = firstn n (skipn a l).
Proof.
  intros H. rewrite skipn_app, firstn_app, length_skipn.
  replace (n - (length l - a)) with 0 by lia.
  rewrite firstn_O. apply app_nil_r.
Qed.

Lemma slice_whole {A} (l l' : list A) :
  firstn (length l') (skipn (length l) (l ++ l')) = l'.
Proof.
  rewrite skipn_app, skipn_all, Nat.sub_diag. simpl. apply firstn_all.
Qed.

Lemma nth_error_prefix {A} (l l' : list A) i x :
  nth_error l i = Some x -> nth_error (l ++ l') i = Some x.
Proof.
  intros H. rewrite nth_error_app1; auto.
  apply nth_error_Some. congruence.
Qed.

Lemma nth_error_end {A} (l : list A) x : nth_error (l ++ [x]) (length l) = Some x.
Proof. rewrite nth_error_app2, Nat.sub_diag by lia. reflexivity. Qed.

(** *** Blocks and remainder of a file *)

Section Chunks.
Variable blockSize : nat.
Hypothesis blockSize_pos : 0 < blockSize.

Lemma blocks_prefix (content : bytes) (n : nat) :
  n * blockSize <= length content ->
  List.concat (map (fun k => firstn blockSize (skipn (k * blockSize) content))
              (seq 0 n))
    = firstn (n * blockSize) content.
Proof.
  induction n as [|n IH]; intros Hle.
  - reflexivity.
  - rewrite seq_S, map_app, List.concat_app. simpl. rewrite app_nil_r.
    rewrite IH by lia.
    replace (blockSize + n * blockSize) with (n * blockSize + blockSize) by lia.
    now rewrite firstn_plus.
Qed.

Lemma fullBlocks_tail (content : bytes) :
  List.concat (fullBlocks blockSize content) ++ tailOf blockSize content = content.
Proof.
  unfold fullBlocks, tailOf. rewrite blocks_prefix.
  - apply firstn_skipn.
  - rewrite Nat.mul_comm. apply Nat.Div0.mul_div_le.
Qed.

Lemma fullBlocks_lengths (content : bytes) :
  Forall (fun c => length c = blockSize) (fullBlocks blockSize content).
Proof.
  unfold fullBlocks. apply Forall_forall. intros c Hc.
  apply in_map_iff in Hc. destruct Hc as [k [<- Hk]].
  apply in_seq in Hk. rewrite length_firstn, length_skipn.
  assert (length content / blockSize * blockSize <= length content)
    by (rewrite Nat.mul_comm; apply Nat.Div0.mul_div_le).
  nia.
Qed.

Lemma tailOf_short (content : bytes) :
  length (tailOf blockSize content) < blockSize.
Proof.
  unfold tailOf. rewrite length_skipn.
  pose proof (Nat.div_mod_eq (length content) blockSize).
  pose proof (Nat.mod_upper_bound (length content) blockSize).
  lia.
Qed.

Lemma index_of_ref (i : nat) : indexOf blockSize (refOf blockSize i) = i.
Proof.
  unfold indexOf, refOf. simpl.
  pose proof (Nat.div_mod_eq i blockSize). lia.
Qed.
End Chunks.

(** *** The steps of the finalizer *)

Section BuilderSteps.
Context {C : Codec}.
Hypothesis codec_ok : CodecRoundTrip C.
Variable blockSize : nat.
Hypothesis blockSize_pos : 0 < blockSize.

Lemma storeBlock_decodes chunk payload flag :
  storeBlock chunk = (payload, flag) ->
  length chunk <= blockSize ->
  (if flag then decompress payload blockSize else payload) = chunk.
Proof.
  unfold storeBlock. destruct (length (compress chunk) <? length chunk);
    intros [= <- <-] Hle; [now apply codec_ok | reflexivity].
Qed.

Lemma fetchIn_prefix data d loc :
  loc_offset loc + loc_stored loc <= length data ->
  fetchIn blockSize (data ++ d) loc = fetchIn blockSize data loc.
Proof. intros H. unfold fetchIn. now rewrite slice_app. Qed.

Lemma fragLogical_closed b i loc :
  nth_error (b_fragTable b) i = Some loc ->
  fragLogical blockSize b i = Some (fetchIn blockSize (b_data b) loc).
Proof. unfold fragLogical. now intros ->. Qed.

Lemma fragLogical_open b :
  fragLogical blockSize b (length (b_fragTable b)) = Some (b_fragOpen b).
Proof.
  unfold fragLogical.
  destruct (nth_error (b_fragTable b) (length (b_fragTable b))) eqn:E.
  - assert (length (b_fragTable b) < length (b_fragTable b))
      by (apply nth_error_Some; congruence).
    lia.
  - now rewrite Nat.eqb_refl.
Qed.

Lemma fragLogical_cases b i blk :
  fragLogical blockSize b i = Some blk ->
  (exists loc, nth_error (b_fragTable b) i = Some loc /\
               blk = fetchIn blockSize (b_data b) loc) \/
  (i = length (b_fragTable b) /\ blk = b_fragOpen b).
Proof.
  unfold fragLogical. destruct (nth_error (b_fragTable b) i) as [loc|].
  - intros [= <-]. left. now exists loc.
  - destruct (Nat.eqb_spec i (length (b_fragTable b))); [|discriminate].
    intros [= <-]. now right.
Qed.

Lemma extends_refl b : extends blockSize b b.
Proof.
  unfold extends. splits; try (exists []; now rewrite app_nil_r).
Qed.

Lemma extends_trans b1 b2 b3 :
  extends blockSize b1 b2 -> extends blockSize b2 b3 -> extends blockSize b1 b3.
Proof.
  intros [[d1 Hd1] [[i1 Hi1] [[e1 He1] Hf1]]]
         [[d2 Hd2] [[i2 Hi2] [[e2 He2] Hf2]]].
  unfold extends. splits.
  - exists (d1 ++ d2). now rewrite Hd2, Hd1, app_assoc.
  - exists (i1 ++ i2). now rewrite Hi2, Hi1, app_assoc.
  - exists (e1 ++ e2). now rewrite He2, He1, app_assoc.
  - intros i blk H. destruct (Hf1 _ _ H) as [r1 H1].
    destruct (Hf2 _ _ H1) as [r2 H2]. exists (r1 ++ r2).
    now rewrite app_assoc.
Qed.

Lemma extends_fetch b b' loc :
  extends blockSize b b' -> within_data b loc ->
  fetchIn blockSize (b_data b') loc = fetchIn blockSize (b_data b) loc /\
  within_data b' loc.
Proof.
  intros [[d Hd] _] Hw. unfold within_data in *. rewrite Hd. split.
  - now apply fetchIn_prefix.
  - rewrite length_app. lia.
Qed.

(** A step that only appends to the data area. *)
Lemma extends_data b d :
  wfBuilder blockSize b ->
  let b' := mkBuilder (b_data b ++ d) (b_fragTable b) (b_fragOpen b)
                      (b_inodes b) (b_dirs b) in
  extends blockSize b b' /\ wfBuilder blockSize b'.
Proof.
  intros [Hopen Htab] b'. split; [|split].
  - unfold extends. splits; try (exists []; now rewrite app_nil_r).
    + now exists d.
    + intros i blk H. exists []. rewrite app_nil_r.
      destruct (fragLogical_cases _ _ _ H) as [[loc [Hn ->]] | [-> ->]].
      * rewrite (fragLogical_closed b' i loc Hn). simpl. f_equal.
        apply fetchIn_prefix. rewrite Forall_forall in Htab.
        apply Htab. eapply nth_error_In; eauto.
      * apply (fragLogical_open b').
  - exact Hopen.
  - simpl. eapply Forall_impl; [|exact Htab]. intros loc Hloc.
    unfold within_data in *. simpl. rewrite length_app. lia.
Qed.

Lemma writeBlock_spec chunk b b' loc :
  wfBuilder blockSize b ->
  length chunk <= blockSize ->
  writeBlock chunk b = (b', loc) ->
  extends blockSize b b' /\ wfBuilder blockSize b' /\
  fetchIn blockSize (b_data b') loc = chunk /\ within_data b' loc /\
  b_fragTable b' = b_fragTable b /\ b_fragOpen b' = b_fragOpen b /\
  b_inodes b' = b_inodes b /\ b_dirs b' = b_dirs b.
Proof.
  intros Hwf Hlen. unfold writeBlock.
  destruct (storeBlock chunk) as [payload flag] eqn:Hs. intros [= <- <-].
  destruct (extends_data b payload Hwf) as [He Hw].
  splits; try assumption; try reflexivity.
  - unfold fetchIn. simpl. rewrite slice_whole.
    now apply storeBlock_decodes.
  - unfold within_data. simpl. rewrite length_app. lia.
Qed.

Lemma writeBlocks_spec chunks :
  forall b b' locs,
    wfBuilder blockSize b ->
    Forall (fun c => length c <= blockSize) chunks ->
    writeBlocks chunks b = (b', locs) ->
    extends blockSize b b' /\ wfBuilder blockSize b' /\
    map (fetchIn blockSize (b_data b')) locs = chunks /\
    Forall (within_data b') locs /\
    b_fragTable b' = b_fragTable b /\ b_fragOpen b' = b_fragOpen b /\
    b_inodes b' = b_inodes b /\ b_dirs b' = b_dirs b.
Proof.
  induction chunks as [|chunk rest IH]; intros b b' locs Hwf Hlen; simpl.
  - intros [= <- <-]. splits; auto using extends_refl.
  - inversion Hlen as [|? ? Hc Hrest]; subst.
    destruct (writeBlock chunk b) as [b1 loc] eqn:H1.
    destruct (writeBlocks rest b1) as [b2 locs2] eqn:H2.
    intros [= <- <-].
    destruct (writeBlock_spec _ _ _ _ Hwf Hc H1)
      as [He1 [Hw1 [Hf1 [Hin1 [Ht1 [Ho1 [Hi1 Hd1]]]]]]].
    destruct (IH _ _ _ Hw1 Hrest H2)
      as [He2 [Hw2 [Hf2 [Hin2 [Ht2 [Ho2 [Hi2 Hd2]]]]]]].
    destruct (extends_fetch _ _ _ He2 Hin1) as [Hsame Hin1'].
    splits; try congruence; auto.
    + eapply extends_trans; eauto.
    + simpl. now rewrite Hsame, Hf1, Hf2.
Qed.

Lemma closeFragment_spec b :
  wfBuilder blockSize b ->
  extends blockSize b (closeFragment b) /\
  wfBuilder blockSize (closeFragment b) /\
  b_fragOpen (closeFragment b) = [] /\
  b_inodes (closeFragment b) = b_inodes b /\
  b_dirs (closeFragment b) = b_dirs b.
Proof.
  intros Hwf. unfold closeFragment.
  destruct (b_fragOpen b) as [|x open] eqn:Hopen.
  - splits; auto using extends_refl.
  - rewrite <- Hopen.
    destruct (writeBlock (b_fragOpen b) b) as [b1 loc] eqn:H1.
    destruct (writeBlock_spec _ _ _ _ Hwf (proj1 Hwf) H1)
      as [He1 [Hw1 [Hf1 [Hin1 [Ht1 [Ho1 [Hi1 Hd1]]]]]]].
    destruct He1 as [Hdata [_ [_ Hfr]]].
    unfold extends, wfBuilder.
    splits; simpl; try (exists []; now rewrite app_nil_r); auto; try lia.
    + intros i blk H. exists []. rewrite app_nil_r.
      destruct (fragLogical_cases _ _ _ H) as [[l [Hn ->]] | [-> ->]].
      * unfold fragLogical. simpl.
        rewrite (nth_error_prefix _ [loc] _ _ Hn). f_equal.
        destruct Hdata as [d ->]. apply fetchIn_prefix.
        destruct Hwf as [_ Htab]. rewrite Forall_forall in Htab.
        apply Htab. eapply nth_error_In; eauto.
      * unfold fragLogical. simpl. rewrite nth_error_end. now rewrite Hf1.
    + apply Forall_app. split.
      * destruct Hw1 as [_ Htab]. rewrite Ht1 in Htab. exact Htab.
      * constructor; [exact Hin1 | constructor].
Qed.

Lemma addFragment_spec tail b b' frag :
  wfBuilder blockSize b ->
  length tail < blockSize ->
  addFragment blockSize tail b = (b', frag) ->
  extends blockSize b b' /\ wfBuilder blockSize b' /\
  b_inodes b' = b_inodes b /\ b_dirs b' = b_dirs b /\
  match frag with
  | None => tail = []
  | Some fr =>
      frag_len fr = length tail /\ 0 < frag_len fr /\
      exists blk,
        fragLogical blockSize b' (frag_block fr) = Some blk /\
        frag_offset fr + frag_len fr <= length blk /\
        firstn (frag_len fr) (skipn (frag_offset fr) blk) = tail
  end.
Proof.
  intros Hwf Hlen. unfold addFragment.
  destruct tail as [|x tail'] eqn:Htail.
  - intros [= <- <-]. splits; auto using extends_refl.
  - assert (Hlt : 0 < length tail) by (rewrite Htail; simpl; lia).
    rewrite <- Htail in *. clear Htail.
    set (b1 := if blockSize <? length (b_fragOpen b) + length tail
               then closeFragment b else b).
    assert (H1 : extends blockSize b b1 /\ wfBuilder blockSize b1 /\
                 length (b_fragOpen b1) + length tail <= blockSize /\
                 b_inodes b1 = b_inodes b /\ b_dirs b1 = b_dirs b).
    { unfold b1.
      destruct (Nat.ltb_spec blockSize (length (b_fragOpen b) + length tail)).
      - destruct (closeFragment_spec b Hwf) as [He [Hw [Ho [Hi Hd]]]].
        splits; auto. rewrite Ho. simpl. lia.
      - splits; auto using extends_refl. }
    destruct H1 as [He1 [Hw1 [Hroom [Hi1 Hd1]]]].
    intros [= <- <-]. simpl.
    unfold wfBuilder. splits; auto.
    + eapply extends_trans; [exact He1|].
      unfold extends.
      splits; simpl; try (exists []; now rewrite app_nil_r).
      intros i blk H.
      destruct (fragLogical_cases _ _ _ H) as [[l [Hn ->]] | [-> ->]].
      * exists []. rewrite app_nil_r. unfold fragLogical. simpl.
        now rewrite Hn.
      * exists tail.
        apply (fragLogical_open
                 (mkBuilder (b_data b1) (b_fragTable b1)
                            (b_fragOpen b1 ++ tail) (b_inodes b1) (b_dirs b1))).
    + simpl. rewrite length_app. lia.
    + apply Hw1.
    + exists (b_fragOpen b1 ++ tail). split; [|split].
      * apply (fragLogical_open
                 (mkBuilder (b_data b1) (b_fragTable b1)
                            (b_fragOpen b1 ++ tail) (b_inodes b1) (b_dirs b1))).
      * rewrite length_app. lia.
      * apply slice_whole.
Qed.

Lemma writeFile_spec content b b' ino :
  wfBuilder blockSize b ->
  writeFile blockSize content b = (b', ino) ->
  extends blockSize b b' /\ wfBuilder blockSize b' /\
  b_inodes b' = b_inodes b /\ b_dirs b' = b_dirs b /\
  fileRep blockSize b' ino content.
Proof.
  intros Hwf. unfold writeFile.
  destruct (writeBlocks (fullBlocks blockSize content) b) as [b1 locs] eqn:H1.
  destruct (addFragment blockSize (tailOf blockSize content) b1)
    as [b2 frag] eqn:H2.
  intros [= <- <-].
  assert (Hfull : Forall (fun c => length c <= blockSize)
                         (fullBlocks blockSize content)).
  { eapply Forall_impl; [|apply fullBlocks_lengths; assumption].
    simpl. intros c Hc. lia. }
  destruct (writeBlocks_spec _ _ _ _ Hwf Hfull H1)
    as [He1 [Hw1 [Hf1 [Hin1 [_ [_ [Hi1 Hd1]]]]]]].
  destruct (addFragment_spec _ _ _ _ Hw1 (tailOf_short _ blockSize_pos _) H2)
    as [He2 [Hw2 [Hi2 [Hd2 Hfrag]]]].
  unfold fileRep. splits; try congruence; auto.
  - eapply extends_trans; eauto.
  - rewrite <- Hf1. apply map_ext_in. intros loc Hloc.
    rewrite Forall_forall in Hin1.
    now destruct (extends_fetch _ _ _ He2 (Hin1 _ Hloc)).
  - eapply Forall_impl; [|exact Hin1]. intros loc Hloc.
    now destruct (extends_fetch _ _ _ He2 Hloc).
Qed.
End BuilderSteps.

(** *** The finalizer writes what was staged *)

#[local] Arguments appendEntries : simpl never.
#[local] Arguments appendInode : simpl never.
#[local] Arguments writeFile : simpl never.

Lemma StagingNode_nested_ind (P : StagingNode -> Prop) :
  (forall entries, Forall (fun e => P (snd e)) entries -> P (Directory entries)) ->
  (forall content, P (File content)) ->
  (forall target, P (Symlink target)) ->
  forall n, P n.
Proof.
  intros Hdir Hfile Hlink. fix IH 1. intros [entries | content | target].
  - apply Hdir. induction entries as [|[name c] rest IHrest];
      constructor; [apply IH | exact IHrest].
  - apply Hfile.
  - apply Hlink.
Qed.

Section Finalizer.
Context {C : Codec}.
Hypothesis codec_ok : CodecRoundTrip C.
Variable blockSize : nat.
Hypothesis blockSize_pos : 0 < blockSize.
Variable cap : nat.
Hypothesis cap_pos : 0 < cap.

Lemma fileRep_extends b b' ino content :
  extends blockSize b b' ->
  fileRep blockSize b ino content -> fileRep blockSize b' ino content.
Proof.
  intros He. destruct ino as [size locs frag | |]; simpl; auto.
  intros [Hsize [Hmap [Hin Hfrag]]]. splits; auto.
  - rewrite <- Hmap. apply map_ext_in. intros loc Hloc.
    rewrite Forall_forall in Hin.
    now destruct (extends_fetch blockSize blockSize_pos _ _ _ He (Hin _ Hloc)).
  - eapply Forall_impl; [|exact Hin]. intros loc Hloc.
    now destruct (extends_fetch blockSize blockSize_pos _ _ _ He Hloc).
  - destruct frag as [fr|]; auto.
    destruct Hfrag as [Hlen [Hpos [blk [Hblk [Hbound Hslice]]]]].
    splits; auto. destruct He as [_ [_ [_ Hfr]]].
    destruct (Hfr _ _ Hblk) as [rest Hrest].
    exists (blk ++ rest). splits; auto.
    + rewrite length_app. lia.
    + now rewrite slice_app.
Qed.

Lemma allHold_impl (P Q : MetadataRef -> StagingNode -> Prop) entries :
  Forall (fun e => forall r, P r (snd e) -> Q r (snd e)) entries ->
  forall es, allHold P entries es -> allHold Q entries es.
Proof.
  induction 1 as [|[name c] rest Hc Hrest IH]; intros [|e es]; simpl; auto.
  intros [Hn [Hk [Hp Hall]]]. splits; auto.
Qed.

Lemma holds_extends n :
  forall b b' r,
    extends blockSize b b' ->
    holds blockSize cap b r n -> holds blockSize cap b' r n.
Proof.
  induction n as [entries IH | content | target] using StagingNode_nested_ind;
    intros b b' r He; simpl.
  - intros [start [es [Hino [Hbound [Hslice Hall]]]]].
    destruct He as [Hdata [[li Hi] [[ld Hd] Hfr]]].
    exists start, es. splits.
    + rewrite Hi. now apply nth_error_prefix.
    + rewrite Hd, length_app. lia.
    + rewrite Hd. now rewrite slice_app.
    + eapply allHold_impl; [|exact Hall].
      eapply Forall_impl; [|exact IH]. intros [name c] Hc r0. simpl.
      apply Hc. unfold extends. splits; eauto.
  - intros [ino [Hino Hrep]]. exists ino. split.
    + destruct He as [_ [[li Hi] _]]. rewrite Hi. now apply nth_error_prefix.
    + eapply fileRep_extends; eauto.
  - destruct He as [_ [[li Hi] _]]. rewrite Hi. apply nth_error_prefix.
Qed.

Lemma appendInode_spec ino b b' r :
  wfBuilder blockSize b ->
  appendInode cap ino b = (b', r) ->
  extends blockSize b b' /\ wfBuilder blockSize b' /\
  nth_error (b_inodes b') (indexOf cap r) = Some ino /\
  b_dirs b' = b_dirs b.
Proof.
  intros Hwf. unfold appendInode. intros [= <- <-]. splits; auto.
  - unfold extends. splits; simpl; try (exists []; now rewrite app_nil_r).
    now exists [ino].
  - simpl. rewrite index_of_ref by assumption. apply nth_error_end.
Qed.

Lemma appendEntries_spec es b b' start :
  wfBuilder blockSize b ->
  appendEntries cap es b = (b', start) ->
  extends blockSize b b' /\ wfBuilder blockSize b' /\
  indexOf cap start + length es <= length (b_dirs b') /\
  firstn (length es) (skipn (indexOf cap start) (b_dirs b')) = es.
Proof.
  intros Hwf. unfold appendEntries. intros [= <- <-]. splits; auto.
  - unfold extends. splits; simpl; try (exists []; now rewrite app_nil_r).
    now exists es.
  - simpl. rewrite index_of_ref, length_app by assumption. lia.
  - simpl. rewrite index_of_ref by assumption. apply slice_whole.
Qed.

Lemma finalizeChildren_spec entries :
  Forall (fun e =>
            forall b b' r,
              wfBuilder blockSize b ->
              finalizeNode blockSize cap (snd e) b = (b', r) ->
              extends blockSize b b' /\ wfBuilder blockSize b' /\
              holds blockSize cap b' r (snd e)) entries ->
  forall b b' es,
    wfBuilder blockSize b ->
    finalizeChildren (finalizeNode blockSize cap) entries b = (b', es) ->
    extends blockSize b b' /\ wfBuilder blockSize b' /\
    allHold (holds blockSize cap b') entries es.
Proof.
  induction 1 as [|[name c] rest Hc Hrest IH]; intros b b' es Hwf;
    simpl finalizeChildren.
  - intros [= <- <-]. splits; auto using extends_refl. exact I.
  - simpl in Hc. destruct (finalizeNode blockSize cap c b) as [b1 r] eqn:H1.
    cbv iota beta.
    destruct (finalizeChildren (finalizeNode blockSize cap) rest b1)
      as [b2 es2] eqn:H2.
    intros [= <- <-].
    destruct (Hc _ _ _ Hwf H1) as [He1 [Hw1 Hh1]].
    destruct (IH _ _ _ Hw1 H2) as [He2 [Hw2 Hh2]].
    splits; auto.
    + eapply extends_trans; eauto.
    + simpl. splits; auto. eapply holds_extends; eauto.
Qed.

Lemma finalizeNode_spec n :
  forall b b' r,
    wfBuilder blockSize b ->
    finalizeNode blockSize cap n b = (b', r) ->
    extends blockSize b b' /\ wfBuilder blockSize b' /\
    holds blockSize cap b' r n.
Proof.
  induction n as [entries IH | content | target] using StagingNode_nested_ind;
    intros b b' r Hwf; cbn [finalizeNode].
  - destruct (finalizeChildren (finalizeNode blockSize cap) entries b)
      as [b1 es] eqn:H1.
    cbv iota beta.
    destruct (appendEntries cap es b1) as [b2 start] eqn:H2.
    intros H3.
    destruct (finalizeChildren_spec _ IH _ _ _ Hwf H1) as [He1 [Hw1 Hh1]].
    destruct (appendEntries_spec _ _ _ _ Hw1 H2) as [He2 [Hw2 [Hb2 Hs2]]].
    destruct (appendInode_spec _ _ _ _ Hw2 H3) as [He3 [Hw3 [Hn3 Hd3]]].
    splits; auto.
    + eapply extends_trans; [|exact He3]. eapply extends_trans; eauto.
    + exists start, es. splits; auto.
      * rewrite Hd3. exact Hb2.
      * rewrite Hd3. exact Hs2.
      * eapply allHold_impl; [|exact Hh1].
        apply Forall_forall. intros [name c] _ r0. simpl.
        apply holds_extends. eapply extends_trans; eauto.
  - destruct (writeFile blockSize content b) as [b1 ino] eqn:H1. intros H2.
    destruct (writeFile_spec codec_ok blockSize blockSize_pos _ _ _ _ Hwf H1)
      as [He1 [Hw1 [_ [_ Hrep]]]].
    destruct (appendInode_spec _ _ _ _ Hw1 H2) as [He2 [Hw2 [Hn2 _]]].
    splits; auto.
    + eapply extends_trans; eauto.
    + exists ino. split; auto. eapply fileRep_extends; eauto.
  - intros H1.
    destruct (appendInode_spec _ _ _ _ Hwf H1) as [He [Hw [Hn _]]].
    splits; auto.
Qed.
End Finalizer.

(** *** Reading back *)

Section ReadSegments.
Context {C : Codec}.
Variable img : Image.

Lemma readSegments_spec segs :
  forall datas,
    Forall2 (fun sg d => fetchSegment img sg = inl d /\
                         length d = segLength img sg) segs datas ->
    forall off len,
      readSegments img segs off len
        = inl (firstn len (skipn off (List.concat datas))).
Proof.
  induction segs as [|sg segs IH]; intros datas Hall off len.
  - inversion Hall; subst. simpl. now rewrite skipn_nil, firstn_nil.
  - inversion Hall as [|? d ? ds [Hfetch Hlen] Hrest]; subst.
    cbn [readSegments List.concat]. rewrite skipn_app, Hlen.
    destruct (Nat.leb_spec (segLength img sg) off) as [Hle | Hlt].
    + rewrite skipn_all2 by lia. simpl. now apply IH.
    + destruct (Nat.eqb_spec len 0) as [-> | Hpos]; [reflexivity|].
      rewrite Hfetch. cbn [andThen].
      rewrite (IH _ Hrest). cbn [andThen].
      replace (off - segLength img sg) with 0 by lia.
      rewrite firstn_app, length_skipn, Hlen. reflexivity.
Qed.
End ReadSegments.

Section Reader.
Context {C : Codec}.
Variable blockSize : nat.
Hypothesis blockSize_pos : 0 < blockSize.
Variable cap : nat.
Variable b : Builder.
Variable img : Image.
Hypothesis img_of_b : imageFor blockSize cap b img.

Lemma lookupInode_image r ino :
  nth_error (b_inodes b) (indexOf cap r) = Some ino ->
  lookupInode img r = inl ino.
Proof.
  pose proof img_of_b as [_ [Hcap [_ [_ [Hino _]]]]].
  unfold lookupInode, imgIndex, indexOf. rewrite Hcap, Hino.
  now intros ->.
Qed.

Lemma fetchBlock_image loc :
  fetchBlock img loc = fetchIn blockSize (b_data b) loc.
Proof.
  pose proof img_of_b as [Hbs [_ [Hdata _]]].
  unfold fetchBlock. now rewrite Hbs, Hdata.
Qed.

Lemma fetchFragment_image fr blk :
  fragLogical blockSize b (frag_block fr) = Some blk ->
  0 < frag_len fr ->
  frag_offset fr + frag_len fr <= length blk ->
  fetchFragment img fr
    = inl (firstn (frag_len fr) (skipn (frag_offset fr) blk)).
Proof.
  intros Hblk Hpos Hbound.
  pose proof img_of_b as [Hbs [_ [Hdata [Hfrag [_ [_ Hopen]]]]]].
  unfold fetchFragment. rewrite Hfrag.
  destruct (fragLogical_cases _ _ _ _ Hblk) as [[loc [Hn ->]] | [_ ->]].
  - rewrite Hn. cbn [orError andThen]. now rewrite fetchBlock_image.
  - rewrite Hopen in Hbound. simpl in Hbound. lia.
Qed.

Lemma readInode_image ino content :
  fileRep blockSize b ino content ->
  forall off len,
    readInode img ino off len = inl (firstn len (skipn off content)).
Proof.
  destruct ino as [size locs frag | |]; simpl; try contradiction.
  intros [Hsize [Hmap [Hin Hfrag]]] off len.
  rewrite <- (fullBlocks_tail blockSize blockSize_pos content) at 1.
  assert (Hblocks :
            Forall2 (fun sg d => fetchSegment img sg = inl d /\
                                 length d = segLength img sg)
                    (map SegBlock locs) (fullBlocks blockSize content)).
  { rewrite <- Hmap.
    assert (Hl : Forall (fun c => length c = blockSize)
                        (map (fetchIn blockSize (b_data b)) locs))
      by (rewrite Hmap; now apply fullBlocks_lengths).
    clear Hmap Hin. induction locs as [|loc locs IH]; cbn [map];
      constructor.
    - inversion Hl; subst. split.
      + cbn [fetchSegment]. now rewrite fetchBlock_image.
      + pose proof img_of_b as [Hbs _]. cbn [segLength]. now rewrite Hbs.
    - apply IH. now inversion Hl. }
  unfold segmentsOf. destruct frag as [fr|].
  - destruct Hfrag as [Hlen [Hpos [blk [Hblk [Hbound Hslice]]]]].
    rewrite (readSegments_spec img _
               (fullBlocks blockSize content ++ [tailOf blockSize content])).
    + now rewrite concat_app; simpl; rewrite app_nil_r.
    + apply Forall2_app; [exact Hblocks|]. constructor; [|constructor].
      split.
      * simpl. rewrite (fetchFragment_image _ _ Hblk Hpos Hbound).
        now rewrite Hslice.
      * simpl. now rewrite Hlen.
  - rewrite Hfrag, !app_nil_r.
    now rewrite (readSegments_spec img _ (fullBlocks blockSize content)).
Qed.

Lemma allHold_views (P : MetadataRef -> StagingNode -> Prop) entries :
  forall es, allHold P entries es ->
             map entryView es = map childView entries.
Proof.
  induction entries as [|[name c] rest IH]; intros [|e es]; simpl;
    try contradiction; auto.
  intros [Hn [Hk [_ Hall]]]. unfold entryView at 1, childView at 1. simpl.
  now rewrite Hn, Hk, (IH _ Hall).
Qed.

Lemma allHold_find (P : MetadataRef -> StagingNode -> Prop) name entries :
  forall es c,
    allHold P entries es ->
    child name entries = Some c ->
    exists e, findEntry name es = Some e /\
              de_kind e = kindOf c /\ P (de_inode e) c.
Proof.
  induction entries as [|[n c0] rest IH]; intros [|e es] c; simpl;
    try contradiction; try discriminate.
  intros [Hn [Hk [Hp Hall]]]. rewrite Hn.
  destruct (String.eqb n name).
  - intros [= <-]. now exists e.
  - now apply IH.
Qed.

Lemma listInode_image r entries :
  holds blockSize cap b r (Directory entries) ->
  exists ino es,
    lookupInode img r = inl ino /\
    listInode img ino = inl es /\
    allHold (holds blockSize cap b) entries es.
Proof.
  simpl. intros [start [es [Hino [Hbound [Hslice Hall]]]]].
  exists (IDir start (length es)), es. splits; auto.
  - now apply lookupInode_image.
  - pose proof img_of_b as [_ [Hcap [_ [_ [_ [Hdirs _]]]]]].
    unfold listInode, imgIndex. fold (indexOf (metaCap img) start).
    rewrite Hcap, Hdirs, Hslice. now rewrite Nat.eqb_refl.
Qed.

(** A path along staged directories resolves to what was staged there;
    no symlink is followed on the way. *)
Lemma resolveWith_image follow followLast segs :
  forall n r stack m,
    holds blockSize cap b r n ->
    nodeAt n segs = Some m ->
    Forall (fun s => plainName s = true) segs ->
    (followLast = false \/ kindOf m <> KSymlink) ->
    exists r' stack',
      resolveWith img follow followLast (r :: stack) segs
        = inl (r' :: stack') /\
      holds blockSize cap b r' m.
Proof.
  induction segs as [|seg rest IH]; intros n r stack m Hh Hat Hplain Hlast.
  - injection Hat as <-. now exists r, stack.
  - inversion Hplain as [|? ? Hseg Hrest]; subst.
    destruct n as [entries | |]; try discriminate Hat.
    cbn [nodeAt] in Hat.
    destruct (child seg entries) as [c|] eqn:Hchild; [|discriminate].
    destruct (listInode_image _ _ Hh) as [ino [es [Hlook [Hlist Hall]]]].
    destruct (allHold_find _ _ _ _ _ Hall Hchild) as [e [Hfind [Hkind Hc]]].
    unfold plainName in Hseg.
    cbn [resolveWith].
    destruct (String.eqb seg "" || String.eqb seg ".") eqn:E1;
      [try rewrite E1 in Hseg; discriminate|].
    destruct (String.eqb seg "..") eqn:E2;
      [try rewrite E2 in Hseg; simpl in Hseg; discriminate|].
    cbn [hd_error orError andThen]. rewrite Hlook. cbn [andThen].
    rewrite Hlist. cbn [andThen]. rewrite Hfind. cbn [orError andThen].
    rewrite Hkind.
    destruct c as [sub | content | target]; cbn [kindOf].
    + destruct rest; destruct followLast; eapply IH; eauto.
    + destruct rest; destruct followLast; eapply IH; eauto.
    + destruct rest as [|seg' rest']; [|discriminate Hat].
      injection Hat as <-.
      destruct Hlast as [-> | Hne]; [|now contradiction Hne].
      now exists (de_inode e), (r :: stack).
Qed.

Lemma resolveInode_image followLast segs n m :
  holds blockSize cap b (sb_root img) n ->
  nodeAt n segs = Some m ->
  Forall (fun s => plainName s = true) segs ->
  (followLast = false \/ kindOf m <> KSymlink) ->
  exists r',
    holds blockSize cap b r' m /\
    resolveInode img followLast segs = lookupInode img r'.
Proof.
  intros Hh Hat Hplain Hlast. unfold resolveInode.
  change (resolve img maxSymlinkDepth followLast [sb_root img] segs)
    with (resolveWith img (resolve img 39 true) followLast [sb_root img] segs).
  destruct (resolveWith_image (resolve img 39 true) followLast segs
                              n (sb_root img) [] m Hh Hat Hplain Hlast)
    as [r' [stack' [Hres Hm]]].
  exists r'. split; [exact Hm|]. rewrite Hres. reflexivity.
Qed.
End Reader.

(** *** The round trip *)

Lemma emptyBuilder_wf blockSize : wfBuilder blockSize emptyBuilder.
Proof. split; simpl; [lia | constructor]. Qed.

Lemma finalize_holds {C : Codec} (blockSize cap : nat) (tree : StagingNode) :
  CodecRoundTrip C -> 0 < blockSize -> 0 < cap ->
  exists b,
    imageFor blockSize cap b (finalize blockSize cap tree) /\
    holds blockSize cap b (sb_root (finalize blockSize cap tree)) tree.
Proof.
  intros Hcodec Hbs Hcap. unfold finalize.
  destruct (finalizeNode blockSize cap tree emptyBuilder) as [b r] eqn:Hfin.
  destruct (finalizeNode_spec Hcodec blockSize Hbs cap Hcap tree _ _ _
                              (emptyBuilder_wf blockSize) Hfin)
    as [_ [Hwf Hh]].
  destruct (closeFragment_spec Hcodec blockSize Hbs b Hwf)
    as [He [_ [Hopen _]]].
  exists (closeFragment b). split.
  - unfold imageFor. simpl. splits; auto.
  - simpl. eapply holds_extends; eauto.
Qed.

(** C6.  For every staged tree of directories, files and symlinks,
    whatever the sizes of the files, finalizing the tree and reading the
    image back gives, at every path of the tree: for a directory, entries
    with the names and kinds of its staged children (as a rearrangement of
    them, the stored order aside); for a file, at every offset and for
    every length, the staged bytes of that range; for a symlink, its staged
    target. *)
Theorem finalize_read_roundtrip {C : Codec} (blockSize cap : nat)
        (tree : StagingNode) (segs : list string) (node : StagingNode) :
  CodecRoundTrip C ->
  0 < blockSize ->
  0 < cap ->
  nodeAt tree segs = Some node ->
  Forall (fun s => plainName s = true) segs ->
  let img := finalize blockSize cap tree in
  match node with
  | Directory entries =>
      exists es,
        read_dir img segs = inl es /\
        Permutation (map entryView es) (map childView entries)
  | File content =>
      forall off len,
        read_file img segs off len = inl (firstn len (skipn off content))
  | Symlink target => readlink img segs = inl target
  end.
Proof.
  intros Hcodec Hbs Hcap Hat Hplain img.
  destruct (finalize_holds blockSize cap tree Hcodec Hbs Hcap)
    as [b [Himg Hroot]].
  fold img in Himg, Hroot.
  destruct node as [entries | content | target].
  - destruct (resolveInode_image blockSize cap b img Himg true segs _ _
                                 Hroot Hat Hplain)
      as [r [Hr Hres]]; [right; discriminate|].
    destruct (listInode_image blockSize cap b img Himg _ _ Hr)
      as [ino [es [Hlook [Hlist Hall]]]].
    exists es. split.
    + unfold read_dir. rewrite Hres, Hlook. exact Hlist.
    + rewrite (allHold_views _ _ _ Hall). apply Permutation_refl.
  - intros off len.
    destruct (resolveInode_image blockSize cap b img Himg true segs _ _
                                 Hroot Hat Hplain)
      as [r [[ino [Hino Hrep]] Hres]]; [right; discriminate|].
    unfold read_file.
    rewrite Hres, (lookupInode_image blockSize cap b img Himg _ _ Hino).
    cbn [andThen].
    now apply (readInode_image blockSize Hbs cap b img Himg).
  - destruct (resolveInode_image blockSize cap b img Himg false segs _ _
                                 Hroot Hat Hplain)
      as [r [Hr Hres]]; [now left|].
    unfold readlink.
    rewrite Hres, (lookupInode_image blockSize cap b img Himg _ _ Hr).
    reflexivity.
Qed.

Lemma toyCodec_round_trip : CodecRoundTrip toyCodec.
Proof.
  intros b n _. destruct b as [|x [|y rest]]; try reflexivity.
  cbn [compress decompress toyCodec toyCompress].
  destruct (Byte.eqb x x00) eqn:Ex; destruct (Byte.eqb y x00) eqn:Ey;
    simpl; try reflexivity.
  apply Byte.byte_dec_bl in Ex, Ey. now subst.
Defined.

(** The file [big] of the example: two full blocks, one stored compressed
    and one not, and a fragment of one byte. *)
Lemma finalize_read_roundtrip_witness :
  CodecRoundTrip toyCodec /\ 0 < 4 /\ 0 < 3 /\
  nodeAt exampleTree ["big"]
    = Some (File [x00; x00; x01; x02; x05; x06; x07; x08; x09]) /\
  Forall (fun s => plainName s = true) ["big"] /\
  forall off len,
    read_file (C := toyCodec) exampleImage ["big"] off len
      = inl (firstn len (skipn off
               [x00; x00; x01; x02; x05; x06; x07; x08; x09])).
Proof.
  assert (Hplain : Forall (fun s => plainName s = true) ["big"])
    by (repeat constructor).
  split; [exact toyCodec_round_trip|].
  split; [lia|]. split; [lia|]. split; [reflexivity|].
  split; [exact Hplain|].
  exact (finalize_read_roundtrip (C := toyCodec) 4 3 exampleTree ["big"]
           (File [x00; x00; x01; x02; x05; x06; x07; x08; x09])
           toyCodec_round_trip (Nat.lt_0_succ 3) (Nat.lt_0_succ 2)
           eq_refl Hplain).
Defined.

End SquashfsFacts.
(* ------------------------------------------------------------------ *)
(** ** The theorems at work on the example filesystems *)

Module Witness.
Import GoStd Examples.

Lemma alwaysNil_nil : alwaysNilFn alwaysNil.
Proof. intros path info err s. reflexivity. Defined.

Lemma smallFS_described : describesRoot smallFS "/r" smallForest.
Proof.
  exists [dir "b"; file "C"; dir "A"].
  split; [reflexivity|]. split; [reflexivity|].
  repeat constructor; simpl.
  - exists []. repeat split.
  - eexists. split; [vm_compute; reflexivity|]. repeat split.
Defined.

Lemma smallFS_finite : RootFinite smallFS "/r".
Proof.
  intros c _ Hin. vm_compute in Hin.
  destruct Hin as [<- | [<- | [<- | []]]].
  - apply wf_dir; [reflexivity|]. intros c _ Hin. vm_compute in Hin.
    destruct Hin.
  - apply wf_file. reflexivity.
  - apply wf_dir; [reflexivity|]. intros c _ Hin Hdot. vm_compute in Hin.
    destruct Hin as [<- | [<- | [<- | [<- | []]]]];
      try discriminate Hdot; apply wf_file; reflexivity.
Defined.

(** The walk of [smallFS]: [A] and what it holds, then [b], then [C]. *)
Lemma siblings_in_case_insensitive_order_witness :
  ReadDir smallFS "/r" = ([dir "b"; file "C"; dir "A"], None) /\
  exists order visited x',
    Permutation order [dir "b"; file "C"; dir "A"] /\
    prefixOf visited order /\
    StronglySorted infoLe visited /\
    inTurn (rootStep smallFS alwaysNil 2 "/r") (mkLoop None None tt) visited
           [mkCall "/r/A" (Some (dir "A")) None None;
            mkCall "/r/A/X" (Some (file "X")) None None;
            mkCall "/r/A/y" (Some (file "y")) None None;
            mkCall "/r/b" (Some (dir "b")) None None;
            mkCall "/r/C" (Some (file "C")) None None] x' /\
    (returned x' = None -> visited = order) /\
    None = rootResult x'.
Proof.
  assert (Hrun : GenericWalk smallFS alwaysNil 2 "/r" tt =
                 Some (None, tt,
                       [mkCall "/r/A" (Some (dir "A")) None None;
                        mkCall "/r/A/X" (Some (file "X")) None None;
                        mkCall "/r/A/y" (Some (file "y")) None None;
                        mkCall "/r/b" (Some (dir "b")) None None;
                        mkCall "/r/C" (Some (file "C")) None None]))
    by (vm_compute; reflexivity).
  split; [reflexivity|].
  destruct (siblings_in_case_insensitive_order
              smallFS alwaysNil 2 "/r" [dir "b"; file "C"; dir "A"] tt
              eq_refl)
    as [_ [order [Hperm [_ [Hroot _]]]]].
  destruct (Hroot _ _ _ Hrun)
    as [visited [x' [Hp [Hs [Ht [_ [Hall [_ Hres]]]]]]]].
  exists order, visited, x'. splits; auto.
Defined.

Lemma unreadable_directory_reported_once_witness :
  ReadDir lockedFS "/r/locked" = ([], Some (Failure "permission denied")) /\
  walk lockedFS alwaysNil 1 "/r/locked" (dir "locked") tt =
    Some (None, tt,
          [mkCall "/r/locked" (Some (dir "locked"))
                  (Some (Failure "permission denied")) None]).
Proof.
  split; [reflexivity|].
  exact (proj1 (proj2 (unreadable_directory_reported_once
                         lockedFS alwaysNil 0 "/r/locked" []
                         (Failure "permission denied") tt eq_refl)
                      (dir "locked") eq_refl)).
Defined.

Lemma GenericWalk_terminates_witness :
  RootFinite smallFS "/r" /\
  exists n, forall fuel, n <= fuel ->
    forall St (fn : WalkFunc St) (s : St),
    exists r, GenericWalk smallFS fn fuel "/r" s = Some r.
Proof.
  split; [apply smallFS_finite|].
  exact (GenericWalk_terminates smallFS "/r" smallFS_finite).
Defined.

(** The entry [.] of the root's listing is passed to the callback. *)
Lemma dot_entries_skipped_below_root_only_witness :
  alwaysNilFn alwaysNil /\
  ReadDir dottedFS "/sub" = ([dir "."; dir ".."; file "f"], None) /\
  exists e r0,
    In (mkCall "/sub" (Some (dir ".")) e r0)
       [mkCall "/sub" (Some (dir ".")) None None;
        mkCall "/sub/f" (Some (file "f")) None None;
        mkCall "/" (Some (dir "..")) None None;
        mkCall "/sub" (Some (dir "sub")) None None;
        mkCall "/sub/f" (Some (file "f")) None None;
        mkCall "/top" (Some (file "top")) None None;
        mkCall "/sub/f" (Some (file "f")) None None].
Proof.
  split; [apply alwaysNil_nil|]. split; [reflexivity|].
  exact (proj2 (proj2 (dot_entries_skipped_below_root_only
                         dottedFS alwaysNil))
               3 "/sub" [dir "."; dir ".."; file "f"] tt None tt _
               alwaysNil_nil eq_refl eq_refl (dir ".") (or_introl eq_refl)).
Defined.

Lemma root_failure_returns_callback_value_witness :
  ReadDir brokenFS "/" = ([], Some (Failure "no such directory")) /\
  exists s' trace,
    GenericWalk brokenFS (byPath [("/", Some SkipAll)]) 0 "/" tt =
      Some (Some SkipAll, s', trace).
Proof.
  split; [reflexivity|].
  destruct (root_failure_returns_callback_value
              brokenFS (byPath [("/", Some SkipAll)]) 0 "/" []
              (Failure "no such directory") tt eq_refl)
    as [s' [trace [H _]]].
  exists s', trace. exact H.
Defined.

(** The callback answers [SkipAll] at [/r/A/X]: nothing is visited after
    it and the walk returns nil. *)
Lemma SkipAll_ends_walk_witness :
  GenericWalk smallFS (byPath [("/r/A/X", Some SkipAll)]) 2 "/r" tt =
    Some (None, tt,
          [mkCall "/r/A" (Some (dir "A")) None None;
           mkCall "/r/A/X" (Some (file "X")) None (Some SkipAll)]) /\
  ([] : list Call) = [] /\ (None : error) = None.
Proof.
  assert (Hrun : GenericWalk smallFS (byPath [("/r/A/X", Some SkipAll)])
                             2 "/r" tt =
                 Some (None, tt,
                       [mkCall "/r/A" (Some (dir "A")) None None;
                        mkCall "/r/A/X" (Some (file "X")) None
                               (Some SkipAll)]))
    by (vm_compute; reflexivity).
  split; [exact Hrun|].
  apply (SkipAll_ends_walk
           smallFS (byPath [("/r/A/X", Some SkipAll)]) 2 "/r" tt tt None
           [mkCall "/r/A" (Some (dir "A")) None None;
            mkCall "/r/A/X" (Some (file "X")) None (Some SkipAll)]
           [mkCall "/r/A" (Some (dir "A")) None None] []
           (mkCall "/r/A/X" (Some (file "X")) None (Some SkipAll))
           Hrun eq_refl).
  - discriminate.
  - reflexivity.
Defined.

End Witness.
(* ------------------------------------------------------------------ *)
(** ** The further properties on the example filesystems *)

Module ExtraWitness.
Import GoStd Examples MoreExamples.

(** [SkipAll] at [/r/A/X] comes up as nil. *)
Lemma readable_root_returns_no_sentinel_witness :
  ReadDir smallFS "/r" = ([dir "b"; file "C"; dir "A"], None) /\
  GenericWalk smallFS (byPath [("/r/A/X", Some SkipAll)]) 2 "/r" tt =
    Some (None, tt,
          [mkCall "/r/A" (Some (dir "A")) None None;
           mkCall "/r/A/X" (Some (file "X")) None (Some SkipAll)]) /\
  (None : error) <> Some SkipDir /\ (None : error) <> Some SkipAll.
Proof.
  assert (Hrun : GenericWalk smallFS (byPath [("/r/A/X", Some SkipAll)])
                             2 "/r" tt =
                 Some (None, tt,
                       [mkCall "/r/A" (Some (dir "A")) None None;
                        mkCall "/r/A/X" (Some (file "X")) None
                               (Some SkipAll)]))
    by (vm_compute; reflexivity).
  split; [reflexivity|]. split; [exact Hrun|].
  exact (readable_root_returns_no_sentinel
           smallFS (byPath [("/r/A/X", Some SkipAll)]) 2 "/r"
           [dir "b"; file "C"; dir "A"] tt tt None _ eq_refl Hrun).
Defined.

(** The error of the last entry, [/r/C], is what the walk returns. *)
Lemma GenericWalk_returns_last_answer_witness :
  exists tr,
    GenericWalk smallFS (failAt "/r/C") 2 "/r" tt
      = Some (Some (Failure "boom"), tt, tr) /\
    Some (Failure "boom") <> None /\
    exists pre c, tr = pre ++ [c] /\ call_ret c = Some (Failure "boom").
Proof.
  destruct (GenericWalk smallFS (failAt "/r/C") 2 "/r" tt)
    as [[[r s'] tr]|] eqn:Hrun; [|vm_compute in Hrun; discriminate].
  assert (Hr : r = Some (Failure "boom"))
    by (vm_compute in Hrun; congruence).
  destruct s'. subst r. exists tr.
  split; [reflexivity|]. split; [discriminate|].
  apply (GenericWalk_returns_last_answer
           smallFS (failAt "/r/C") 2 "/r" tt tt _ tr Hrun).
  discriminate.
Defined.

(** The error at [/r/A/X] ends the walk of [/r/A]. *)
Lemma error_ends_walk_of_entry_witness :
  walk smallFS (failAt "/r/A/X") 2 "/r/A" (dir "A") tt =
    Some (Some (Failure "boom"), tt,
          [mkCall "/r/A" (Some (dir "A")) None None]
            ++ mkCall "/r/A/X" (Some (file "X")) None (Some (Failure "boom"))
            :: []) /\
  Failure "boom" <> SkipDir /\
  ([] : list Call) = [] /\
  Some (Failure "boom") = Some (Failure "boom").
Proof.
  assert (Hrun : walk smallFS (failAt "/r/A/X") 2 "/r/A" (dir "A") tt =
                 Some (Some (Failure "boom"), tt,
                       [mkCall "/r/A" (Some (dir "A")) None None]
                         ++ mkCall "/r/A/X" (Some (file "X")) None
                                   (Some (Failure "boom")) :: []))
    by (vm_compute; reflexivity).
  assert (Hv : Failure "boom" <> SkipDir) by discriminate.
  split; [exact Hrun|]. split; [exact Hv|].
  exact (error_ends_walk_of_entry
           smallFS (failAt "/r/A/X") 2 "/r/A" (dir "A") tt tt _ _
           [mkCall "/r/A" (Some (dir "A")) None None] []
           (mkCall "/r/A/X" (Some (file "X")) None (Some (Failure "boom")))
           (Failure "boom") Hrun eq_refl eq_refl Hv).
Defined.

(** After the error in [/r/A] the walk still visits [/r/b] and [/r/C]. *)
Lemma errors_do_not_stop_GenericWalk_witness :
  exists r tr,
    ReadDir smallFS "/r" = ([dir "b"; file "C"; dir "A"], None) /\
    GenericWalk smallFS (failAt "/r/A/X") 2 "/r" tt = Some (r, tt, tr) /\
    In (mkCall "/r/A/X" (Some (file "X")) None (Some (Failure "boom"))) tr /\
    exists e r0, In (mkCall "/r/C" (Some (file "C")) e r0) tr.
Proof.
  assert (Hrun : GenericWalk smallFS (failAt "/r/A/X") 2 "/r" tt =
                 Some (None, tt,
                       [mkCall "/r/A" (Some (dir "A")) None None;
                        mkCall "/r/A/X" (Some (file "X")) None
                               (Some (Failure "boom"));
                        mkCall "/r/b" (Some (dir "b")) None None;
                        mkCall "/r/C" (Some (file "C")) None None]))
    by (vm_compute; reflexivity).
  eexists _, _. split; [reflexivity|]. split; [exact Hrun|].
  split; [simpl; auto|].
  refine (errors_do_not_stop_GenericWalk
            smallFS (failAt "/r/A/X") 2 "/r" [dir "b"; file "C"; dir "A"]
            tt tt _ _ eq_refl Hrun _ (file "C") _).
  - intros c [<- | [<- | [<- | [<- | []]]]]; split; discriminate.
  - simpl. auto.
Defined.

(** [/r/A/X] is visited below [/r/A], which was entered before it. *)
Lemma visits_only_below_entered_directories_witness :
  ReadDir smallFS "/r" = ([dir "b"; file "C"; dir "A"], None) /\
  exists p,
    childOf p (mkCall "/r/A/X" (Some (file "X")) None None) /\
    (p = "/r" \/
     exists d, In d [mkCall "/r/A" (Some (dir "A")) None None] /\
               entered d = true /\ call_path d = p).
Proof.
  split; [reflexivity|].
  apply (visits_only_below_entered_directories
           smallFS alwaysNil 2 "/r" [dir "b"; file "C"; dir "A"] tt tt None
           [mkCall "/r/A" (Some (dir "A")) None None]
           [mkCall "/r/A/y" (Some (file "y")) None None;
            mkCall "/r/b" (Some (dir "b")) None None;
            mkCall "/r/C" (Some (file "C")) None None]
           (mkCall "/r/A/X" (Some (file "X")) None None) eq_refl).
  vm_compute. reflexivity.
Defined.

(** The error passed for [/r/locked] is the one [ReadDir] gives for it. *)
Lemma callback_errors_origin_witness :
  GenericWalk lockedFS alwaysNil 1 "/r" tt =
    Some (None, tt,
          [mkCall "/r/locked" (Some (dir "locked"))
                  (Some (Failure "permission denied")) None;
           mkCall "/r/z" (Some (file "z")) None None]) /\
  errorFrom lockedFS
            (mkCall "/r/locked" (Some (dir "locked"))
                    (Some (Failure "permission denied")) None).
Proof.
  assert (Hrun : GenericWalk lockedFS alwaysNil 1 "/r" tt =
                 Some (None, tt,
                       [mkCall "/r/locked" (Some (dir "locked"))
                               (Some (Failure "permission denied")) None;
                        mkCall "/r/z" (Some (file "z")) None None]))
    by (vm_compute; reflexivity).
  split; [exact Hrun|].
  apply (callback_errors_origin lockedFS alwaysNil 1 "/r" tt tt None _ _ Hrun).
  simpl. auto.
Defined.

(** After [SkipDir] for [/d/a], the sibling [/d/b] is passed to the
    callback with [SkipDir] and is not walked. *)
Lemma after_SkipDir_no_sibling_is_walked_witness :
  walk siblingsFS (byPath [("/d/a", Some SkipDir)]) 1
       (Join "/d" (Name (dir "a"))) (dir "a") tt =
    Some (Some SkipDir, tt,
          [mkCall "/d/a" (Some (dir "a")) None (Some SkipDir)]) /\
  exists r s' t2,
    walkLoop (byPath [("/d/a", Some SkipDir)])
             (walk siblingsFS (byPath [("/d/a", Some SkipDir)]) 1)
             "/d" None [dir "a"; dir "b"] tt
      = Some (r, s', [mkCall "/d/a" (Some (dir "a")) None (Some SkipDir)]
                       ++ t2) /\
    Forall (fun c => call_err c = Some SkipDir) t2.
Proof.
  assert (Hw : walk siblingsFS (byPath [("/d/a", Some SkipDir)]) 1
                    (Join "/d" (Name (dir "a"))) (dir "a") tt =
               Some (Some SkipDir, tt,
                     [mkCall "/d/a" (Some (dir "a")) None (Some SkipDir)]))
    by (vm_compute; reflexivity).
  split; [exact Hw|].
  destruct (after_SkipDir_no_sibling_is_walked
              siblingsFS (byPath [("/d/a", Some SkipDir)]) 1 "/d"
              (dir "a") [dir "b"] tt tt _ eq_refl eq_refl Hw)
    as [r [s' [t2 [Hloop [_ [Herr _]]]]]].
  exists r, s', t2. split; [exact Hloop | exact Herr].
Defined.

(** Nothing is returned although [/r/locked] cannot be read. *)
Lemma nil_callback_gives_nil_witness :
  alwaysNilFn alwaysNil /\
  exists s' tr, GenericWalk lockedFS alwaysNil 1 "/r" tt = Some (None, s', tr).
Proof.
  split; [exact Witness.alwaysNil_nil|].
  destruct (GenericWalk lockedFS alwaysNil 1 "/r" tt)
    as [[[r s'] tr]|] eqn:Hrun; [|vm_compute in Hrun; discriminate].
  exists s', tr.
  now rewrite (nil_callback_gives_nil lockedFS alwaysNil 1 "/r" tt s' r tr
                 Witness.alwaysNil_nil Hrun).
Defined.

(** [a] stays in front of [A], and [b] in front of [B]. *)
Lemma case_colliding_names_keep_listing_order_witness :
  ReadDir collidingFS "/c" = ([file "b"; file "a"; file "A"; file "B"], None) /\
  List.length [file "b"; file "a"; file "A"; file "B"] <= maxInsertion /\
  fst (readDirInfos collidingFS "/c") = [file "a"; file "A"; file "b"; file "B"] /\
  withKey "a" (fst (readDirInfos collidingFS "/c")) = [file "a"; file "A"].
Proof.
  assert (Hlen : List.length [file "b"; file "a"; file "A"; file "B"]
                 <= maxInsertion) by (vm_compute; lia).
  split; [reflexivity|]. split; [exact Hlen|]. split; [reflexivity|].
  exact (case_colliding_names_keep_listing_order
           collidingFS "/c" [file "b"; file "a"; file "A"; file "B"] "a"
           eq_refl Hlen).
Defined.

(** The walk of [smallFS]: five entries, each once. *)
Lemma plain_root_tree_walked_once_in_preorder_witness :
  describesRoot smallFS "/r" smallForest /\
  listsNoDots smallFS "/r" /\
  alwaysNilFn alwaysNil /\
  forestHeight smallForest <= 2 /\
  exists us,
    arrangedForest smallForest us /\
    GenericWalk smallFS alwaysNil 2 "/r" tt =
      Some (None, runCalls alwaysNil (preorderForest "/r" us) tt,
            preorderForest "/r" us) /\
    Permutation (preorderForest "/r" us) (preorderForest "/r" smallForest).
Proof.
  assert (Hh : forestHeight smallForest <= 2) by (vm_compute; lia).
  assert (Hplain : listsNoDots smallFS "/r")
    by (repeat constructor).
  split; [exact Witness.smallFS_described|].
  split; [exact Hplain|].
  split; [exact Witness.alwaysNil_nil|].
  split; [exact Hh|].
  destruct (plain_root_tree_walked_once_in_preorder
              smallFS alwaysNil "/r" smallForest 2 tt
              Witness.smallFS_described Hplain Witness.alwaysNil_nil Hh)
    as [us [Hus [Hrun [Hperm _]]]].
  exists us. splits; auto.
Defined.

End ExtraWitness.
